(** * stream-compare: the comparison engine and its incremental reducer

    A shallow embedding of [node_modules/stream-compare]: the file
    [lib/make-incremental.js] ([incrementalProp], [makeIncremental]) and
    the engine [streamCompare] with its closures ([done], [onStreamError],
    [doCompare], [checkpoint], [end], the event wiring, [endListener],
    [addData], [handleData], [readNext], [readNextOnEnd]).

    JavaScript objects that the code mutates are threaded explicitly:
    the two [StreamState] objects through a state-and-exception monad,
    the closure variables of [streamCompare] through a [machine] record.
    The two streams are [EventEmitter]s of the environment; their listener
    tables are part of the machine because the engine registers and
    removes listeners on them. *)

From Stdlib Require Import List String Ascii Bool Arith PeanoNat ZArith Lia.
From Stdlib Require Import Strings.Byte.
Import ListNotations.
Local Open Scope string_scope.
Local Open Scope nat_scope.
Local Open Scope list_scope.
Set Warnings "-register-all".

(** ** JavaScript values *)

(** The values that flow through the engine untouched: payloads read from
    a stream, event arguments, comparison results and thrown errors.
    Numbers are integers here (the engine never computes with a payload). *)
Inductive jsval : Type :=
| VUndefined
| VNull
| VBool (b : bool)
| VNum (n : Z)
| VStr (s : string)
| VBuf (b : list byte)
| VArr (l : list jsval)
| VObj (fields : list (string * jsval))
| VTypeError (msg : string)
| VRangeError (msg : string).

(** [x === null], [x === undefined]. *)
Definition is_null (v : jsval) : bool :=
  match v with VNull => true | _ => false end.

Definition is_undefined (v : jsval) : bool :=
  match v with VUndefined => true | _ => false end.

(** [typeof x === 'string'], [x instanceof Buffer]. *)
Definition is_string (v : jsval) : bool :=
  match v with VStr _ => true | _ => false end.

Definition is_buffer (v : jsval) : bool :=
  match v with VBuf _ => true | _ => false end.

(** [Object.prototype.toString.call(x)]. *)
Definition objectToString (v : jsval) : string :=
  match v with
  | VUndefined => "[object Undefined]"
  | VNull => "[object Null]"
  | VBool _ => "[object Boolean]"
  | VNum _ => "[object Number]"
  | VStr _ => "[object String]"
  | VBuf _ => "[object Uint8Array]"
  | VArr _ => "[object Array]"
  | VObj _ => "[object Object]"
  | VTypeError _ => "[object Error]"
  | VRangeError _ => "[object Error]"
  end.

(** The completion of a call: a returned value or a thrown one. *)
Inductive completion (A : Type) : Type :=
| Normal (a : A)
| Throw (e : jsval).
Arguments Normal {A} a.
Arguments Throw {A} e.

(** ** A state-and-exception monad

    [M S A] is a computation over mutable objects [S] that returns an [A]
    or throws; the objects keep whatever was written before the throw. *)
Definition M (S A : Type) : Type := S -> S * completion A.

Definition ret {S A} (a : A) : M S A := fun s => (s, Normal a).

Definition throw {S A} (e : jsval) : M S A := fun s => (s, Throw e).

Definition bind {S A B} (m : M S A) (k : A -> M S B) : M S B :=
  fun s =>
    match m s with
    | (s', Normal a) => k a s'
    | (s', Throw e) => (s', Throw e)
    end.

Definition gets {S A} (f : S -> A) : M S A := fun s => (s, Normal (f s)).

Definition modify {S} (f : S -> S) : M S unit := fun s => (f s, Normal tt).

Definition lift {S A} (c : completion A) : M S A := fun s => (s, c).

Notation "x <- m ;; k" := (bind m (fun x => k))
  (at level 61, m at next level, right associativity).
Notation "m ;;; k" := (bind m (fun _ => k))
  (at level 61, right associativity).

(** ** StreamState *)

(** The [data] property: [undefined] until the first payload, then a
    string, a Buffer, or (in objectMode) an Array. *)
Inductive dataVal : Type :=
| DUndef
| DStr (s : string)
| DBuf (b : list byte)
| DArr (a : list jsval).

(** An entry of the [events] property: [{name, args}]. *)
Record event : Type := mkEvent { name : string; args : list jsval }.

Module StreamState.
#[projections(primitive)]
Record t : Type := mk {
  ended : bool;
  events : list event;
  data : dataVal;
  totalDataLen : nat
}.

(** [new StreamState()]. *)
Definition new : t :=
  {| ended := false; events := []; data := DUndef; totalDataLen := 0 |}.

Definition set_ended (b : bool) (s : t) : t :=
  {| ended := b; events := events s; data := data s;
     totalDataLen := totalDataLen s |}.

Definition set_events (e : list event) (s : t) : t :=
  {| ended := ended s; events := e; data := data s;
     totalDataLen := totalDataLen s |}.

Definition set_data (d : dataVal) (s : t) : t :=
  {| ended := ended s; events := events s; data := d;
     totalDataLen := totalDataLen s |}.

Definition set_totalDataLen (n : nat) (s : t) : t :=
  {| ended := ended s; events := events s; data := data s;
     totalDataLen := n |}.
End StreamState.

(** The pair of state objects a comparison function receives. *)
Definition states : Type := (StreamState.t * StreamState.t)%type.

(** ** Array-like values: truthiness, [.length] and [.slice] *)

Fixpoint str_drop (n : nat) (s : string) : string :=
  match n, s with
  | 0, _ => s
  | S n', String _ s' => str_drop n' s'
  | S _, EmptyString => EmptyString
  end.

Fixpoint str_take (n : nat) (s : string) : string :=
  match n, s with
  | S n', String c s' => String c (str_take n' s')
  | _, _ => EmptyString
  end.

(** What [incrementalProp] asks of a property value. [alength] is only
    consulted behind a truthiness test in the source, so its value at
    [undefined] is never observed; [slice] on [undefined] throws. *)
Class ArrayLike (V : Type) : Type := {
  truthy : V -> bool;
  alength : V -> nat;
  slice : nat -> option nat -> V -> completion V
}.

(** [l.slice(start)] and [l.slice(start, stop)] for [0 <= start]. *)
Definition list_slice {A} (start : nat) (stop : option nat) (l : list A)
  : list A :=
  match stop with
  | None => skipn start l
  | Some e => firstn (e - start) (skipn start l)
  end.

Definition str_slice (start : nat) (stop : option nat) (s : string) : string :=
  match stop with
  | None => str_drop start s
  | Some e => str_take (e - start) (str_drop start s)
  end.

#[export] Instance dataVal_ArrayLike : ArrayLike dataVal := {
  truthy v :=
    match v with
    | DUndef => false
    | DStr s => negb (String.length s =? 0)
    | DBuf _ | DArr _ => true
    end;
  alength v :=
    match v with
    | DUndef => 0
    | DStr s => String.length s
    | DBuf b => List.length b
    | DArr a => List.length a
    end;
  slice start stop v :=
    match v with
    | DUndef =>
        Throw (VTypeError "Cannot read properties of undefined (reading 'slice')")
    | DStr s => Normal (DStr (str_slice start stop s))
    | DBuf b => Normal (DBuf (list_slice start stop b))
    | DArr a => Normal (DArr (list_slice start stop a))
    end
}.

#[export] Instance events_ArrayLike : ArrayLike (list event) := {
  truthy _ := true;
  alength l := List.length l;
  slice start stop l := Normal (list_slice start stop l)
}.

(** The two property names [incrementalProp] is called with. *)
Inductive PropName : Type -> Type :=
| data_prop : PropName dataVal
| events_prop : PropName (list event).

Definition getProp {V} (p : PropName V) : StreamState.t -> V :=
  match p in PropName V return StreamState.t -> V with
  | data_prop => StreamState.data
  | events_prop => StreamState.events
  end.

Definition setProp {V} (p : PropName V) : V -> StreamState.t -> StreamState.t :=
  match p in PropName V return V -> StreamState.t -> StreamState.t with
  | data_prop => StreamState.set_data
  | events_prop => StreamState.set_events
  end.

Definition arrayLike_of {V} (p : PropName V) : ArrayLike V :=
  match p in PropName V return ArrayLike V with
  | data_prop => dataVal_ArrayLike
  | events_prop => events_ArrayLike
  end.

(** ** lib/make-incremental.js *)

(** [(values && values.length !== 0) || state.ended] *)
Definition hasEvidence {V} `{ArrayLike V} (values : V) (state : StreamState.t)
  : bool :=
  (truthy values && negb (alength values =? 0)) || StreamState.ended state.

(** [values ? values.length : 0] *)
Definition lengthOr0 {V} `{ArrayLike V} (values : V) : nat :=
  if truthy values then alength values else 0.

(** [result === null || result === undefined] *)
Definition inconclusive (result : jsval) : bool :=
  is_null result || is_undefined result.

Definition incrementalProp {V} `{ArrayLike V} (propName : PropName V)
    (compare : V -> V -> completion jsval) : M states jsval :=
  state1 <- gets fst ;;
  state2 <- gets snd ;;
  let values1 := getProp propName state1 in
  let values2 := getProp propName state2 in
  if hasEvidence values1 state1 && hasEvidence values2 state2 then
    let minLen := Nat.min (lengthOr0 values1) (lengthOr0 values2) in
    result <-
      (if (truthy values1 && (minLen <? alength values1))
          && negb (StreamState.ended state2) then
         v1 <- lift (slice 0 (Some minLen) values1) ;;
         lift (compare v1 values2)
       else if (truthy values2 && (minLen <? alength values2))
               && negb (StreamState.ended state1) then
         v2 <- lift (slice 0 (Some minLen) values2) ;;
         lift (compare values1 v2)
       else lift (compare values1 values2)) ;;
    (if (0 <? minLen) && inconclusive result then
       t1 <- lift (slice minLen None values1) ;;
       modify (fun st : states => (setProp propName t1 (fst st), snd st)) ;;;
       t2 <- lift (slice minLen None values2) ;;
       modify (fun st : states => (fst st, setProp propName t2 (snd st)))
     else ret tt) ;;;
    ret result
  else ret VUndefined.

(** A comparison function over [StreamState]s, as the engine calls it. *)
Definition compareFn : Type := M states jsval.

(** [makeIncremental(compareData, compareEvents)]; an argument that was
    not given is [None], and [f && g(...)] then yields [undefined]. *)
Definition makeIncremental
    (compareData : option (dataVal -> dataVal -> completion jsval))
    (compareEvents : option (list event -> list event -> completion jsval))
  : compareFn :=
  dataResult <-
    match compareData with
    | Some f => incrementalProp data_prop f
    | None => ret VUndefined
    end ;;
  eventsResult <-
    match compareEvents with
    | Some f => incrementalProp events_prop f
    | None => ret VUndefined
    end ;;
  ret (if negb (is_null dataResult) && negb (is_undefined dataResult)
       then dataResult else eventsResult).

(** ** index.js: types of the engine *)

Module CompareType.
Inductive t : Type := checkpoint | incremental | last.
End CompareType.

Module ReadPolicy.
Inductive t : Type := flowing | least | none.
End ReadPolicy.

(** [StreamCompareOptions], as the caller passes it: an absent key is
    [None]. *)
Module StreamCompareOptions.
Record t : Type := mk {
  abortOnError : option bool;
  compare : option compareFn;
  delay : option nat;
  endEvents : option (list string);
  events : option (list string);
  incremental : option compareFn;
  objectMode : option bool;
  readPolicy : option ReadPolicy.t
}.

Definition empty : t :=
  {| abortOnError := None; compare := None; delay := None;
     endEvents := None; events := None; incremental := None;
     objectMode := None; readPolicy := None |}.
End StreamCompareOptions.

(** The [options] variable of [streamCompare] once the defaults are merged
    in and the checks have passed: [compare] is then a function. *)
Module Options.
Record t : Type := mk {
  abortOnError : bool;
  compare : compareFn;
  delay : nat;
  endEvents : list string;
  events : list string;
  incremental : option compareFn;
  objectMode : bool;
  readPolicy : ReadPolicy.t
}.
End Options.

(** Which of the two streams (and of the two states). *)
Inductive side : Type := One | Two.

(** The functions the engine registers as listeners. [listener eventName]
    is [listeners1[eventName]] on stream1 and [listeners2[eventName]] on
    stream2; [endListener] is [endListener1] resp. [endListener2];
    [handleData] is [handleData.bind(streamN, stateN)]. *)
Module Fn.
Inductive t : Type :=
| listener (eventName : string)
| endListener
| onStreamError
| readNext
| readNextOnEnd
| handleData.

(** Identity of function objects. *)
Definition eqb (f g : t) : bool :=
  match f, g with
  | listener a, listener b => String.eqb a b
  | endListener, endListener => true
  | onStreamError, onStreamError => true
  | readNext, readNext => true
  | readNextOnEnd, readNextOnEnd => true
  | handleData, handleData => true
  | _, _ => false
  end.
End Fn.

(** One entry of an [EventEmitter]'s listener table. [regId] tells two
    registrations of the same function apart (the wrapper that [once]
    creates is a fresh function object each time). *)
Record registration : Type := mkReg {
  regId : nat;
  regEvent : string;
  regFn : Fn.t;
  regOnce : bool
}.

(** A stream as the engine sees it: whether it has [.read()], the chunks
    that successive [.read()] calls return before [null], and the
    listeners the engine has registered on it, oldest first. *)
Module Stream.
#[projections(primitive)]
Record t : Type := mk {
  hasRead : bool;
  readable : list jsval;
  registrations : list registration;
  nextId : nat
}.

Definition set_readable (q : list jsval) (s : t) : t :=
  {| hasRead := hasRead s; readable := q;
     registrations := registrations s; nextId := nextId s |}.

Definition set_registrations (l : list registration) (s : t) : t :=
  {| hasRead := hasRead s; readable := readable s;
     registrations := l; nextId := nextId s |}.

Definition register (eventName : string) (fn : Fn.t) (once : bool) (s : t) : t :=
  {| hasRead := hasRead s; readable := readable s;
     registrations := registrations s ++ [mkReg (nextId s) eventName fn once];
     nextId := S (nextId s) |}.
End Stream.

(** The promise created by [streamCompare]. *)
Inductive settlement : Type :=
| Pending
| Fulfilled (value : jsval)
| Rejected (reason : jsval).

(** The messages passed to [debug], in the order of the source. *)
Inductive dbg : Type :=
| UnregisteringListeners
| ComparisonFinished
| EmittedError (i : side) (err : jsval)
| PerformingCompare (type : CompareType.t)
| ProducedResult (result : jsval)
| ProducedError (err : jsval)
| IgnoringCheckpoint
| IgnoringEnd
| EventFrom (eventName : string) (i : side)
| HasEnded (i : side)
| AllEndedDelayingFor (delay : nat)
| AllEndedDelaying
| ReadDataFrom (i : side)
| ErrorAddingData (i : side) (err : jsval)
| NoFurtherReads
| WaitingReadable (i : side)
| WillFlowing
| WillLeast
| NotReading.

(** The closure variables of one [streamCompare] call, the two streams,
    the promise, the pending [process.nextTick(readNext)] and the debug
    log. [postEndImmediate] and [postEndTimeout] say whether the timer is
    pending. *)
#[projections(primitive)]
Record machine : Type := mkMachine {
  options : Options.t;
  stream1 : Stream.t;
  stream2 : Stream.t;
  promise : settlement;
  state1 : StreamState.t;
  state2 : StreamState.t;
  ended : nat;
  isDone : bool;
  listeners1 : list string;
  listeners2 : list string;
  postEndImmediate : bool;
  postEndTimeout : bool;
  nextTick : bool;
  log : list dbg
}.

Definition set_stream1 (x : Stream.t) (m : machine) : machine :=
  mkMachine (options m) x (stream2 m) (promise m) (state1 m) (state2 m)
    (ended m) (isDone m) (listeners1 m) (listeners2 m) (postEndImmediate m)
    (postEndTimeout m) (nextTick m) (log m).

Definition set_stream2 (x : Stream.t) (m : machine) : machine :=
  mkMachine (options m) (stream1 m) x (promise m) (state1 m) (state2 m)
    (ended m) (isDone m) (listeners1 m) (listeners2 m) (postEndImmediate m)
    (postEndTimeout m) (nextTick m) (log m).

Definition set_promise (x : settlement) (m : machine) : machine :=
  mkMachine (options m) (stream1 m) (stream2 m) x (state1 m) (state2 m)
    (ended m) (isDone m) (listeners1 m) (listeners2 m) (postEndImmediate m)
    (postEndTimeout m) (nextTick m) (log m).

Definition set_state1 (x : StreamState.t) (m : machine) : machine :=
  mkMachine (options m) (stream1 m) (stream2 m) (promise m) x (state2 m)
    (ended m) (isDone m) (listeners1 m) (listeners2 m) (postEndImmediate m)
    (postEndTimeout m) (nextTick m) (log m).

Definition set_state2 (x : StreamState.t) (m : machine) : machine :=
  mkMachine (options m) (stream1 m) (stream2 m) (promise m) (state1 m) x
    (ended m) (isDone m) (listeners1 m) (listeners2 m) (postEndImmediate m)
    (postEndTimeout m) (nextTick m) (log m).

Definition set_ended (x : nat) (m : machine) : machine :=
  mkMachine (options m) (stream1 m) (stream2 m) (promise m) (state1 m)
    (state2 m) x (isDone m) (listeners1 m) (listeners2 m)
    (postEndImmediate m) (postEndTimeout m) (nextTick m) (log m).

Definition set_isDone (x : bool) (m : machine) : machine :=
  mkMachine (options m) (stream1 m) (stream2 m) (promise m) (state1 m)
    (state2 m) (ended m) x (listeners1 m) (listeners2 m)
    (postEndImmediate m) (postEndTimeout m) (nextTick m) (log m).

Definition set_listeners1 (x : list string) (m : machine) : machine :=
  mkMachine (options m) (stream1 m) (stream2 m) (promise m) (state1 m)
    (state2 m) (ended m) (isDone m) x (listeners2 m)
    (postEndImmediate m) (postEndTimeout m) (nextTick m) (log m).

Definition set_listeners2 (x : list string) (m : machine) : machine :=
  mkMachine (options m) (stream1 m) (stream2 m) (promise m) (state1 m)
    (state2 m) (ended m) (isDone m) (listeners1 m) x
    (postEndImmediate m) (postEndTimeout m) (nextTick m) (log m).

Definition set_postEndImmediate (x : bool) (m : machine) : machine :=
  mkMachine (options m) (stream1 m) (stream2 m) (promise m) (state1 m)
    (state2 m) (ended m) (isDone m) (listeners1 m) (listeners2 m)
    x (postEndTimeout m) (nextTick m) (log m).

Definition set_postEndTimeout (x : bool) (m : machine) : machine :=
  mkMachine (options m) (stream1 m) (stream2 m) (promise m) (state1 m)
    (state2 m) (ended m) (isDone m) (listeners1 m) (listeners2 m)
    (postEndImmediate m) x (nextTick m) (log m).

Definition set_nextTick (x : bool) (m : machine) : machine :=
  mkMachine (options m) (stream1 m) (stream2 m) (promise m) (state1 m)
    (state2 m) (ended m) (isDone m) (listeners1 m) (listeners2 m)
    (postEndImmediate m) (postEndTimeout m) x (log m).

Definition set_log (x : list dbg) (m : machine) : machine :=
  mkMachine (options m) (stream1 m) (stream2 m) (promise m) (state1 m)
    (state2 m) (ended m) (isDone m) (listeners1 m) (listeners2 m)
    (postEndImmediate m) (postEndTimeout m) (nextTick m) x.

Definition stream_of (i : side) (m : machine) : Stream.t :=
  match i with One => stream1 m | Two => stream2 m end.

Definition set_stream (i : side) (x : Stream.t) (m : machine) : machine :=
  match i with One => set_stream1 x m | Two => set_stream2 x m end.

Definition state_of (i : side) (m : machine) : StreamState.t :=
  match i with One => state1 m | Two => state2 m end.

Definition set_state (i : side) (x : StreamState.t) (m : machine) : machine :=
  match i with One => set_state1 x m | Two => set_state2 x m end.

(** ** Primitives of the host: debug, the promise, EventEmitter, timers *)

Definition debug (d : dbg) (m : machine) : machine :=
  set_log (log m ++ [d]) m.

(** [resolve(value)] and [reject(reason)] settle a pending promise and do
    nothing to a settled one. *)
Definition resolve (value : jsval) (m : machine) : machine :=
  match promise m with
  | Pending => set_promise (Fulfilled value) m
  | _ => m
  end.

Definition reject (reason : jsval) (m : machine) : machine :=
  match promise m with
  | Pending => set_promise (Rejected reason) m
  | _ => m
  end.

(** [stream.on(eventName, fn)] and [stream.once(eventName, fn)]. *)
Definition on (i : side) (eventName : string) (fn : Fn.t) (m : machine)
  : machine :=
  set_stream i (Stream.register eventName fn false (stream_of i m)) m.

Definition once (i : side) (eventName : string) (fn : Fn.t) (m : machine)
  : machine :=
  set_stream i (Stream.register eventName fn true (stream_of i m)) m.

Definition matches (eventName : string) (fn : Fn.t) (r : registration) : bool :=
  String.eqb (regEvent r) eventName && Fn.eqb (regFn r) fn.

(** [removeListener] removes the most recently added matching entry. *)
Fixpoint remove_last (p : registration -> bool) (l : list registration)
  : list registration :=
  match l with
  | [] => []
  | r :: l' =>
      if existsb p l' then r :: remove_last p l'
      else if p r then l' else r :: l'
  end.

Definition removeListener (i : side) (eventName : string) (fn : Fn.t)
    (m : machine) : machine :=
  let s := stream_of i m in
  set_stream i
    (Stream.set_registrations
       (remove_last (matches eventName fn) (Stream.registrations s)) s) m.

(** What a [once] wrapper does to itself before calling its function. *)
Definition removeRegistration (i : side) (id : nat) (m : machine) : machine :=
  let s := stream_of i m in
  set_stream i
    (Stream.set_registrations
       (filter (fun r => negb (regId r =? id)) (Stream.registrations s)) s) m.

(** [stream.read()]: the next chunk, or [null]. *)
Definition read (i : side) (m : machine) : jsval * machine :=
  let s := stream_of i m in
  match Stream.readable s with
  | [] => (VNull, m)
  | chunk :: rest => (chunk, set_stream i (Stream.set_readable rest s) m)
  end.

Definition clearImmediate (m : machine) : machine :=
  set_postEndImmediate false m.

Definition clearTimeout (m : machine) : machine :=
  set_postEndTimeout false m.

(** ** index.js: the closures of [streamCompare] *)

Definition done (m : machine) : machine :=
  let m := set_isDone true m in
  let m := debug UnregisteringListeners m in
  let m := fold_left
             (fun m eventName =>
                removeListener One eventName (Fn.listener eventName) m)
             (listeners1 m) m in
  let m := removeListener One "readable" Fn.readNext m in
  let m := removeListener One "error" Fn.onStreamError m in
  let m := removeListener One "end" Fn.readNextOnEnd m in
  let m := fold_left
             (fun m eventName => removeListener One eventName Fn.endListener m)
             (Options.endEvents (options m)) m in
  let m := fold_left
             (fun m eventName =>
                removeListener Two eventName (Fn.listener eventName) m)
             (listeners2 m) m in
  let m := removeListener Two "readable" Fn.readNext m in
  let m := removeListener Two "error" Fn.onStreamError m in
  let m := removeListener Two "end" Fn.readNextOnEnd m in
  let m := fold_left
             (fun m eventName => removeListener Two eventName Fn.endListener m)
             (Options.endEvents (options m)) m in
  let m := clearImmediate m in
  let m := clearTimeout m in
  debug ComparisonFinished m.

(** [this] is the stream that emitted ['error']. *)
Definition onStreamError (this : side) (err : jsval) (m : machine) : machine :=
  let m := debug (EmittedError this err) m in
  let m := reject err m in
  done m.

Definition doCompare (compareFn : compareFn) (type : CompareType.t)
    (m : machine) : machine * bool :=
  let m := debug (PerformingCompare type) m in
  let '(st, c) := compareFn (state1 m, state2 m) in
  let m := set_state2 (snd st) (set_state1 (fst st) m) in
  let '(m, hasResultOrError) :=
    match c with
    | Normal result =>
        if negb (is_undefined result) && negb (is_null result) then
          (resolve result (debug (ProducedResult result) m), true)
        else (m, false)
    | Throw err => (reject err (debug (ProducedError err) m), true)
    end in
  if hasResultOrError then (done m, true)
  else
    match type with
    | CompareType.last => (done (resolve VUndefined m), true)
    | _ => (m, false)
    end.

Definition checkpoint (m : machine) : machine :=
  if isDone m then debug IgnoringCheckpoint m
  else fst (doCompare (Options.compare (options m)) CompareType.checkpoint m).

(** [promise.end]. *)
Definition end_ (m : machine) : machine :=
  if isDone m then debug IgnoringEnd m
  else fst (doCompare (Options.compare (options m)) CompareType.last m).

(** [listener1] / [listener2] for [eventName], with the shared [listener]
    inlined ([this] is the state of that side). *)
Definition listener (i : side) (eventName : string) (args : list jsval)
    (m : machine) : machine :=
  let m := debug (EventFrom eventName i) m in
  let this := state_of i m in
  let m := set_state i
             (StreamState.set_events
                (StreamState.events this ++ [mkEvent eventName args]) this) m in
  match Options.incremental (options m) with
  | Some f => fst (doCompare f CompareType.incremental m)
  | None => m
  end.

(** [postEndCompare], the timer callback made by [endListener]. *)
Definition postEndCompare (m : machine) : machine :=
  fst (doCompare (Options.compare (options m)) CompareType.last m).

(** [endListener1] / [endListener2]. *)
Definition endListener (i : side) (m : machine) : machine :=
  if StreamState.ended (state_of i m) || isDone m then m
  else
    let m := set_state i (StreamState.set_ended true (state_of i m)) m in
    let m := set_ended (ended m + 1) m in
    let m := debug (HasEnded i) m in
    let '(m, stop) :=
      match Options.incremental (options m) with
      | Some f => doCompare f CompareType.incremental m
      | None => (m, false)
      end in
    if stop then m
    else if ended m =? 2 then
      if negb (Options.delay (options m) =? 0) then
        set_postEndTimeout true
          (debug (AllEndedDelayingFor (Options.delay (options m))) m)
      else set_postEndImmediate true (debug AllEndedDelaying m)
    else m.

(** [Object.prototype.toString.call(this.data)]. *)
Definition dataToString (d : dataVal) : string :=
  match d with
  | DUndef => "[object Undefined]"
  | DStr _ => "[object String]"
  | DBuf _ => "[object Uint8Array]"
  | DArr _ => "[object Array]"
  end.

Definition addTotalDataLen (n : nat) : M StreamState.t unit :=
  modify (fun this =>
            StreamState.set_totalDataLen (StreamState.totalDataLen this + n) this).

Definition mixedTypes (data : jsval) (this_data : dataVal) : jsval :=
  VTypeError ("read returned " ++ objectToString data ++ ", previously "
              ++ dataToString this_data ++ ".  Need objectMode?").

(** [addData.call(state, data)]; the state object is the monad's store.
    Outside objectMode the source tests the payload's type first and the
    type of [this.data] next; the nested matches below make the same
    tests in the same order. *)
Definition addData (options : Options.t) (data : jsval) : M StreamState.t unit :=
  this_data <- gets StreamState.data ;;
  if Options.objectMode options then
    (if negb (truthy this_data) then
       modify (StreamState.set_data (DArr [data]))
     else
       match this_data with
       | DArr a => modify (StreamState.set_data (DArr (a ++ [data])))
       | _ => throw (VTypeError "this.data.push is not a function")
       end) ;;;
    addTotalDataLen 1
  else
    match data with
    | VStr d =>
        match this_data with
        | DUndef =>
            modify (StreamState.set_data (DStr d)) ;;;
            addTotalDataLen (String.length d)
        | DStr s =>
            (if String.length s =? 0 then modify (StreamState.set_data (DStr d))
             else if 0 <? String.length d then
               modify (StreamState.set_data (DStr (s ++ d)))
             else ret tt) ;;;
            addTotalDataLen (String.length d)
        | _ => throw (mixedTypes data this_data)
        end
    | VBuf d =>
        match this_data with
        | DUndef =>
            modify (StreamState.set_data (DBuf d)) ;;;
            addTotalDataLen (List.length d)
        | DBuf b =>
            (if List.length b =? 0 then modify (StreamState.set_data (DBuf d))
             else if 0 <? List.length d then
               modify (StreamState.set_data (DBuf (b ++ d)))
             else ret tt) ;;;
            addTotalDataLen (List.length d)
        | _ => throw (mixedTypes data this_data)
        end
    | _ =>
        throw (VTypeError ("expected string or Buffer, got "
                           ++ objectToString data ++ ".  Need objectMode?"))
    end.

(** [handleData.call(stream_i, state_i, data)]. *)
Definition handleData (i : side) (data : jsval) (m : machine) : machine :=
  let m := debug (ReadDataFrom i) m in
  match addData (options m) data (state_of i m) with
  | (state, Throw err) =>
      let m := set_state i state m in
      let m := debug (ErrorAddingData i err) m in
      let m := reject err m in
      done m
  | (state, Normal _) =>
      let m := set_state i state m in
      match Options.incremental (options m) with
      | Some f => fst (doCompare f CompareType.incremental m)
      | None => m
      end
  end.

(** The choice at the top of the loop of [readNext]; [None] is the
    branch that returns because all streams have ended. *)
Definition selectStream (m : machine) : option side :=
  if negb (StreamState.ended (state1 m))
     && (StreamState.ended (state2 m)
         || (StreamState.totalDataLen (state1 m)
             <=? StreamState.totalDataLen (state2 m)))
  then Some One
  else if negb (StreamState.ended (state2 m)) then Some Two
  else None.

(** The [while (!isDone)] loop of [readNext]. Every iteration that goes
    round again has taken one chunk off a stream, so the loop runs at
    most once more than there are chunks; [fuel] counts iterations. *)
Fixpoint readNext_loop (fuel : nat) (m : machine) : machine :=
  match fuel with
  | 0 => m
  | S fuel' =>
      if isDone m then m
      else
        match selectStream m with
        | None => debug NoFurtherReads m
        | Some i =>
            let '(data, m) := read i m in
            if is_null data then
              once i "readable" Fn.readNext (debug (WaitingReadable i) m)
            else readNext_loop fuel' (handleData i data m)
        end
  end.

Definition chunks (m : machine) : nat :=
  List.length (Stream.readable (stream1 m))
  + List.length (Stream.readable (stream2 m)).

Definition readNext (m : machine) : machine :=
  readNext_loop (S (chunks m)) m.

Definition readNextOnEnd (m : machine) : machine :=
  let m := removeListener One "readable" Fn.readNext m in
  let m := removeListener Two "readable" Fn.readNext m in
  readNext m.

(** ** EventEmitter dispatch *)

(** [fn.apply(stream_i, args)]. *)
Definition call (i : side) (fn : Fn.t) (args : list jsval) (m : machine)
  : machine :=
  match fn with
  | Fn.listener eventName => listener i eventName args m
  | Fn.endListener => endListener i m
  | Fn.onStreamError => onStreamError i (hd VUndefined args) m
  | Fn.readNext => readNext m
  | Fn.readNextOnEnd => readNextOnEnd m
  | Fn.handleData => handleData i (hd VUndefined args) m
  end.

(** A [once] wrapper unregisters itself, then calls its function. *)
Definition invoke (i : side) (args : list jsval) (m : machine)
    (r : registration) : machine :=
  let m := if regOnce r then removeRegistration i (regId r) m else m in
  call i (regFn r) args m.

(** [stream_i.emit(eventName, ...args)]: the listeners registered for
    [eventName] when the emit starts are called in order, whatever is
    removed meanwhile. Only the engine's own listeners are in the table;
    what Node does when ['error'] has no listener at all (it throws in
    the emitter) happens outside the engine and is not modelled. *)
Definition emit (i : side) (eventName : string) (args : list jsval)
    (m : machine) : machine :=
  let snapshot :=
    filter (fun r => String.eqb (regEvent r) eventName)
           (Stream.registrations (stream_of i m)) in
  fold_left (invoke i args) snapshot m.

(** ** index.js: [streamCompare] itself *)

Definition DEFAULT_abortOnError : bool := false.
Definition DEFAULT_delay : nat := 0.
Definition DEFAULT_endEvents : list string := ["end"; "error"].
Definition DEFAULT_events : list string := ["close"; "end"; "error"].
Definition DEFAULT_objectMode : bool := false.
Definition DEFAULT_readPolicy : ReadPolicy.t := ReadPolicy.least.

(** Names that [listeners1[eventName]] finds on a fresh [{}] through
    [Object.prototype]; all of them are truthy. *)
Definition objectPrototypeKeys : list string :=
  ["constructor"; "__defineGetter__"; "__defineSetter__"; "hasOwnProperty";
   "__lookupGetter__"; "__lookupSetter__"; "isPrototypeOf";
   "propertyIsEnumerable"; "toString"; "valueOf"; "__proto__";
   "toLocaleString"].

Definition hasKey (keys : list string) (key : string) : bool :=
  existsb (String.eqb key) keys.

(** The body of [options.events.forEach]. *)
Definition wireEvent (m : machine) (eventName : string) : machine :=
  if hasKey (listeners1 m) eventName || hasKey objectPrototypeKeys eventName
  then m
  else if Options.abortOnError (options m) && String.eqb eventName "error"
  then m
  else
    let m := set_listeners1 (listeners1 m ++ [eventName]) m in
    let m := on One eventName (Fn.listener eventName) m in
    let m := set_listeners2 (listeners2 m ++ [eventName]) m in
    on Two eventName (Fn.listener eventName) m.

(** The body of [options.endEvents.forEach]. *)
Definition wireEndEvent (m : machine) (eventName : string) : machine :=
  if negb (Options.abortOnError (options m))
     || negb (String.eqb eventName "error")
  then on Two eventName Fn.endListener (on One eventName Fn.endListener m)
  else m.

Definition orDefault {A} (d : A) (o : option A) : A :=
  match o with Some a => a | None => d end.

(** [streamCompare(stream1, stream2, optionsOrCompare)] on arguments
    that have the types the source asks of them: both streams are
    EventEmitters, [endEvents] and [events] are arrays of names,
    [incremental] is a function when it is there and [readPolicy] is one
    of the three names. Of the checks of l.248-302 only the two that such
    arguments can still fail are made here; [Raw.streamCompare] below
    takes what a caller can pass and makes all of them. *)
Definition streamCompare (stream1 stream2 : Stream.t)
    (optionsOrCompare : option (compareFn + StreamCompareOptions.t))
  : completion machine :=
  let given :=
    match optionsOrCompare with
    | Some (inl f) =>
        StreamCompareOptions.mk None (Some f) None None None None None None
    | Some (inr o) => o
    | None => StreamCompareOptions.empty
    end in
  let compare :=
    match StreamCompareOptions.compare given with
    | Some f => Some f
    | None => StreamCompareOptions.incremental given
    end in
  let readPolicy :=
    orDefault DEFAULT_readPolicy (StreamCompareOptions.readPolicy given) in
  if match readPolicy with ReadPolicy.least => true | _ => false end
     && (negb (Stream.hasRead stream1) || negb (Stream.hasRead stream2))
  then Throw (VTypeError "streams must have .read() for readPolicy 'least'")
  else
    match compare with
    | None => Throw (VTypeError "options.compare must be a function")
    | Some compare =>
        let options :=
          {| Options.abortOnError :=
               orDefault DEFAULT_abortOnError
                 (StreamCompareOptions.abortOnError given);
             Options.compare := compare;
             Options.delay :=
               orDefault DEFAULT_delay (StreamCompareOptions.delay given);
             Options.endEvents :=
               orDefault DEFAULT_endEvents
                 (StreamCompareOptions.endEvents given);
             Options.events :=
               orDefault DEFAULT_events (StreamCompareOptions.events given);
             Options.incremental := StreamCompareOptions.incremental given;
             Options.objectMode :=
               orDefault DEFAULT_objectMode
                 (StreamCompareOptions.objectMode given);
             Options.readPolicy := readPolicy |} in
        let m :=
          {| options := options; stream1 := stream1; stream2 := stream2;
             promise := Pending;
             state1 := StreamState.new; state2 := StreamState.new;
             ended := 0; isDone := false;
             listeners1 := []; listeners2 := [];
             postEndImmediate := false; postEndTimeout := false;
             nextTick := false; log := [] |} in
        let m := fold_left wireEvent (Options.events options) m in
        let m := fold_left wireEndEvent (Options.endEvents options) m in
        let m :=
          if Options.abortOnError options then
            once Two "error" Fn.onStreamError
              (once One "error" Fn.onStreamError m)
          else m in
        let m :=
          match Options.readPolicy options with
          | ReadPolicy.flowing =>
              let m := debug WillFlowing m in
              on Two "data" Fn.handleData (on One "data" Fn.handleData m)
          | ReadPolicy.least =>
              let m := debug WillLeast m in
              let m := once One "end" Fn.readNextOnEnd m in
              let m := once Two "end" Fn.readNextOnEnd m in
              set_nextTick true m
          | ReadPolicy.none => debug NotReading m
          end in
        Normal m
    end.

(** ** [streamCompare] and the checks of its arguments

    What a caller can pass to [streamCompare], the checks of l.248-302
    in the order of the source, and then the comparison that
    [streamCompare] starts. *)
Module Raw.

(** A value given as [optionsOrCompare] or under one of its keys, as far
    as the checks tell values apart. An [arrayLike] is an object whose
    [length] is an integer, holding event names; [object] is any other
    object. *)
Inductive value : Type :=
| undefined
| null
| boolean (b : bool)
| number (n : Z)
| text (s : string)
| function (f : compareFn)
| arrayLike (names : list string)
| object.

(** [typeof v]. *)
Definition typeOf (v : value) : string :=
  match v with
  | undefined => "undefined"
  | null | arrayLike _ | object => "object"
  | boolean _ => "boolean"
  | number _ => "number"
  | text _ => "string"
  | function _ => "function"
  end.

(** [!!v]. *)
Definition toBoolean (v : value) : bool :=
  match v with
  | undefined | null => false
  | boolean b => b
  | number n => negb (n =? 0)%Z
  | text s => negb (String.eqb s "")
  | function _ | arrayLike _ | object => true
  end.

(** An options object: each key is absent or present with a value, which
    may be [undefined]. *)
Record bag : Type := mkBag {
  abortOnError : option value;
  compare : option value;
  delay : option value;
  endEvents : option value;
  events : option value;
  incremental : option value;
  objectMode : option value;
  readPolicy : option value
}.

Definition noKeys : bag := mkBag None None None None None None None None.

(** The third argument: a value without any of the eight keys, or an
    object with some of them. *)
Inductive argument : Type :=
| plain (v : value)
| withKeys (o : bag).

(** l.249-259: the options the caller gave. *)
Definition given (optionsOrCompare : argument) : completion bag :=
  match optionsOrCompare with
  | withKeys o => Normal o
  | plain v =>
      if toBoolean v then
        if String.eqb (typeOf v) "function" then
          Normal (mkBag None (Some v) None None None None None None)
        else if String.eqb (typeOf v) "object" then Normal noKeys
        else Throw (VTypeError "optionsOrCompare must be an object or function")
      else Normal noKeys
  end.

(** [Object.assign({}, DEFAULT_OPTIONS, options)[key]]: a key that is
    present wins over the default, also when its value is [undefined]. *)
Definition assigned (key : bag -> option value) (default : value)
    (options : bag) : value :=
  match key options with Some v => v | None => default end.

(** l.261-263: [options.compare] after the fallback to
    [options.incremental]. *)
Definition compareOf (options : bag) : value :=
  if toBoolean (assigned compare undefined options)
  then assigned compare undefined options
  else assigned incremental undefined options.

(** [!v || typeof v !== 'object' || v.length !== Math.floor(v.length)]
    is false: this model has no other object with an integer [length]. *)
Definition namesOf (v : value) : option (list string) :=
  match v with arrayLike names => Some names | _ => None end.

Definition functionOf (v : value) : option compareFn :=
  match v with function f => Some f | _ => None end.

(** [hasOwnProperty.call(ReadPolicy, name)]. *)
Definition policyOf (name : string) : option ReadPolicy.t :=
  if String.eqb name "flowing" then Some ReadPolicy.flowing
  else if String.eqb name "least" then Some ReadPolicy.least
  else if String.eqb name "none" then Some ReadPolicy.none
  else None.

(** Of [options.delay] the engine tests the truthiness (l.483) and hands
    the value to [setTimeout]. A number keeps its value, and any other
    truthy delay counts as one millisecond, the least a timer waits. *)
Definition delayOf (v : value) : nat :=
  match v with
  | number n => if (0 <? n)%Z then Z.to_nat n else if toBoolean v then 1 else 0
  | _ => if toBoolean v then 1 else 0
  end.

(** [streamCompare(stream1, stream2, optionsOrCompare)]; a stream that is
    no EventEmitter is [None]. *)
Definition streamCompare (stream1 stream2 : option Stream.t)
    (optionsOrCompare : argument) : completion machine :=
  match given optionsOrCompare with
  | Throw e => Throw e
  | Normal options =>
      match stream1, stream2 with
      | None, _ => Throw (VTypeError "stream1 must be an EventEmitter")
      | Some _, None => Throw (VTypeError "stream2 must be an EventEmitter")
      | Some s1, Some s2 =>
          let readPolicy :=
            assigned readPolicy (text "least") options in
          let endEvents :=
            assigned endEvents (arrayLike DEFAULT_endEvents) options in
          let events := assigned events (arrayLike DEFAULT_events) options in
          let incremental := assigned incremental undefined options in
          if match readPolicy with
             | text name => String.eqb name "least"
             | _ => false
             end
             && (negb (Stream.hasRead s1) || negb (Stream.hasRead s2))
          then
            Throw (VTypeError "streams must have .read() for readPolicy 'least'")
          else
            match functionOf (compareOf options) with
            | None => Throw (VTypeError "options.compare must be a function")
            | Some compare =>
            match namesOf endEvents with
            | None => Throw (VTypeError "options.endEvents must be Array-like")
            | Some endNames =>
            match namesOf events with
            | None => Throw (VTypeError "options.events must be Array-like")
            | Some names =>
            if toBoolean incremental
               && negb (String.eqb (typeOf incremental) "function")
            then Throw (VTypeError "options.incremental must be a function")
            else
              match readPolicy with
              | text name =>
                  match policyOf name with
                  | None =>
                      Throw (VRangeError
                               ("Invalid options.readPolicy '" ++ name ++ "'"))
                  | Some policy =>
                      streamCompare s1 s2
                        (Some (inr
                           {| StreamCompareOptions.abortOnError :=
                                Some (toBoolean
                                        (assigned abortOnError
                                           (boolean DEFAULT_abortOnError)
                                           options));
                              StreamCompareOptions.compare := Some compare;
                              StreamCompareOptions.delay :=
                                Some (delayOf
                                        (assigned delay
                                           (number (Z.of_nat DEFAULT_delay))
                                           options));
                              StreamCompareOptions.endEvents := Some endNames;
                              StreamCompareOptions.events := Some names;
                              StreamCompareOptions.incremental :=
                                functionOf incremental;
                              StreamCompareOptions.objectMode :=
                                Some (toBoolean
                                        (assigned objectMode
                                           (boolean DEFAULT_objectMode)
                                           options));
                              StreamCompareOptions.readPolicy :=
                                Some policy |}))
                  end
              | _ => Throw (VTypeError "options.readPolicy must be a string")
              end
            end end end
      end
  end.

End Raw.

(** ** The environment *)

(** What can happen to a running comparison: a stream emits an event, a
    stream gets a chunk that a later [.read()] returns, the event loop
    runs the [process.nextTick] callback or a pending timer, the caller
    calls [checkpoint()] or [end()]. *)
Inductive action : Type :=
| AEmit (i : side) (eventName : string) (args : list jsval)
| APush (i : side) (chunk : jsval)
| ANextTick
| AImmediate
| ATimeout
| ACheckpoint
| AEnd.

Definition step (a : action) (m : machine) : machine :=
  match a with
  | AEmit i eventName args => emit i eventName args m
  | APush i chunk =>
      let s := stream_of i m in
      set_stream i (Stream.set_readable (Stream.readable s ++ [chunk]) s) m
  | ANextTick =>
      if nextTick m then readNext (set_nextTick false m) else m
  | AImmediate =>
      if postEndImmediate m then postEndCompare (set_postEndImmediate false m)
      else m
  | ATimeout =>
      if postEndTimeout m then postEndCompare (set_postEndTimeout false m)
      else m
  | ACheckpoint => checkpoint m
  | AEnd => end_ m
  end.

Definition run (acts : list action) (m : machine) : machine :=
  fold_left (fun m a => step a m) acts m.

(** The machines a [streamCompare] call can be in: it was started on two
    streams that carry no listener of the engine yet, and then anything
    happened. *)
Inductive reachable : machine -> Prop :=
| reachable_start s1 s2 o m :
    Stream.registrations s1 = [] ->
    Stream.registrations s2 = [] ->
    streamCompare s1 s2 o = Normal m ->
    reachable m
| reachable_step a m :
    reachable m ->
    reachable (step a m).

(** ** Comparison functions and inputs used in the examples *)

(** A comparison that always returns [result]. *)
Definition returning {V} (result : jsval) : V -> V -> completion jsval :=
  fun _ _ => Normal result.

(** A comparison that always throws [err]. *)
Definition throwing {V} (err : jsval) : V -> V -> completion jsval :=
  fun _ _ => Throw err.

(** A state that has read [text] and recorded one ['close'] event. *)
Definition sampleState (text : string) : StreamState.t :=
  {| StreamState.ended := false;
     StreamState.events := [mkEvent "close" []];
     StreamState.data := DStr text;
     StreamState.totalDataLen := String.length text |}.

(** Options of a comparison of text in the default mode, and of a
    comparison in objectMode; [compare] never concludes. *)
Definition textOptions : Options.t :=
  {| Options.abortOnError := false;
     Options.compare := ret VUndefined;
     Options.delay := 0;
     Options.endEvents := DEFAULT_endEvents;
     Options.events := DEFAULT_events;
     Options.incremental := None;
     Options.objectMode := false;
     Options.readPolicy := ReadPolicy.least |}.

Definition objectOptions : Options.t :=
  {| Options.abortOnError := false;
     Options.compare := ret VUndefined;
     Options.delay := 0;
     Options.endEvents := DEFAULT_endEvents;
     Options.events := DEFAULT_events;
     Options.incremental := None;
     Options.objectMode := true;
     Options.readPolicy := ReadPolicy.least |}.

(** A stream that has [.read()], nothing to read yet, and no listener. *)
Definition idleStream : Stream.t :=
  {| Stream.hasRead := true; Stream.readable := [];
     Stream.registrations := []; Stream.nextId := 0 |}.

(** The closure state right after [new StreamState()] twice, before any
    listener is wired, under [textOptions]. *)
Definition blankMachine : machine :=
  {| options := textOptions; stream1 := idleStream; stream2 := idleStream;
     promise := Pending;
     state1 := StreamState.new; state2 := StreamState.new;
     ended := 0; isDone := false; listeners1 := []; listeners2 := [];
     postEndImmediate := false; postEndTimeout := false;
     nextTick := false; log := [] |}.

(** [{abortOnError: true, compare}] with a [compare] that never
    concludes. *)
Definition abortOptions : StreamCompareOptions.t :=
  {| StreamCompareOptions.abortOnError := Some true;
     StreamCompareOptions.compare := Some (ret VUndefined);
     StreamCompareOptions.delay := None;
     StreamCompareOptions.endEvents := None;
     StreamCompareOptions.events := None;
     StreamCompareOptions.incremental := None;
     StreamCompareOptions.objectMode := None;
     StreamCompareOptions.readPolicy := None |}.

(** [{readPolicy: 'flowing', compare, incremental}]: [compare] never
    concludes, [incremental] always does. *)
Definition flowingOptions : StreamCompareOptions.t :=
  {| StreamCompareOptions.abortOnError := None;
     StreamCompareOptions.compare := Some (ret VUndefined);
     StreamCompareOptions.delay := None;
     StreamCompareOptions.endEvents := None;
     StreamCompareOptions.events := None;
     StreamCompareOptions.incremental := Some (ret (VStr "differ"));
     StreamCompareOptions.objectMode := None;
     StreamCompareOptions.readPolicy := Some ReadPolicy.flowing |}.

(** [streamCompare(stream1, stream2, compare)] with a [compare] that
    never concludes. *)
Definition compareOnly : option (compareFn + StreamCompareOptions.t) :=
  Some (inl (ret VUndefined)).

(** A machine whose two states have read 3 and 5 units, neither ended,
    with one chunk waiting on each stream. *)
Definition unevenMachine : machine :=
  {| options := textOptions;
     stream1 := Stream.mk true [VStr "x"] [] 0;
     stream2 := Stream.mk true [VStr "y"] [] 0;
     promise := Pending;
     state1 := StreamState.set_totalDataLen 3 StreamState.new;
     state2 := StreamState.set_totalDataLen 5 StreamState.new;
     ended := 0; isDone := false; listeners1 := []; listeners2 := [];
     postEndImmediate := false; postEndTimeout := false;
     nextTick := false; log := [] |}.

(** ** Vocabulary of the statements *)

(** [data.length] of a string or Buffer payload. *)
Definition payloadLength (data : jsval) : nat :=
  match data with
  | VStr s => String.length s
  | VBuf b => List.length b
  | _ => 0
  end.

(** The accumulated data followed by a payload of its own type. *)
Definition appended (this_data : dataVal) (data : jsval) : dataVal :=
  match this_data, data with
  | DUndef, VStr d => DStr d
  | DUndef, VBuf d => DBuf d
  | DStr s, VStr d => DStr (s ++ d)
  | DBuf b, VBuf d => DBuf (b ++ d)
  | _, _ => this_data
  end.

(** What [done] removes from one stream's listener table: the recorder of
    every key of [listenersN], one [readNext], one [onStreamError], one
    [readNextOnEnd], and one [endListenerN] per entry of [endEvents]. *)
Definition unregister (keys endEvents : list string) (l : list registration)
  : list registration :=
  let l := fold_left
             (fun l eventName =>
                remove_last (matches eventName (Fn.listener eventName)) l)
             keys l in
  let l := remove_last (matches "readable" Fn.readNext) l in
  let l := remove_last (matches "error" Fn.onStreamError) l in
  let l := remove_last (matches "end" Fn.readNextOnEnd) l in
  fold_left
    (fun l eventName => remove_last (matches eventName Fn.endListener) l)
    endEvents l.

(** The comparison is settled: the promise is no longer pending. *)
Definition settled (m : machine) : Prop := promise m <> Pending.

(** How often [done] has run, read off the debug log. *)
Definition teardowns (l : list dbg) : nat :=
  List.length
    (filter (fun d => match d with UnregisteringListeners => true | _ => false end)
       l).

(** How often a comparison function has been called, read off the log. *)
Definition compares (l : list dbg) : nat :=
  List.length
    (filter (fun d => match d with PerformingCompare _ => true | _ => false end)
       l).

(** The listener functions that test [isDone] (or [state.ended]) before
    they touch anything: [endListener], and [readNext] through its loop
    condition. The others, [listener], [onStreamError] and [handleData],
    act whatever [isDone] is. *)
Definition guarded (r : registration) : bool :=
  match regFn r with
  | Fn.endListener | Fn.readNext | Fn.readNextOnEnd => true
  | Fn.listener _ | Fn.onStreamError | Fn.handleData => false
  end.

Definition forEvent (eventName : string) (r : registration) : bool :=
  String.eqb (regEvent r) eventName.

(** All but the first are guarded. *)
Definition tail_guarded (l : list registration) : Prop :=
  match l with
  | [] => True
  | _ :: t => Forall (fun r => guarded r = true) t
  end.

(** The shape of a stream's listener table under readPolicy ['least'] or
    ['none']: for every event name, an unguarded listener comes first;
    and the unguarded ones are the recorders of the keys of [listenersN],
    each under its own name, and [onStreamError] under ['error']. *)
Definition wellFormed (keys : list string) (l : list registration) : Prop :=
  (forall eventName, tail_guarded (filter (forEvent eventName) l))
  /\ (forall r, In r l -> guarded r = false ->
        (regFn r = Fn.listener (regEvent r) /\ In (regEvent r) keys)
        \/ (regFn r = Fn.onStreamError /\ regEvent r = "error")).

(** Registration ids are distinct and below the stream's counter. *)
Definition ids_ok (s : Stream.t) : Prop :=
  NoDup (map regId (Stream.registrations s))
  /\ (forall r, In r (Stream.registrations s) -> regId r < Stream.nextId s).

(** With abortOnError, the only listener for ['error'] is a
    once-registration of [onStreamError]. *)
Definition error_wired (l : list registration) : Prop :=
  exists r, filter (forEvent "error") l = [r]
            /\ regFn r = Fn.onStreamError /\ regOnce r = true.

Definition regs (i : side) (m : machine) : list registration :=
  Stream.registrations (stream_of i m).

(** [settleWith s m]: [resolve] or [reject], by the settlement asked for. *)
Definition settleWith (s : settlement) (m : machine) : machine :=
  match s with
  | Pending => m
  | Fulfilled value => resolve value m
  | Rejected reason => reject reason m
  end.

(** [m'] differs from [m] at most in the two states, the [ended] count,
    what the streams have to read, the pending tick, and log lines other
    than the one [done] writes. *)
Definition sameControl (m m' : machine) : Prop :=
  options m' = options m
  /\ promise m' = promise m
  /\ isDone m' = isDone m
  /\ listeners1 m' = listeners1 m
  /\ listeners2 m' = listeners2 m
  /\ postEndImmediate m' = postEndImmediate m
  /\ postEndTimeout m' = postEndTimeout m
  /\ teardowns (log m') = teardowns (log m)
  /\ forall i, regs i m' = regs i m
               /\ Stream.nextId (stream_of i m') = Stream.nextId (stream_of i m).

(** A listener table grows only by fresh registrations. *)
Definition evolves (s s' : Stream.t) : Prop :=
  Stream.nextId s <= Stream.nextId s'
  /\ forall x, In x (Stream.registrations s') ->
               In x (Stream.registrations s) \/ Stream.nextId s <= regId x.

(** [r] was registered on [s], and nothing else on [s] has its id. *)
Definition snapId (s : Stream.t) (r : registration) : Prop :=
  regId r < Stream.nextId s
  /\ forall x, In x (Stream.registrations s) -> regId x = regId r -> x = r.

(** The invariant of every reachable machine. *)
Record Inv0 (m : machine) : Prop := mkInv0 {
  inv_pending : isDone m = false -> promise m = Pending;
  inv_settled : isDone m = true -> promise m <> Pending;
  inv_timers :
    isDone m = true -> postEndImmediate m = false /\ postEndTimeout m = false;
  inv_keys : listeners2 m = listeners1 m;
  inv_ids : forall i, ids_ok (stream_of i m);
  inv_error :
    Options.abortOnError (options m) = true -> isDone m = false ->
    forall i, error_wired (regs i m)
}.

(** The invariant of the reachable machines whose readPolicy is not
    ['flowing']. *)
Record Inv1 (m : machine) : Prop := mkInv1 {
  inv_wf : forall i, wellFormed (listeners1 m) (regs i m);
  inv_guarded :
    isDone m = true -> forall i, Forall (fun r => guarded r = true) (regs i m);
  inv_teardowns : teardowns (log m) = if isDone m then 1 else 0
}.

(** One engine function took [m] to [m']. *)
Record moved (m m' : machine) : Prop := mkMoved {
  moved_inv : Inv0 m';
  moved_options : options m' = options m;
  moved_keys : listeners1 m' = listeners1 m;
  moved_done : isDone m = true -> isDone m' = true;
  moved_regs : forall i, evolves (stream_of i m) (stream_of i m')
}.

(** While [streamCompare] is wiring listeners: nothing has settled, no
    timer runs, both key lists agree, ids are in order. *)
Definition wiring (m : machine) : Prop :=
  isDone m = false
  /\ promise m = Pending
  /\ postEndImmediate m = false
  /\ postEndTimeout m = false
  /\ listeners2 m = listeners1 m
  /\ (forall i, ids_ok (stream_of i m))
  /\ teardowns (log m) = 0.

(** After [options.events.forEach]: only recorders are registered, each
    under its own name and listed in [listeners1], at most one per name,
    and none for ['error'] with abortOnError. *)
Definition recordersOnly (m : machine) : Prop :=
  (forall i r, In r (regs i m) ->
     regFn r = Fn.listener (regEvent r) /\ In (regEvent r) (listeners1 m))
  /\ (forall i eventName, tail_guarded (filter (forEvent eventName) (regs i m)))
  /\ (Options.abortOnError (options m) = true -> ~ In "error" (listeners1 m)).

(** With abortOnError nothing listens for ['error'] yet. *)
Definition noErrorListener (m : machine) : Prop :=
  Options.abortOnError (options m) = true ->
  forall i, filter (forEvent "error") (regs i m) = [].

Definition errorWired (m : machine) : Prop :=
  Options.abortOnError (options m) = true ->
  forall i, error_wired (regs i m).

Definition allWellFormed (m : machine) : Prop :=
  forall i, wellFormed (listeners1 m) (regs i m).

(** [stream_i.on] / [stream_i.once], as one update of the machine. *)
Definition register (i : side) (eventName : string) (fn : Fn.t) (o : bool)
    (m : machine) : machine :=
  set_stream i (Stream.register eventName fn o (stream_of i m)) m.

(** The line [checkpoint()] or [end()] logs once the comparison is
    settled. *)
Definition ignoring (a : action) : dbg :=
  match a with
  | AEnd => IgnoringEnd
  | _ => IgnoringCheckpoint
  end.

Definition isControlCall (a : action) : Prop :=
  a = ACheckpoint \/ a = AEnd.


(** ** Vocabulary of the further properties *)

(** A state that has produced nothing so far: it has not ended, holds no
    data and has recorded no event. *)
Definition nothingYet (s : StreamState.t) : Prop :=
  StreamState.ended s = false
  /\ lengthOr0 (StreamState.data s) = 0
  /\ StreamState.events s = [].

(** [s'] is [s] with the first [kd] elements of [data] and the first [ke]
    entries of [events] removed, and nothing else changed. *)
Definition trimmedBy (kd ke : nat) (s s' : StreamState.t) : Prop :=
  StreamState.ended s' = StreamState.ended s
  /\ StreamState.totalDataLen s' = StreamState.totalDataLen s
  /\ StreamState.events s' = skipn ke (StreamState.events s)
  /\ (if kd =? 0 then StreamState.data s' = StreamState.data s
      else slice kd None (StreamState.data s) = Normal (StreamState.data s')).

(** A registration that the engine removes only in [done]: it was made
    with [on], not [once], and it is not the [readNext] that
    [readNextOnEnd] takes off. *)
Definition lasting (r : registration) : Prop :=
  regOnce r = false /\ regFn r <> Fn.readNext.

(** The timer that [endListener] starts is pending: [setImmediate] for a
    zero [delay], [setTimeout] otherwise. *)
Definition scheduled (m : machine) : Prop :=
  if Options.delay (options m) =? 0 then postEndImmediate m = true
  else postEndTimeout m = true.

(** Unless the comparison is settled, the final comparison is pending as
    soon as two end signals have been counted. *)
Definition finalCompareDue (m : machine) : Prop :=
  isDone m = false -> 2 <= ended m -> scheduled m.

(** A comparison function that leaves the [ended] flags of the states
    alone, as the ones built by [makeIncremental] do. *)
Definition keepsEnded (f : compareFn) : Prop :=
  forall st : states,
    StreamState.ended (fst (fst (f st))) = StreamState.ended (fst st)
    /\ StreamState.ended (snd (fst (f st))) = StreamState.ended (snd st).

Definition respectful (o : Options.t) : Prop :=
  keepsEnded (Options.compare o)
  /\ forall f, Options.incremental o = Some f -> keepsEnded f.

(** The number of states whose [ended] flag is set. *)
Definition endedCount (m : machine) : nat :=
  (if StreamState.ended (state1 m) then 1 else 0)
  + (if StreamState.ended (state2 m) then 1 else 0).

(** Both [ended] flags are as they were. *)
Definition sameFlags (m m' : machine) : Prop :=
  forall j, StreamState.ended (state_of j m')
            = StreamState.ended (state_of j m).

(** The [ended] counter agrees with the flags. *)
Definition counted (m : machine) : Prop := ended m = endedCount m.

(** What every engine function keeps, whatever the readPolicy. The last
    two fields need comparison functions that do not write [ended]. *)
Record tracks (m m' : machine) : Prop := mkTracks {
  tr_options : options m' = options m;
  tr_keys : listeners1 m' = listeners1 m;
  tr_promise : promise m <> Pending -> promise m' = promise m;
  tr_done : isDone m = true -> isDone m' = true;
  tr_keeps :
    isDone m' = false ->
    forall i r, In r (regs i m) -> lasting r -> In r (regs i m');
  tr_due : finalCompareDue m -> finalCompareDue m';
  tr_flags :
    respectful (options m) ->
    forall j, StreamState.ended (state_of j m) = true ->
              StreamState.ended (state_of j m') = true;
  tr_counted : respectful (options m) -> counted m -> counted m'
}.

(** An event name that [options.events.forEach] gives a recorder: it is
    not a key that a fresh [{}] already answers to, and it is not
    ['error'] under abortOnError. *)
Definition recordable (o : Options.t) (eventName : string) : bool :=
  negb (hasKey objectPrototypeKeys eventName)
  && negb (Options.abortOnError o && String.eqb eventName "error").

(** Stream [i] carries a lasting registration of [fn] for [eventName]. *)
Definition hasListener (i : side) (eventName : string) (fn : Fn.t)
    (m : machine) : Prop :=
  exists r, In r (regs i m) /\ regEvent r = eventName /\ regFn r = fn
            /\ lasting r.

(** [m'] is [m] with listeners added: apart from the listener tables,
    the key lists, the pending tick and the log, nothing differs. *)
Definition wiredFrom (m m' : machine) : Prop :=
  options m' = options m
  /\ promise m' = promise m
  /\ isDone m' = isDone m
  /\ state1 m' = state1 m
  /\ state2 m' = state2 m
  /\ ended m' = ended m
  /\ postEndImmediate m' = postEndImmediate m
  /\ postEndTimeout m' = postEndTimeout m
  /\ forall i,
       Stream.hasRead (stream_of i m') = Stream.hasRead (stream_of i m)
       /\ Stream.readable (stream_of i m') = Stream.readable (stream_of i m)
       /\ forall r, In r (regs i m) -> In r (regs i m').

(** While it is not settled, the machine still carries the recorder of
    every key of [listeners1] and an [endListener] for every end event. *)
Definition listening (m : machine) : Prop :=
  isDone m = false ->
  forall i,
    (forall k, In k (listeners1 m) -> hasListener i k (Fn.listener k) m)
    /\ (forall k, In k (Options.endEvents (options m)) ->
          (Options.abortOnError (options m) = true -> k <> "error") ->
          hasListener i k Fn.endListener m).

(** Both [events] lists are as they were (and so are the options). *)
Definition sameEvents (m m' : machine) : Prop :=
  options m' = options m
  /\ forall j, StreamState.events (state_of j m')
               = StreamState.events (state_of j m).

(** A machine whose first stream has ended with a chunk still buffered,
    while the second has one chunk to read. *)
Definition halfEndedMachine : machine :=
  {| options := textOptions;
     stream1 := Stream.mk true [VStr "late"] [] 0;
     stream2 := Stream.mk true [VStr "y"] [] 0;
     promise := Pending;
     state1 := StreamState.set_ended true StreamState.new;
     state2 := StreamState.new;
     ended := 1; isDone := false; listeners1 := []; listeners2 := [];
     postEndImmediate := false; postEndTimeout := false;
     nextTick := false; log := [] |}.

(** [{events: ['toString'], compare}]: an event name that a fresh [{}]
    already answers to. *)
Definition toStringOptions : StreamCompareOptions.t :=
  {| StreamCompareOptions.abortOnError := None;
     StreamCompareOptions.compare := Some (ret VUndefined);
     StreamCompareOptions.delay := None;
     StreamCompareOptions.endEvents := None;
     StreamCompareOptions.events := Some ["toString"];
     StreamCompareOptions.incremental := None;
     StreamCompareOptions.objectMode := None;
     StreamCompareOptions.readPolicy := None |}.

(** [m'] has taken nothing off the streams since [m]: the read buffers
    and the pending tick are as they were, and no listener was added. *)
Definition noPull (m m' : machine) : Prop :=
  options m' = options m
  /\ nextTick m' = nextTick m
  /\ forall j,
       Stream.readable (stream_of j m') = Stream.readable (stream_of j m)
       /\ forall r, In r (regs j m') -> In r (regs j m).

(** Nothing is set up to call [readNext]. *)
Definition noReader (m : machine) : Prop :=
  nextTick m = false
  /\ forall j r, In r (regs j m) ->
                 regFn r <> Fn.readNext /\ regFn r <> Fn.readNextOnEnd.

(** Every listener of [m'] was already on [m] or does not lead to
    [readNext]. *)
Definition addsNoReader (m m' : machine) : Prop :=
  forall j r, In r (regs j m') ->
              In r (regs j m)
              \/ (regFn r <> Fn.readNext /\ regFn r <> Fn.readNextOnEnd).

(** The newest listener on stream [i] is a once-registration of
    [readNext] for ['readable']. *)
Definition waitsOn (i : side) (m : machine) : Prop :=
  exists l id, regs i m = l ++ [mkReg id "readable" Fn.readNext true].

(** Streams with one chunk buffered, and [{readPolicy: 'none', compare}]
    with a [compare] that never concludes. *)
Definition loadedStream : Stream.t :=
  {| Stream.hasRead := true; Stream.readable := [VStr "x"];
     Stream.registrations := []; Stream.nextId := 0 |}.

Definition noneOptions : StreamCompareOptions.t :=
  {| StreamCompareOptions.abortOnError := None;
     StreamCompareOptions.compare := Some (ret VUndefined);
     StreamCompareOptions.delay := None;
     StreamCompareOptions.endEvents := None;
     StreamCompareOptions.events := None;
     StreamCompareOptions.incremental := None;
     StreamCompareOptions.objectMode := None;
     StreamCompareOptions.readPolicy := Some ReadPolicy.none |}.

(** * Properties *)

(** ** Slicing *)

Lemma str_drop_length (n : nat) (s : string) :
  String.length (str_drop n s) = String.length s - n.
Proof.
  revert s; induction n as [|n IH]; intros [|c s]; simpl; auto.
Qed.

(** Removing the first [n] elements of a truthy value succeeds and leaves
    [alength - n] elements. *)
Lemma slice_suffix {V} (p : PropName V) (n : nat) (v : V) :
  @truthy V (arrayLike_of p) v = true ->
  exists t, @slice V (arrayLike_of p) n None v = Normal t
            /\ @alength V (arrayLike_of p) t
               = @alength V (arrayLike_of p) v - n.
Proof.
  destruct p; simpl.
  - destruct v as [|s|b|a]; simpl; intros Ht; try discriminate.
    + eexists; split; [reflexivity|]. simpl. apply str_drop_length.
    + eexists; split; [reflexivity|]. simpl. apply length_skipn.
    + eexists; split; [reflexivity|]. simpl. apply length_skipn.
  - intros _. eexists; split; [reflexivity|]. apply length_skipn.
Qed.

Lemma slice_prefix {V} (p : PropName V) (n : nat) (v : V) :
  @truthy V (arrayLike_of p) v = true ->
  exists t, @slice V (arrayLike_of p) 0 (Some n) v = Normal t.
Proof.
  destruct p; simpl.
  - destruct v; simpl; intros Ht; try discriminate; eexists; reflexivity.
  - intros _. eexists; reflexivity.
Qed.

Lemma lengthOr0_pos {V} (A : ArrayLike V) (v : V) :
  0 < @lengthOr0 V A v ->
  truthy v = true /\ @lengthOr0 V A v = alength v.
Proof.
  unfold lengthOr0. destruct (truthy v); [auto | intros H; inversion H].
Qed.

(** A pass of [incrementalProp] over states with evidence on both sides:
    the completion is the comparison function's, and the states are
    trimmed exactly when it returned [null] or [undefined] at a positive
    usable length. *)
Lemma incrementalProp_pass {V} (p : PropName V)
    (compare : V -> V -> completion jsval)
    (state1 state2 state1' state2' : StreamState.t) (out : completion jsval) :
  let A := arrayLike_of p in
  let values1 := getProp p state1 in
  let values2 := getProp p state2 in
  let n := Nat.min (@lengthOr0 V A values1) (@lengthOr0 V A values2) in
  @hasEvidence V A values1 state1 = true ->
  @hasEvidence V A values2 state2 = true ->
  @incrementalProp V A p compare (state1, state2) = ((state1', state2'), out) ->
  (exists a1 a2, out = compare a1 a2) /\
  match out with
  | Normal result =>
      if (0 <? n) && inconclusive result then
        exists t1 t2,
          @slice V A n None values1 = Normal t1
          /\ @slice V A n None values2 = Normal t2
          /\ state1' = setProp p t1 state1
          /\ state2' = setProp p t2 state2
          /\ @alength V A t1 = @alength V A values1 - n
          /\ @alength V A t2 = @alength V A values2 - n
          /\ n <= @alength V A values1
          /\ n <= @alength V A values2
      else state1' = state1 /\ state2' = state2
  | Throw _ => state1' = state1 /\ state2' = state2
  end.
Proof.
  intros A values1 values2 n E1 E2.
  unfold incrementalProp, bind, gets, lift, modify, ret. cbn [fst snd].
  fold A values1 values2. rewrite E1, E2. cbn [andb]. fold n.
  (* the call of the comparison function *)
  set (call :=
         if (truthy values1 && (n <? alength values1))
            && negb (StreamState.ended state2)
         then _ else _).
  assert (Hcall : exists c, call (state1, state2) = ((state1, state2), c)
                            /\ exists a1 a2, c = compare a1 a2).
  { subst call.
    destruct ((truthy values1 && (n <? alength values1))
              && negb (StreamState.ended state2)) eqn:B1.
    - apply andb_prop in B1 as [B1 _]. apply andb_prop in B1 as [T1 _].
      destruct (slice_prefix p n values1 T1) as [t Ht]. fold A in Ht.
      rewrite Ht. eauto.
    - destruct ((truthy values2 && (n <? alength values2))
                && negb (StreamState.ended state1)) eqn:B2.
      + apply andb_prop in B2 as [B2 _]. apply andb_prop in B2 as [T2 _].
        destruct (slice_prefix p n values2 T2) as [t Ht]. fold A in Ht.
        rewrite Ht. eauto.
      + eauto. }
  destruct Hcall as (c & Hc & Hargs). cbv beta. rewrite Hc. clear Hc call.
  destruct c as [result|e].
  - destruct ((0 <? n) && inconclusive result) eqn:Trim.
    + pose proof Trim as Trim'.
      apply andb_prop in Trim' as [Hn _]. apply Nat.ltb_lt in Hn.
      assert (P1 : 0 < @lengthOr0 V A values1) by (subst n; lia).
      assert (P2 : 0 < @lengthOr0 V A values2) by (subst n; lia).
      apply lengthOr0_pos in P1 as [T1 L1].
      apply lengthOr0_pos in P2 as [T2 L2].
      destruct (slice_suffix p n values1 T1) as (t1 & S1 & A1).
      destruct (slice_suffix p n values2 T2) as (t2 & S2 & A2).
      fold A in S1, S2, A1, A2. rewrite S1. simpl. rewrite S2. simpl.
      intros Heq; inversion Heq; subst state1' state2' out; clear Heq.
      split; [exact Hargs|]. rewrite Trim.
      exists t1, t2. repeat split; auto; subst n; lia.
    + simpl. intros Heq; inversion Heq; subst. split; [exact Hargs|].
      rewrite Trim. auto.
  - intros Heq; inversion Heq; subst. split; [exact Hargs|]. auto.
Qed.

(** With evidence on both sides, the completion of [incrementalProp] is
    that of the one call of [compare]. *)
Lemma incrementalProp_completion {V} (p : PropName V)
    (compare : V -> V -> completion jsval) (state1 state2 : StreamState.t) :
  let A := arrayLike_of p in
  let values1 := getProp p state1 in
  let values2 := getProp p state2 in
  let n := Nat.min (@lengthOr0 V A values1) (@lengthOr0 V A values2) in
  @hasEvidence V A values1 state1 = true ->
  @hasEvidence V A values2 state2 = true ->
  snd (@incrementalProp V A p compare (state1, state2))
  = if (@truthy V A values1 && (n <? @alength V A values1))
       && negb (StreamState.ended state2)
    then match @slice V A 0 (Some n) values1 with
         | Normal v1 => compare v1 values2
         | Throw e => Throw e
         end
    else if (@truthy V A values2 && (n <? @alength V A values2))
            && negb (StreamState.ended state1)
    then match @slice V A 0 (Some n) values2 with
         | Normal v2 => compare values1 v2
         | Throw e => Throw e
         end
    else compare values1 values2.
Proof.
  intros A values1 values2 n E1 E2.
  unfold incrementalProp, bind, gets, lift, modify, ret. cbn [fst snd].
  fold A values1 values2. rewrite E1, E2. cbn [andb]. fold n.
  set (call :=
         if (truthy values1 && (n <? alength values1))
            && negb (StreamState.ended state2)
         then _ else _).
  set (c := if (truthy values1 && (n <? alength values1))
               && negb (StreamState.ended state2)
            then _ else _).
  assert (Hcall : call (state1, state2) = ((state1, state2), c)).
  { subst call c.
    destruct ((truthy values1 && (n <? alength values1))
              && negb (StreamState.ended state2)).
    - destruct (slice 0 (Some n) values1); reflexivity.
    - destruct ((truthy values2 && (n <? alength values2))
                && negb (StreamState.ended state1)).
      + destruct (slice 0 (Some n) values2); reflexivity.
      + reflexivity. }
  cbv beta. rewrite Hcall. clearbody c. clear Hcall call.
  destruct c as [result|e]; [|reflexivity].
  destruct ((0 <? n) && inconclusive result) eqn:Trim; [|reflexivity].
  apply andb_prop in Trim as [Hn _]. apply Nat.ltb_lt in Hn.
  assert (P1 : 0 < @lengthOr0 V A values1) by (subst n; lia).
  assert (P2 : 0 < @lengthOr0 V A values2) by (subst n; lia).
  apply lengthOr0_pos in P1 as [T1 L1].
  apply lengthOr0_pos in P2 as [T2 L2].
  destruct (slice_suffix p n values1 T1) as (t1 & S1 & _).
  destruct (slice_suffix p n values2 T2) as (t2 & S2 & _).
  fold A in S1, S2. rewrite S1. simpl. rewrite S2. reflexivity.
Qed.

(** With evidence on both sides, [incrementalProp] makes one call of
    [compare], on two values that the states decide, and completes as
    this call does. *)
Lemma incrementalProp_call {V} (p : PropName V)
    (state1 state2 : StreamState.t) :
  let A := arrayLike_of p in
  @hasEvidence V A (getProp p state1) state1 = true ->
  @hasEvidence V A (getProp p state2) state2 = true ->
  exists a1 a2 : V,
    forall compare : V -> V -> completion jsval,
      snd (@incrementalProp V A p compare (state1, state2)) = compare a1 a2.
Proof.
  intros A E1 E2.
  pose proof (fun compare =>
                incrementalProp_completion p compare state1 state2 E1 E2) as Hc.
  cbv zeta in Hc. fold A in Hc.
  set (values1 := getProp p state1) in *.
  set (values2 := getProp p state2) in *.
  set (n := Nat.min (@lengthOr0 V A values1) (@lengthOr0 V A values2)) in *.
  destruct ((@truthy V A values1 && (n <? @alength V A values1))
            && negb (StreamState.ended state2)) eqn:B1.
  - pose proof B1 as B. apply andb_prop in B as [B _].
    apply andb_prop in B as [T1 _].
    destruct (slice_prefix p n values1 T1) as (t & St). fold A in St.
    exists t, values2. intros compare. rewrite Hc, St. reflexivity.
  - destruct ((@truthy V A values2 && (n <? @alength V A values2))
              && negb (StreamState.ended state1)) eqn:B2.
    + pose proof B2 as B. apply andb_prop in B as [B _].
      apply andb_prop in B as [T2 _].
      destruct (slice_prefix p n values2 T2) as (t & St). fold A in St.
      exists values1, t. intros compare. rewrite Hc, St. reflexivity.
    + exists values1, values2. intros compare. now rewrite Hc.
Qed.

Lemma getProp_setProp {V} (p : PropName V) (v : V) (s : StreamState.t) :
  getProp p (setProp p v s) = v.
Proof. destruct p; reflexivity. Qed.

(** C1. Trimming law of [incrementalProp]: in a pass over ['data'] or
    ['events'] where both states have evidence, with [n] the minimum of
    the two lengths, the comparison function is called once, on two
    values [a1] and [a2] that the states decide, and the pass completes
    as this call does. If the function returns [null] or [undefined] and
    [0 < n], each state's sequence loses exactly its first [n] elements
    (its length afterwards plus [n] is its length before) and nothing
    else of the state changes; if [n] is [0], or the function returns
    another value, or it throws, neither state changes. *)
Theorem incrementalProp_trimming_law {V} (p : PropName V)
    (state1 state2 : StreamState.t) :
  let A := arrayLike_of p in
  let values1 := getProp p state1 in
  let values2 := getProp p state2 in
  let n := Nat.min (@lengthOr0 V A values1) (@lengthOr0 V A values2) in
  @hasEvidence V A values1 state1 = true ->
  @hasEvidence V A values2 state2 = true ->
  exists a1 a2 : V,
    forall compare : V -> V -> completion jsval,
      let pass := @incrementalProp V A p compare (state1, state2) in
      let state1' := fst (fst pass) in
      let state2' := snd (fst pass) in
      snd pass = compare a1 a2
      /\ (forall result,
             compare a1 a2 = Normal result -> inconclusive result = true ->
             0 < n ->
             @alength V A (getProp p state1') + n = @alength V A values1
             /\ @alength V A (getProp p state2') + n = @alength V A values2
             /\ @slice V A n None values1 = Normal (getProp p state1')
             /\ @slice V A n None values2 = Normal (getProp p state2')
             /\ state1' = setProp p (getProp p state1') state1
             /\ state2' = setProp p (getProp p state2') state2)
      /\ (forall result,
             compare a1 a2 = Normal result -> inconclusive result = true ->
             n = 0 -> state1' = state1 /\ state2' = state2)
      /\ (forall result,
             compare a1 a2 = Normal result -> inconclusive result = false ->
             state1' = state1 /\ state2' = state2)
      /\ (forall err,
             compare a1 a2 = Throw err -> state1' = state1 /\ state2' = state2).
Proof.
  intros A values1 values2 n E1 E2.
  destruct (incrementalProp_call p state1 state2 E1 E2) as (a1 & a2 & Hcall).
  exists a1, a2. intros compare pass state1' state2'.
  specialize (Hcall compare). fold A pass in Hcall.
  split; [exact Hcall|].
  assert (Hsplit : forall y : StreamState.t * StreamState.t * completion jsval,
             y = ((fst (fst y), snd (fst y)), snd y))
    by (intros [[? ?] ?]; reflexivity).
  destruct (incrementalProp_pass p compare state1 state2 state1' state2'
              (snd pass) E1 E2 (Hsplit pass)) as [_ Hpass].
  fold A values1 values2 n in Hpass. rewrite Hcall in Hpass.
  split; [|split; [|split]].
  - intros result R Hinc Hn. apply Nat.ltb_lt in Hn.
    rewrite R, Hn, Hinc in Hpass. simpl in Hpass.
    destruct Hpass as (t1 & t2 & S1 & S2 & -> & -> & A1 & A2 & L1 & L2).
    rewrite !getProp_setProp. repeat split; auto; lia.
  - intros result R _ Hn. rewrite R, Hn in Hpass. exact Hpass.
  - intros result R Hinc. rewrite R, Hinc, andb_false_r in Hpass. exact Hpass.
  - intros err R. rewrite R in Hpass. exact Hpass.
Qed.

(** Two text states holding "Hello" and "He", and a comparison function
    that returns [undefined]: the pass removes "He" from both. *)
Lemma incrementalProp_trimming_law_witness :
  let pass :=
    incrementalProp data_prop (returning VUndefined)
      (sampleState "Hello", sampleState "He") in
  snd pass = Normal VUndefined
  /\ StreamState.data (fst (fst pass)) = DStr "llo"
  /\ StreamState.data (snd (fst pass)) = DStr ""
  /\ fst (fst pass) = StreamState.set_data (DStr "llo") (sampleState "Hello")
  /\ snd (fst pass) = StreamState.set_data (DStr "") (sampleState "He").
Proof.
  destruct (incrementalProp_trimming_law data_prop (sampleState "Hello")
              (sampleState "He") eq_refl eq_refl) as (a1 & a2 & H).
  destruct (H (returning VUndefined)) as (Hc & Htrim & _).
  split; [exact Hc|].
  destruct (Htrim VUndefined eq_refl eq_refl (Nat.lt_0_succ 1))
    as (_ & _ & S1 & S2 & T1 & T2).
  pose (value := fun c : completion dataVal =>
                  match c with Normal v => v | Throw _ => DUndef end).
  split; [exact (eq_sym (f_equal value S1))|].
  split; [exact (eq_sym (f_equal value S2))|].
  split; [exact T1 | exact T2].
Defined.

Lemma setProp_getProp {V} (p : PropName V) (s : StreamState.t) :
  setProp p (getProp p s) s = s.
Proof. destruct p, s; reflexivity. Qed.

(** [incrementalProp] writes nothing but the property it is given. *)
Lemma incrementalProp_frame {V} (p : PropName V)
    (compare : V -> V -> completion jsval) (st : states) :
  exists v1 v2,
    fst (@incrementalProp V (arrayLike_of p) p compare st)
    = (setProp p v1 (fst st), setProp p v2 (snd st)).
Proof.
  destruct st as [s1 s2].
  assert (Same : exists v1 v2 : V,
             (s1, s2) = (setProp p v1 s1, setProp p v2 s2)).
  { exists (getProp p s1), (getProp p s2). now rewrite !setProp_getProp. }
  unfold incrementalProp, bind, gets, lift, modify, ret. cbn [fst snd].
  repeat (match goal with
          | |- context [if ?b then _ else _] => destruct b
          | |- context [match slice ?a ?b ?c with _ => _ end] =>
              destruct (slice a b c)
          | |- context [match compare ?a ?b with _ => _ end] =>
              destruct (compare a b)
          end; cbn [fst snd]);
    first [ exact Same
          | eexists; eexists; reflexivity
          | eexists; exists (getProp p s2);
            rewrite (setProp_getProp p s2); reflexivity ].
Qed.

(** ** [makeIncremental] *)

Lemma conclusive_negb_inconclusive (v : jsval) :
  negb (is_null v) && negb (is_undefined v) = negb (inconclusive v).
Proof. unfold inconclusive. now rewrite negb_orb. Qed.

(** The data comparison returns a verdict here, and still the events are
    compared: a throw of the events comparison replaces the data verdict,
    and an inconclusive events comparison trims the events. *)
Lemma makeIncremental_compares_events_after_data_verdict :
  let st := (sampleState "a", sampleState "b") in
  let verdict := VStr "data differ" in
  incrementalProp data_prop (returning verdict) st = (st, Normal verdict)
  /\ inconclusive verdict = false
  /\ makeIncremental (Some (returning verdict))
       (Some (throwing (VStr "events differ"))) st
     = (st, Throw (VStr "events differ"))
  /\ makeIncremental (Some (returning verdict)) (Some (returning VUndefined)) st
     = ((StreamState.set_events [] (sampleState "a"),
         StreamState.set_events [] (sampleState "b")),
        Normal verdict)
  /\ ~ (forall compareData compareEvents st st1 dataVerdict,
          incrementalProp data_prop compareData st = (st1, Normal dataVerdict) ->
          inconclusive dataVerdict = false ->
          makeIncremental (Some compareData) (Some compareEvents) st
          = (st1, Normal dataVerdict)).
Proof.
  repeat split; try reflexivity.
  intros claim.
  specialize (claim (returning (VStr "data differ"))
                (throwing (VStr "events differ"))
                (sampleState "a", sampleState "b") _ _ eq_refl eq_refl).
  discriminate claim.
Qed.

(** C2, amended. [makeIncremental(compareData, compareEvents)] runs the
    data pass first; if it throws, that is the outcome and the events are
    not looked at. Otherwise the events pass runs on the states the data
    pass left, whatever the data pass returned; if it throws, that is the
    outcome; otherwise the outcome is the data result when it is neither
    [null] nor [undefined], and the events result else. The data pass
    leaves [events] alone and the events pass leaves [data] alone. *)
Theorem makeIncremental_data_then_events
    (compareData : option (dataVal -> dataVal -> completion jsval))
    (compareEvents : option (list event -> list event -> completion jsval))
    (st : states) :
  let dataPass : M states jsval :=
    match compareData with
    | Some f => incrementalProp data_prop f
    | None => ret VUndefined
    end in
  let eventsPass : M states jsval :=
    match compareEvents with
    | Some f => incrementalProp events_prop f
    | None => ret VUndefined
    end in
  let st1 := fst (dataPass st) in
  let st2 := fst (eventsPass st1) in
  StreamState.events (fst st1) = StreamState.events (fst st)
  /\ StreamState.events (snd st1) = StreamState.events (snd st)
  /\ StreamState.data (fst st2) = StreamState.data (fst st1)
  /\ StreamState.data (snd st2) = StreamState.data (snd st1)
  /\ match snd (dataPass st) with
     | Throw err =>
         makeIncremental compareData compareEvents st = (st1, Throw err)
     | Normal dataResult =>
         match snd (eventsPass st1) with
         | Throw err =>
             makeIncremental compareData compareEvents st = (st2, Throw err)
         | Normal eventsResult =>
             makeIncremental compareData compareEvents st
             = (st2, Normal (if inconclusive dataResult then eventsResult
                             else dataResult))
         end
     end.
Proof.
  intros dataPass eventsPass st1 st2.
  assert (F1 : exists v1 v2,
             st1 = (StreamState.set_data v1 (fst st),
                    StreamState.set_data v2 (snd st))).
  { subst st1 dataPass. destruct compareData as [f|].
    - apply (incrementalProp_frame data_prop f st).
    - exists (StreamState.data (fst st)), (StreamState.data (snd st)).
      destruct st as [[] []]; reflexivity. }
  assert (F2 : exists v1 v2,
             st2 = (StreamState.set_events v1 (fst st1),
                    StreamState.set_events v2 (snd st1))).
  { subst st2 eventsPass. destruct compareEvents as [f|].
    - apply (incrementalProp_frame events_prop f st1).
    - exists (StreamState.events (fst st1)), (StreamState.events (snd st1)).
      destruct st1 as [[] []]; reflexivity. }
  destruct F1 as (d1 & d2 & F1), F2 as (e1 & e2 & F2).
  repeat split; try (rewrite F1; reflexivity); try (rewrite F2; reflexivity).
  unfold makeIncremental, bind. fold dataPass eventsPass.
  subst st2 st1.
  destruct (dataPass st) as [s1 [dataResult|err]]; cbn [fst snd]; auto.
  destruct (eventsPass s1) as [s2 [eventsResult|err]]; cbn [fst snd]; auto.
  unfold ret. rewrite conclusive_negb_inconclusive.
  now destruct (inconclusive dataResult).
Qed.

(** ** [addData] *)

Lemma string_app_empty_r (s : string) : (s ++ "")%string = s.
Proof. induction s as [|c s IH]; simpl; [reflexivity | now rewrite IH]. Qed.

Lemma string_length_0 (s : string) : String.length s = 0 -> s = "".
Proof. destruct s; [reflexivity | discriminate]. Qed.

Lemma eqb_0_length {A} (l : list A) : (List.length l =? 0) = true -> l = [].
Proof. destruct l; [reflexivity | discriminate]. Qed.

Lemma ltb_0_false (n : nat) : (0 <? n) = false -> n = 0.
Proof. destruct n; [reflexivity | discriminate]. Qed.

(** Outside objectMode: [addData] either throws a [TypeError] and leaves
    the state as it was, which happens exactly when the payload is no
    string and no Buffer, or data is already there and of the other type;
    or it stores the concatenation and adds the payload's length. *)
Lemma addData_non_object (options : Options.t) (data : jsval)
    (this : StreamState.t) :
  Options.objectMode options = false ->
  match addData options data this with
  | (this', Throw err) =>
      this' = this
      /\ (exists msg, err = VTypeError msg)
      /\ ((is_string data = false /\ is_buffer data = false)
          \/ (StreamState.data this <> DUndef
              /\ dataToString (StreamState.data this) <> objectToString data))
  | (this', Normal _) =>
      (is_string data = true \/ is_buffer data = true)
      /\ (StreamState.data this = DUndef
          \/ dataToString (StreamState.data this) = objectToString data)
      /\ this'
         = StreamState.set_totalDataLen
             (StreamState.totalDataLen this + payloadLength data)
             (StreamState.set_data (appended (StreamState.data this) data) this)
  end.
Proof.
  intros Hmode. unfold addData, bind, gets, modify, throw, ret, addTotalDataLen.
  rewrite Hmode. destruct this as [e ev d n]. cbn -[String.append Nat.eqb Nat.ltb].
  destruct data as [| |b|z|s|buf|l|fields|msg|msg];
    try (repeat split; eauto; fail).
  - (* a string *)
    destruct d as [|s0|b0|a0]; cbn -[String.append Nat.eqb Nat.ltb].
    + repeat split; auto.
    + destruct (String.length s0 =? 0) eqn:E0; cbn -[String.append Nat.eqb Nat.ltb].
      * apply Nat.eqb_eq, string_length_0 in E0. subst s0.
        repeat split; auto.
      * destruct (0 <? String.length s) eqn:E1; cbn -[String.append Nat.eqb Nat.ltb].
        -- repeat split; auto.
        -- apply ltb_0_false, string_length_0 in E1. subst s.
           rewrite string_app_empty_r. repeat split; auto.
    + split; [reflexivity | split; [eexists; reflexivity |]].
      right. split; discriminate.
    + split; [reflexivity | split; [eexists; reflexivity |]].
      right. split; discriminate.
  - (* a Buffer *)
    destruct d as [|s0|b0|a0]; cbn -[String.append Nat.eqb Nat.ltb].
    + repeat split; auto.
    + split; [reflexivity | split; [eexists; reflexivity |]].
      right. split; discriminate.
    + destruct (List.length b0 =? 0) eqn:E0; cbn -[String.append Nat.eqb Nat.ltb].
      * apply eqb_0_length in E0. subst b0. repeat split; auto.
      * destruct (0 <? List.length buf) eqn:E1; cbn -[String.append Nat.eqb Nat.ltb].
        -- repeat split; auto.
        -- apply ltb_0_false, length_zero_iff_nil in E1. subst buf.
           rewrite app_nil_r. repeat split; auto.
    + split; [reflexivity | split; [eexists; reflexivity |]].
      right. split; discriminate.
Qed.

(** In objectMode, on a state whose data is absent or an Array, the
    payload becomes the last element whatever it is. *)
Lemma addData_object (options : Options.t) (data : jsval)
    (this : StreamState.t) (a : list jsval) :
  Options.objectMode options = true ->
  (StreamState.data this = DUndef /\ a = []) \/ StreamState.data this = DArr a ->
  addData options data this
  = (StreamState.set_totalDataLen (StreamState.totalDataLen this + 1)
       (StreamState.set_data (DArr (a ++ [data])) this),
     Normal tt).
Proof.
  intros Hmode Hdata.
  unfold addData, bind, gets, modify, throw, ret, addTotalDataLen.
  rewrite Hmode. destruct this as [e ev d n]. cbn in *.
  destruct Hdata as [[-> ->] | ->]; reflexivity.
Qed.

(** C7. [addData]: outside objectMode it fails with a [TypeError] when
    the payload is neither a string nor a Buffer, or when its type
    differs from the type of the data accumulated so far, and only then;
    in objectMode (on a state whose data is absent or an Array) every
    payload is appended as one element, whatever its type. When it
    succeeds, [totalDataLen] grows by 1 in objectMode and by the
    payload's length otherwise. *)
Theorem addData_contract (options : Options.t) (data : jsval)
    (this : StreamState.t) :
  (Options.objectMode options = false ->
   match addData options data this with
   | (_, Throw err) =>
       (exists msg, err = VTypeError msg)
       /\ ((is_string data = false /\ is_buffer data = false)
           \/ (StreamState.data this <> DUndef
               /\ dataToString (StreamState.data this)
                  <> objectToString data))
   | (this', Normal _) =>
       (is_string data = true \/ is_buffer data = true)
       /\ (StreamState.data this = DUndef
           \/ dataToString (StreamState.data this) = objectToString data)
       /\ StreamState.data this' = appended (StreamState.data this) data
       /\ StreamState.totalDataLen this'
          = StreamState.totalDataLen this + payloadLength data
   end)
  /\ (Options.objectMode options = true ->
      forall a,
        (StreamState.data this = DUndef /\ a = [])
        \/ StreamState.data this = DArr a ->
        exists this',
          addData options data this = (this', Normal tt)
          /\ StreamState.data this' = DArr (a ++ [data])
          /\ StreamState.totalDataLen this'
             = StreamState.totalDataLen this + 1).
Proof.
  split.
  - intros Hmode. pose proof (addData_non_object options data this Hmode) as H.
    destruct (addData options data this) as [this' [u|err]].
    + destruct H as (H1 & H2 & ->). auto.
    + destruct H as (_ & H1 & H2). auto.
  - intros Hmode a Hdata. eexists. split.
    + apply addData_object; eassumption.
    + split; reflexivity.
Qed.

(** A number read in text mode is refused; in objectMode it is the first
    element. *)
Lemma addData_contract_witness :
  ((exists msg, VTypeError "expected string or Buffer, got [object Number].  Need objectMode?"
                = VTypeError msg)
   /\ ((is_string (VNum 1) = false /\ is_buffer (VNum 1) = false)
       \/ (StreamState.data StreamState.new <> DUndef
           /\ dataToString (StreamState.data StreamState.new)
              <> objectToString (VNum 1))))
  /\ exists this',
       addData objectOptions (VNum 1) StreamState.new = (this', Normal tt)
       /\ StreamState.data this' = DArr ([] ++ [VNum 1])
       /\ StreamState.totalDataLen this'
          = StreamState.totalDataLen StreamState.new + 1.
Proof.
  split.
  - exact (proj1 (addData_contract textOptions (VNum 1) StreamState.new)
             eq_refl).
  - exact (proj2 (addData_contract objectOptions (VNum 1) StreamState.new)
             eq_refl [] (or_introl (conj eq_refl eq_refl))).
Defined.

(** ** [done] and [doCompare] *)

(** Unfold the field updates of the machine and of a stream. *)
Ltac setters :=
  lazy beta iota zeta delta
    [removeListener removeRegistration on once clearImmediate clearTimeout
     debug set_stream set_state stream_of state_of
     set_stream1 set_stream2 set_promise set_state1 set_state2
     set_ended set_isDone set_listeners1 set_listeners2
     set_postEndImmediate set_postEndTimeout set_nextTick set_log
     Stream.set_registrations Stream.set_readable Stream.register regs
     options stream1 stream2 promise state1 state2 ended isDone listeners1
     listeners2 postEndImmediate postEndTimeout nextTick log
     Stream.hasRead Stream.readable Stream.registrations Stream.nextId]
    in *.

Lemma fold_removeListener (i : side) (f : string -> Fn.t) (names : list string)
    (m : machine) :
  fold_left (fun m eventName => removeListener i eventName (f eventName) m)
    names m
  = set_stream i
      (Stream.set_registrations
         (fold_left
            (fun l eventName => remove_last (matches eventName (f eventName)) l)
            names (Stream.registrations (stream_of i m)))
         (stream_of i m)) m.
Proof.
  revert m. induction names as [|x names IH]; intros m; simpl.
  - destruct i; reflexivity.
  - rewrite IH. destruct i; setters; reflexivity.
Qed.

(** [done] in one step. *)
Lemma done_eq (m : machine) :
  done m
  = mkMachine (options m)
      (Stream.set_registrations
         (unregister (listeners1 m) (Options.endEvents (options m))
            (Stream.registrations (stream1 m))) (stream1 m))
      (Stream.set_registrations
         (unregister (listeners2 m) (Options.endEvents (options m))
            (Stream.registrations (stream2 m))) (stream2 m))
      (promise m) (state1 m) (state2 m) (ended m) true
      (listeners1 m) (listeners2 m) false false (nextTick m)
      (log m ++ [UnregisteringListeners; ComparisonFinished]).
Proof.
  unfold done. rewrite !fold_removeListener. unfold unregister.
  setters. rewrite <- app_assoc. reflexivity.
Qed.

(** The completion of a comparison function decides what [doCompare]
    does; [conclusion] is the settlement it asks for, if any. *)
Lemma doCompare_eq (f : compareFn) (type : CompareType.t) (m : machine) :
  let st := fst (f (state1 m, state2 m)) in
  let m1 := set_state2 (snd st)
              (set_state1 (fst st) (debug (PerformingCompare type) m)) in
  doCompare f type m
  = match snd (f (state1 m, state2 m)) with
    | Normal result =>
        if inconclusive result then
          match type with
          | CompareType.last => (done (resolve VUndefined m1), true)
          | _ => (m1, false)
          end
        else (done (resolve result (debug (ProducedResult result) m1)), true)
    | Throw err => (done (reject err (debug (ProducedError err) m1)), true)
    end.
Proof.
  unfold doCompare.
  change (state1 (debug (PerformingCompare type) m)) with (state1 m).
  change (state2 (debug (PerformingCompare type) m)) with (state2 m).
  destruct (f (state1 m, state2 m)) as [st [result|err]];
    cbn [fst snd]; [|reflexivity].
  unfold inconclusive. destruct result; reflexivity.
Qed.

(** ** Listener tables *)

Lemma remove_last_In (p : registration -> bool) (l : list registration)
    (r : registration) :
  In r (remove_last p l) -> In r l.
Proof.
  induction l as [|x l IH]; simpl; auto.
  destruct (existsb p l); [|destruct (p x)]; simpl; intuition.
Qed.

Lemma remove_last_Forall (P : registration -> Prop)
    (p : registration -> bool) (l : list registration) :
  Forall P l -> Forall P (remove_last p l).
Proof.
  rewrite !Forall_forall. intros H r Hr. apply H.
  eapply remove_last_In; eassumption.
Qed.

(** Removing a listener of one kind leaves the listeners of any disjoint
    kind in place. *)
Lemma remove_last_filter_other (p q : registration -> bool)
    (l : list registration) :
  (forall r, p r = true -> q r = false) ->
  filter q (remove_last p l) = filter q l.
Proof.
  intros Hpq. induction l as [|x l IH]; simpl; auto.
  destruct (existsb p l).
  - simpl. now rewrite IH.
  - destruct (p x) eqn:Px; [|reflexivity].
    now rewrite (Hpq x Px).
Qed.

Lemma existsb_false_In {A} (p : A -> bool) (l : list A) (x : A) :
  existsb p l = false -> In x l -> p x = false.
Proof.
  intros H Hin. destruct (p x) eqn:Px; auto.
  assert (existsb p l = true) by (apply existsb_exists; eauto). congruence.
Qed.

Lemma tail_guarded_filter (q : registration -> bool) (l : list registration) :
  tail_guarded l -> tail_guarded (filter q l).
Proof.
  destruct l as [|x l]; simpl; auto. intros H.
  assert (Hf : Forall (fun r => guarded r = true) (filter q l)).
  { rewrite Forall_forall in *. intros r Hr. apply filter_In in Hr. now apply H. }
  destruct (q x); simpl; auto.
  destruct (filter q l); simpl; auto. now inversion Hf.
Qed.

Lemma tail_guarded_app_guarded (l : list registration) (r : registration) :
  tail_guarded l -> guarded r = true -> tail_guarded (l ++ [r]).
Proof.
  destruct l as [|x l]; simpl; auto.
  intros H Hr. apply Forall_app. auto.
Qed.

Lemma tail_guarded_remove_last (eventName : string)
    (p : registration -> bool) (l : list registration) :
  tail_guarded (filter (forEvent eventName) l) ->
  tail_guarded (filter (forEvent eventName) (remove_last p l)).
Proof.
  induction l as [|x l IH]; simpl; auto.
  destruct (forEvent eventName x) eqn:Ex.
  - simpl. intros H.
    assert (Forall (fun r => guarded r = true)
              (filter (forEvent eventName) (remove_last p l))).
    { rewrite Forall_forall in *. intros r Hr. apply H.
      apply filter_In in Hr as [Hr Hq]. apply filter_In. split; auto.
      eapply remove_last_In; eassumption. }
    destruct (existsb p l); [|destruct (p x)]; simpl; rewrite ?Ex; simpl; auto.
    destruct (filter (forEvent eventName) l); simpl; auto. now inversion H.
  - intros H.
    destruct (existsb p l); [|destruct (p x)]; simpl; rewrite ?Ex; auto.
Qed.

Lemma matches_forEvent (eventName : string) (fn : Fn.t) (r : registration) :
  matches eventName fn r = true -> forEvent eventName r = true.
Proof. unfold matches, forEvent. now intros H%andb_prop. Qed.

Lemma Fn_eqb_eq (f g : Fn.t) : Fn.eqb f g = true <-> f = g.
Proof.
  destruct f, g; simpl; split; intros H; try discriminate; auto.
  - apply String.eqb_eq in H. now subst.
  - inversion H. apply String.eqb_refl.
Qed.

Lemma matches_spec (eventName : string) (fn : Fn.t) (r : registration) :
  matches eventName fn r = true <-> regEvent r = eventName /\ regFn r = fn.
Proof.
  unfold matches. rewrite andb_true_iff, String.eqb_eq, Fn_eqb_eq. tauto.
Qed.

(** An unguarded function is registered at most once under a name, so
    [removeListener] leaves none behind. *)
Lemma remove_last_unguarded (eventName : string) (fn : Fn.t)
    (l : list registration) :
  (forall r, regFn r = fn -> guarded r = false) ->
  tail_guarded (filter (forEvent eventName) l) ->
  forall r, In r (remove_last (matches eventName fn) l) ->
            matches eventName fn r = false.
Proof.
  intros Hfn. induction l as [|x l IH]; simpl; [contradiction|].
  intros H r Hr.
  destruct (forEvent eventName x) eqn:Ex.
  - simpl in H.
    assert (Hno : existsb (matches eventName fn) l = false).
    { destruct (existsb _ l) eqn:E; auto.
      apply existsb_exists in E as (y & Hy & My).
      rewrite Forall_forall in H.
      assert (guarded y = true).
      { apply H. apply filter_In. split; auto.
        eapply matches_forEvent; eassumption. }
      apply matches_spec in My as [_ My]. apply Hfn in My. congruence. }
    rewrite Hno in Hr.
    destruct (matches eventName fn x) eqn:Mx.
    + eapply existsb_false_In; eassumption.
    + destruct Hr as [<-|Hr]; auto. eapply existsb_false_In; eassumption.
  - assert (Mx : matches eventName fn x = false).
    { destruct (matches eventName fn x) eqn:Mx; auto.
      apply matches_forEvent in Mx. congruence. }
    rewrite Mx in Hr.
    destruct (existsb (matches eventName fn) l) eqn:E.
    + destruct Hr as [<-|Hr]; auto.
    + destruct Hr as [<-|Hr]; auto. eapply existsb_false_In; eassumption.
Qed.

Lemma wellFormed_remove_last (keys : list string) (p : registration -> bool)
    (l : list registration) :
  wellFormed keys l -> wellFormed keys (remove_last p l).
Proof.
  intros [H1 H2]. split.
  - intros n. apply tail_guarded_remove_last, H1.
  - intros r Hr. apply H2. eapply remove_last_In; eassumption.
Qed.

Lemma wellFormed_filter (keys : list string) (q : registration -> bool)
    (l : list registration) :
  wellFormed keys l -> wellFormed keys (filter q l).
Proof.
  intros [H1 H2]. split.
  - intros n.
    replace (filter (forEvent n) (filter q l))
      with (filter q (filter (forEvent n) l)).
    + apply tail_guarded_filter, H1.
    + clear. induction l as [|x l IH]; simpl; auto.
      destruct (forEvent n x) eqn:E, (q x) eqn:Q; simpl; rewrite ?E, ?Q, IH; auto.
  - intros r Hr. apply filter_In in Hr as [Hr _]. now apply H2.
Qed.

Lemma wellFormed_app_guarded (keys : list string) (l : list registration)
    (r : registration) :
  wellFormed keys l -> guarded r = true -> wellFormed keys (l ++ [r]).
Proof.
  intros [H1 H2] Hr. split.
  - intros n. rewrite filter_app. simpl.
    destruct (forEvent n r); [|now rewrite app_nil_r].
    now apply tail_guarded_app_guarded.
  - intros x Hx Gx. apply in_app_or in Hx as [Hx|[<-|[]]]; auto. congruence.
Qed.

Lemma fold_remove_last_In (f : string -> Fn.t) (names : list string)
    (l : list registration) (r : registration) :
  In r (fold_left (fun l n => remove_last (matches n (f n)) l) names l) ->
  In r l.
Proof.
  revert l. induction names as [|n names IH]; simpl; auto.
  intros l H. eapply remove_last_In, IH, H.
Qed.

Lemma fold_remove_last_wellFormed (keys : list string) (f : string -> Fn.t)
    (names : list string) (l : list registration) :
  wellFormed keys l ->
  wellFormed keys
    (fold_left (fun l n => remove_last (matches n (f n)) l) names l).
Proof.
  revert l. induction names as [|n names IH]; simpl; auto.
  intros l H. apply IH, wellFormed_remove_last, H.
Qed.

(** After the recorders of [names] are removed, none of them is left. *)
Lemma fold_remove_recorders (keys names : list string)
    (l : list registration) :
  wellFormed keys l ->
  forall r,
    In r (fold_left
            (fun l n => remove_last (matches n (Fn.listener n)) l) names l) ->
    In (regEvent r) names -> regFn r <> Fn.listener (regEvent r).
Proof.
  revert l. induction names as [|n names IH]; simpl; [tauto|].
  intros l Hwf r Hr [Hn|Hin].
  - apply fold_remove_last_In in Hr.
    apply remove_last_unguarded in Hr.
    + intros Hfn.
      assert (matches n (Fn.listener n) r = true)
        by (apply matches_spec; split; congruence).
      congruence.
    + intros x Hx. unfold guarded. now rewrite Hx.
    + apply Hwf.
  - apply (IH (remove_last (matches n (Fn.listener n)) l)); auto.
    apply wellFormed_remove_last, Hwf.
Qed.

(** [done] leaves only guarded listeners on a well-formed table. *)
Lemma unregister_guarded (keys endEvents : list string)
    (l : list registration) :
  wellFormed keys l ->
  Forall (fun r => guarded r = true) (unregister keys endEvents l).
Proof.
  intros Hwf. apply Forall_forall. intros r Hr. unfold unregister in Hr.
  apply fold_remove_last_In, remove_last_In in Hr.
  set (l1 := fold_left _ keys l) in Hr.
  assert (Hwf1 : wellFormed keys l1)
    by (apply fold_remove_last_wellFormed with (f := Fn.listener), Hwf).
  set (l2 := remove_last (matches "readable" Fn.readNext) l1) in Hr.
  assert (Hwf2 : wellFormed keys l2) by (apply wellFormed_remove_last, Hwf1).
  pose proof Hr as Hmatch. apply remove_last_unguarded in Hmatch;
    [|intros x Hx; unfold guarded; now rewrite Hx | apply Hwf2].
  apply remove_last_In in Hr. subst l2. apply remove_last_In in Hr.
  destruct (guarded r) eqn:G; auto. exfalso.
  destruct Hwf1 as [_ Hkinds]. destruct (Hkinds r Hr G) as [[Hfn Hk]|[Hfn Hev]].
  - exact (fold_remove_recorders keys keys l Hwf r Hr Hk Hfn).
  - assert (matches "error" Fn.onStreamError r = true)
      by (apply matches_spec; auto).
    congruence.
Qed.

Lemma unregister_In (keys endEvents : list string) (l : list registration)
    (r : registration) :
  In r (unregister keys endEvents l) -> In r l.
Proof.
  unfold unregister. intros H.
  apply fold_remove_last_In in H. do 3 apply remove_last_In in H.
  eapply fold_remove_last_In with (f := Fn.listener). exact H.
Qed.

Lemma unregister_wellFormed (keys ks endEvents : list string)
    (l : list registration) :
  wellFormed keys l -> wellFormed keys (unregister ks endEvents l).
Proof.
  intros H. unfold unregister.
  apply fold_remove_last_wellFormed with (f := fun _ => Fn.endListener).
  do 3 apply wellFormed_remove_last.
  apply fold_remove_last_wellFormed with (f := Fn.listener), H.
Qed.

(** ** The invariant of the engine *)

Lemma teardowns_app (l l' : list dbg) :
  teardowns (l ++ l') = teardowns l + teardowns l'.
Proof. unfold teardowns. now rewrite filter_app, length_app. Qed.

Lemma sameControl_refl (m : machine) : sameControl m m.
Proof. unfold sameControl; repeat split; reflexivity. Qed.

Lemma sameControl_trans (m1 m2 m3 : machine) :
  sameControl m1 m2 -> sameControl m2 m3 -> sameControl m1 m3.
Proof.
  unfold sameControl.
  intros (a1 & a2 & a3 & a4 & a5 & a6 & a7 & a8 & a9)
         (b1 & b2 & b3 & b4 & b5 & b6 & b7 & b8 & b9).
  repeat split; try congruence;
    destruct (a9 i) as [x y], (b9 i) as [x' y']; congruence.
Qed.

Lemma sameControl_debug (d : dbg) (m : machine) :
  d <> UnregisteringListeners -> sameControl m (debug d m).
Proof.
  intros Hd. unfold sameControl, regs. setters. repeat split; auto.
  rewrite teardowns_app. destruct d; try congruence; cbn; lia.
Qed.

Lemma sameControl_set_state (i : side) (x : StreamState.t) (m : machine) :
  sameControl m (set_state i x m).
Proof. unfold sameControl, regs. destruct i; setters; repeat split; auto. Qed.

Lemma sameControl_set_ended (n : nat) (m : machine) :
  sameControl m (set_ended n m).
Proof. unfold sameControl, regs. setters; repeat split; auto. Qed.

Lemma sameControl_set_nextTick (b : bool) (m : machine) :
  sameControl m (set_nextTick b m).
Proof. unfold sameControl, regs. setters; repeat split; auto. Qed.

Lemma sameControl_set_readable (i : side) (q : list jsval) (m : machine) :
  sameControl m (set_stream i (Stream.set_readable q (stream_of i m)) m).
Proof.
  unfold sameControl, regs. destruct i; setters; repeat split; auto;
    destruct i; reflexivity.
Qed.

Lemma Inv0_sameControl (m m' : machine) :
  sameControl m m' -> Inv0 m -> Inv0 m'.
Proof.
  intros (a1 & a2 & a3 & a4 & a5 & a6 & a7 & a8 & a9) [].
  constructor; rewrite ?a1, ?a2, ?a3, ?a4, ?a5, ?a6, ?a7; auto.
  - intros i. destruct (a9 i) as [R N]. unfold ids_ok, regs in *.
    rewrite R, N. apply inv_ids0.
  - intros Ha Hd i. destruct (a9 i) as [R N]. rewrite R. auto.
Qed.

Lemma Inv1_sameControl (m m' : machine) :
  sameControl m m' -> Inv1 m -> Inv1 m'.
Proof.
  intros (a1 & a2 & a3 & a4 & a5 & a6 & a7 & a8 & a9) [].
  constructor; rewrite ?a3, ?a4, ?a8; auto.
  - intros i. destruct (a9 i) as [R N]. rewrite R. auto.
  - intros Hd i. destruct (a9 i) as [R N]. rewrite R. auto.
Qed.

Lemma evolves_refl (s : Stream.t) : evolves s s.
Proof. split; auto. Qed.

Lemma evolves_trans (s1 s2 s3 : Stream.t) :
  evolves s1 s2 -> evolves s2 s3 -> evolves s1 s3.
Proof.
  intros [N1 H1] [N2 H2]. split; [lia|].
  intros x Hx. destruct (H2 x Hx) as [Hin|Hid].
  - destruct (H1 x Hin); auto.
  - right. lia.
Qed.

Lemma snapId_evolves (s s' : Stream.t) (r : registration) :
  evolves s s' -> snapId s r -> snapId s' r.
Proof.
  intros [N H] [Hlt Huniq]. split; [lia|].
  intros x Hx Hid. destruct (H x Hx) as [Hin|Hge]; auto. lia.
Qed.

Lemma ids_ok_snapId (s : Stream.t) (r : registration) :
  ids_ok s -> In r (Stream.registrations s) -> snapId s r.
Proof.
  intros [Hnd Hlt] Hr. split; auto.
  intros x Hx Hid. revert Hnd Hx Hr Hid. generalize (Stream.registrations s).
  induction l as [|y l IH]; simpl; [contradiction|].
  intros Hnd [->|Hx] [->|Hr] Hid; auto.
  - inversion Hnd; subst. exfalso. apply H1. rewrite Hid. now apply in_map.
  - inversion Hnd; subst. exfalso. apply H1. rewrite <- Hid. now apply in_map.
  - inversion Hnd; subst. auto.
Qed.

Lemma moved_refl (m : machine) : Inv0 m -> moved m m.
Proof. intros H. constructor; auto. intros i. apply evolves_refl. Qed.

Lemma moved_trans (m1 m2 m3 : machine) :
  moved m1 m2 -> moved m2 m3 -> moved m1 m3.
Proof.
  intros [] []. constructor; auto; try congruence.
  intros i. eapply evolves_trans; eauto.
Qed.

Lemma moved_sameControl (m m' : machine) :
  Inv0 m -> sameControl m m' -> moved m m'.
Proof.
  intros Hinv Hs. pose proof (Inv0_sameControl m m' Hs Hinv).
  destruct Hs as (a1 & a2 & a3 & a4 & a5 & a6 & a7 & a8 & a9).
  constructor; auto; try congruence.
  intros i. destruct (a9 i) as [R N]. unfold regs in R. split.
  - rewrite N. lia.
  - rewrite R. auto.
Qed.

Lemma NoDup_map_remove_last {B} (f : registration -> B)
    (p : registration -> bool) (l : list registration) :
  NoDup (map f l) -> NoDup (map f (remove_last p l)).
Proof.
  induction l as [|x l IH]; simpl; auto.
  intros H. inversion H as [|? ? Hx Hl]; subst.
  destruct (existsb p l); [|destruct (p x)]; simpl; auto.
  constructor; auto. intros Hin. apply Hx.
  apply in_map_iff in Hin as (y & Hy & Hin). apply in_map_iff.
  exists y. split; auto. eapply remove_last_In; eassumption.
Qed.

Lemma NoDup_map_filter {B} (f : registration -> B)
    (q : registration -> bool) (l : list registration) :
  NoDup (map f l) -> NoDup (map f (filter q l)).
Proof.
  induction l as [|x l IH]; simpl; auto.
  intros H. inversion H as [|? ? Hx Hl]; subst.
  destruct (q x); simpl; auto.
  constructor; auto. intros Hin. apply Hx.
  apply in_map_iff in Hin as (y & Hy & Hin). apply in_map_iff.
  exists y. split; auto. now apply filter_In in Hin.
Qed.

Lemma NoDup_map_fold_remove_last {B} (g : registration -> B)
    (f : string -> Fn.t) (names : list string) (l : list registration) :
  NoDup (map g l) ->
  NoDup (map g (fold_left (fun l n => remove_last (matches n (f n)) l) names l)).
Proof.
  revert l. induction names as [|n names IH]; simpl; auto.
  intros l H. apply IH, NoDup_map_remove_last, H.
Qed.

Lemma NoDup_map_unregister (keys endEvents : list string)
    (l : list registration) :
  NoDup (map regId l) -> NoDup (map regId (unregister keys endEvents l)).
Proof.
  intros H. unfold unregister.
  apply NoDup_map_fold_remove_last with (f := fun _ => Fn.endListener).
  do 3 apply NoDup_map_remove_last.
  apply NoDup_map_fold_remove_last with (f := Fn.listener), H.
Qed.

Lemma filter_filter_keeps {A} (a q : A -> bool) (l : list A) :
  (forall x, In x l -> a x = true -> q x = true) ->
  filter a (filter q l) = filter a l.
Proof.
  induction l as [|x l IH]; simpl; auto. intros H.
  destruct (q x) eqn:Q; simpl.
  - rewrite IH; auto.
  - destruct (a x) eqn:Ax.
    + rewrite H in Q; auto. discriminate.
    + apply IH. auto.
Qed.

Lemma settleWith_eq (s : settlement) (m : machine) :
  settleWith s m = set_promise (promise (settleWith s m)) m.
Proof.
  destruct s as [|v|e]; simpl; [reflexivity|..]; unfold resolve, reject;
    destruct (promise m) eqn:P; try reflexivity; rewrite <- P; reflexivity.
Qed.

Lemma settleWith_settled (s : settlement) (m : machine) :
  s <> Pending -> promise (settleWith s m) <> Pending.
Proof.
  intros Hs. destruct s; [congruence| |]; simpl; unfold resolve, reject;
    destruct (promise m) eqn:P; setters; congruence.
Qed.

Lemma settleWith_pending (s : settlement) (m : machine) :
  promise m = Pending -> promise (settleWith s m) = s.
Proof.
  intros P. destruct s; simpl; auto; unfold resolve, reject; rewrite P;
    reflexivity.
Qed.

(** Settling and tearing down re-establishes the invariant. *)
Lemma moved_done_settle (s : settlement) (m : machine) :
  s <> Pending ->
  listeners2 m = listeners1 m ->
  (forall i, ids_ok (stream_of i m)) ->
  moved m (done (settleWith s m)).
Proof.
  intros Hs Hk Hids. rewrite done_eq, settleWith_eq. setters.
  pose proof (settleWith_settled s m Hs) as Hp.
  constructor; [constructor|..]; setters; auto; try discriminate.
  - intros [|]; destruct (Hids One) as [N1 L1], (Hids Two) as [N2 L2];
      split; setters;
      try (apply NoDup_map_unregister; assumption);
      intros r Hr; apply unregister_In in Hr; auto.
  - intros [|]; split; setters; auto; intros x Hx;
      apply unregister_In in Hx; auto.
Qed.

Lemma Inv1_done_settle (s : settlement) (m : machine) :
  listeners2 m = listeners1 m ->
  Inv1 m -> isDone m = false ->
  Inv1 (done (settleWith s m)).
Proof.
  intros Hk [Hwf Hg Ht] Hd. rewrite done_eq, settleWith_eq. setters.
  pose proof (Hwf One) as W1. pose proof (Hwf Two) as W2.
  unfold regs in *. setters.
  constructor; unfold regs; setters.
  - intros [|]; apply unregister_wellFormed; assumption.
  - intros _ [|]; rewrite ?Hk;
      apply unregister_guarded with (keys := listeners1 m); assumption.
  - rewrite teardowns_app, Ht, Hd. reflexivity.
Qed.

(** A machine that differs from [m] in the two timer flags only. *)
Lemma moved_timers (a b : bool) (m : machine) :
  Inv0 m ->
  (isDone m = true -> a = false /\ b = false) ->
  let m' := set_postEndTimeout b (set_postEndImmediate a m) in
  moved m m' /\ (Inv1 m -> Inv1 m').
Proof.
  intros [] Hab m'. split.
  - constructor; [constructor|..]; auto.
    intros i. apply evolves_refl.
  - intros []. constructor; auto.
Qed.

Lemma moved_set_timer (m m' : machine) :
  Inv0 m -> isDone m = false ->
  m' = set_postEndTimeout true m \/ m' = set_postEndImmediate true m ->
  moved m m' /\ (Inv1 m -> Inv1 m').
Proof.
  intros H Hd [->| ->].
  - apply (moved_timers (postEndImmediate m) true m H). congruence.
  - apply (moved_timers true (postEndTimeout m) m H). congruence.
Qed.

Lemma moved_clear_timer (m m' : machine) :
  Inv0 m ->
  m' = set_postEndTimeout false m \/ m' = set_postEndImmediate false m ->
  moved m m' /\ (Inv1 m -> Inv1 m').
Proof.
  intros H [->| ->].
  - apply (moved_timers (postEndImmediate m) false m H).
    intros Hd. split; auto. now apply (inv_timers _ H).
  - apply (moved_timers false (postEndTimeout m) m H).
    intros Hd. split; auto. now apply (inv_timers _ H).
Qed.

Lemma stream_of_set_stream (i j : side) (x : Stream.t) (m : machine) :
  stream_of j (set_stream i x m)
  = match i, j with
    | One, One | Two, Two => x
    | _, _ => stream_of j m
    end.
Proof. destruct i, j; reflexivity. Qed.

(** Changing one stream's listener table: what the invariant asks of the
    new table. *)
Lemma moved_set_registrations (i : side) (l' : list registration)
    (n' : nat) (m : machine) :
  let s := stream_of i m in
  let s' := Stream.mk (Stream.hasRead s) (Stream.readable s) l' n' in
  Inv0 m ->
  NoDup (map regId l') ->
  (forall r, In r l' -> regId r < n') ->
  evolves s s' ->
  filter (forEvent "error") l' = filter (forEvent "error") (Stream.registrations s) ->
  moved m (set_stream i s' m).
Proof.
  intros s s' [] Hnd Hlt Hev Herr.
  constructor; [constructor|..]; try (destruct i; setters; auto; fail).
  - intros j. rewrite stream_of_set_stream.
    destruct i, j; try apply inv_ids0; split; auto.
  - intros Ha Hd j. unfold regs. rewrite stream_of_set_stream.
    assert (isDone m = false) by (destruct i; exact Hd).
    assert (Options.abortOnError (options m) = true) by (destruct i; exact Ha).
    destruct i, j; try (apply inv_error0; assumption);
      unfold error_wired; cbn [Stream.registrations s']; rewrite Herr;
      apply inv_error0; assumption.
  - intros j. rewrite stream_of_set_stream.
    destruct i, j; try apply evolves_refl; exact Hev.
Qed.

Lemma Inv1_set_registrations (i : side) (l' : list registration)
    (n' : nat) (m : machine) :
  let s := stream_of i m in
  let s' := Stream.mk (Stream.hasRead s) (Stream.readable s) l' n' in
  Inv1 m ->
  wellFormed (listeners1 m) l' ->
  (Forall (fun r => guarded r = true) (Stream.registrations s) ->
   Forall (fun r => guarded r = true) l') ->
  Inv1 (set_stream i s' m).
Proof.
  intros s s' [] Hwf Hg.
  constructor; try (destruct i; setters; auto; fail).
  - intros j. unfold regs. rewrite stream_of_set_stream.
    replace (listeners1 (set_stream i s' m)) with (listeners1 m)
      by (destruct i; reflexivity).
    destruct i, j; try apply inv_wf0; exact Hwf.
  - intros Hd j. unfold regs. rewrite stream_of_set_stream.
    assert (Hd' : isDone m = true) by (destruct i; exact Hd).
    destruct i, j; try (apply inv_guarded0; assumption);
      apply Hg; apply inv_guarded0; assumption.
Qed.

Lemma moved_once_readable (i : side) (m : machine) :
  Inv0 m -> moved m (once i "readable" Fn.readNext m).
Proof.
  intros H. unfold once, Stream.register.
  apply moved_set_registrations; auto.
  - destruct (inv_ids _ H i) as [Hnd Hlt].
    rewrite map_app. simpl. apply NoDup_app; auto.
    + repeat constructor. intros [].
    + intros x Hx [<-|[]]. apply in_map_iff in Hx as (r & Hr & Hin).
      apply Hlt in Hin. lia.
  - destruct (inv_ids _ H i) as [Hnd Hlt].
    intros r Hr. apply in_app_or in Hr as [Hr|[<-|[]]]; simpl;
      [apply Hlt in Hr; lia | lia].
  - split; simpl; [lia|]. intros x Hx.
    apply in_app_or in Hx as [Hx|[<-|[]]]; simpl; auto.
  - rewrite filter_app. simpl. now rewrite app_nil_r.
Qed.

Lemma Inv1_once_readable (i : side) (m : machine) :
  Inv1 m -> Inv1 (once i "readable" Fn.readNext m).
Proof.
  intros H. unfold once, Stream.register.
  apply Inv1_set_registrations; auto.
  - apply wellFormed_app_guarded; [apply H | reflexivity].
  - intros Hg. apply Forall_app. split; auto.
Qed.

Lemma moved_removeListener_readable (i : side) (m : machine) :
  Inv0 m -> moved m (removeListener i "readable" Fn.readNext m).
Proof.
  intros H. unfold removeListener, Stream.set_registrations.
  destruct (inv_ids _ H i) as [Hnd Hlt].
  apply moved_set_registrations; auto.
  - now apply NoDup_map_remove_last.
  - intros r Hr. apply remove_last_In in Hr. auto.
  - split; auto. intros x Hx. apply remove_last_In in Hx. auto.
  - apply remove_last_filter_other. intros r Hr.
    apply matches_spec in Hr as [Hr _]. unfold forEvent. now rewrite Hr.
Qed.

Lemma Inv1_removeListener (i : side) (eventName : string) (fn : Fn.t)
    (m : machine) :
  Inv1 m -> Inv1 (removeListener i eventName fn m).
Proof.
  intros H. unfold removeListener, Stream.set_registrations.
  apply Inv1_set_registrations; auto.
  - apply wellFormed_remove_last, H.
  - apply remove_last_Forall.
Qed.

(** A [once] wrapper that removes itself takes nothing else along, as
    long as it is not the ['error'] listener of an unsettled
    abortOnError comparison. *)
Lemma moved_removeRegistration (i : side) (r : registration) (m : machine) :
  Inv0 m ->
  snapId (stream_of i m) r ->
  (Options.abortOnError (options m) = true -> isDone m = false ->
   regEvent r <> "error") ->
  moved m (removeRegistration i (regId r) m).
Proof.
  intros H [_ Huniq] Hne. unfold removeRegistration, Stream.set_registrations.
  destruct (inv_ids _ H i) as [Hnd Hlt].
  destruct (Options.abortOnError (options m)) eqn:Ha, (isDone m) eqn:Hd.
  1,3,4: (* the ['error'] listeners do not matter *)
    constructor; [constructor|..];
    try (destruct i; setters; auto; try apply H; fail);
    try (intros ? ?; destruct i; setters; congruence);
    intros j; rewrite stream_of_set_stream;
    destruct i, j; try apply H; try apply evolves_refl;
    split; setters; auto;
    try (now apply NoDup_map_filter);
    intros x Hx; apply filter_In in Hx as [Hx _]; auto.
  apply moved_set_registrations; auto.
  - now apply NoDup_map_filter.
  - intros x Hx. apply filter_In in Hx as [Hx _]. auto.
  - split; auto. intros x Hx. apply filter_In in Hx as [Hx _]. auto.
  - apply filter_filter_keeps. intros x Hx Ex.
    apply negb_true_iff, Nat.eqb_neq. intros Hid.
    apply Huniq in Hid; auto. subst x.
    apply String.eqb_eq in Ex. now apply Hne.
Qed.

Lemma Inv1_removeRegistration (i : side) (id : nat) (m : machine) :
  Inv1 m -> Inv1 (removeRegistration i id m).
Proof.
  intros H. unfold removeRegistration, Stream.set_registrations.
  apply Inv1_set_registrations; auto.
  - apply wellFormed_filter, H.
  - intros Hg. rewrite Forall_forall in *. intros x Hx.
    apply filter_In in Hx as [Hx _]. auto.
Qed.

(** ** The engine's functions keep the invariant *)

(** Peel the updates that leave the control state alone. *)
Ltac same_control :=
  lazymatch goal with
  | |- sameControl ?m ?m => apply sameControl_refl
  | |- sameControl ?m (debug ?d ?x) =>
      apply sameControl_trans with (m2 := x);
      [same_control | apply sameControl_debug; discriminate]
  | |- sameControl ?m (set_state ?i ?s ?x) =>
      apply sameControl_trans with (m2 := x);
      [same_control | apply sameControl_set_state]
  | |- sameControl ?m (set_state1 ?s ?x) =>
      apply sameControl_trans with (m2 := x);
      [same_control | apply (sameControl_set_state One)]
  | |- sameControl ?m (set_state2 ?s ?x) =>
      apply sameControl_trans with (m2 := x);
      [same_control | apply (sameControl_set_state Two)]
  | |- sameControl ?m (set_ended ?n ?x) =>
      apply sameControl_trans with (m2 := x);
      [same_control | apply sameControl_set_ended]
  | |- sameControl ?m (set_nextTick ?b ?x) =>
      apply sameControl_trans with (m2 := x);
      [same_control | apply sameControl_set_nextTick]
  | |- sameControl ?m (set_stream ?i (Stream.set_readable ?q _) ?x) =>
      apply sameControl_trans with (m2 := x);
      [same_control | apply sameControl_set_readable]
  | _ => eassumption
  end.

(** [doCompare] either leaves the control state alone and returns
    [false], or settles, tears down and returns [true]. *)
Lemma doCompare_cases (f : compareFn) (type : CompareType.t) (m : machine) :
  exists m1,
    sameControl m m1
    /\ (doCompare f type m = (m1, false)
        \/ exists s, s <> Pending
                     /\ doCompare f type m = (done (settleWith s m1), true)).
Proof.
  rewrite doCompare_eq. cbv zeta.
  destruct (snd (f (state1 m, state2 m))) as [result|err].
  - destruct (inconclusive result).
    + destruct type;
        try (eexists; split; [|left; reflexivity]; same_control).
      eexists. split; [|right; exists (Fulfilled VUndefined);
                        split; [discriminate | reflexivity]].
      same_control.
    + eexists. split; [|right; exists (Fulfilled result);
                        split; [discriminate | reflexivity]].
      same_control.
  - eexists. split; [|right; exists (Rejected err);
                      split; [discriminate | reflexivity]].
    same_control.
Qed.

Lemma sameControl_isDone (m m' : machine) :
  sameControl m m' -> isDone m' = isDone m.
Proof. intros H. apply H. Qed.

Lemma sameControl_options (m m' : machine) :
  sameControl m m' -> options m' = options m.
Proof. intros H. apply H. Qed.

Lemma moved_settle_after (s : settlement) (m m1 : machine) :
  Inv0 m -> sameControl m m1 -> s <> Pending ->
  moved m (done (settleWith s m1)).
Proof.
  intros H Hs Hne. eapply moved_trans; [apply moved_sameControl; eassumption|].
  pose proof (Inv0_sameControl _ _ Hs H) as H1.
  apply moved_done_settle; auto; apply H1.
Qed.

Lemma Inv1_settle_after (s : settlement) (m m1 : machine) :
  Inv0 m -> Inv1 m -> isDone m = false -> sameControl m m1 ->
  Inv1 (done (settleWith s m1)).
Proof.
  intros H0 H1 Hd Hs.
  apply Inv1_done_settle.
  - apply (Inv0_sameControl _ _ Hs H0).
  - apply (Inv1_sameControl _ _ Hs H1).
  - rewrite (sameControl_isDone _ _ Hs). exact Hd.
Qed.

Lemma isDone_done (m : machine) : isDone (done m) = true.
Proof. rewrite done_eq. reflexivity. Qed.

Lemma doCompare_moved (f : compareFn) (type : CompareType.t) (m : machine) :
  Inv0 m ->
  moved m (fst (doCompare f type m))
  /\ (snd (doCompare f type m) = true -> isDone (fst (doCompare f type m)) = true)
  /\ (snd (doCompare f type m) = false -> sameControl m (fst (doCompare f type m))).
Proof.
  intros H. destruct (doCompare_cases f type m) as (m1 & Hs & [E|(s & Hne & E)]);
    rewrite E; cbn [fst snd].
  - split; [now apply moved_sameControl|].
    split; [discriminate | intros _; exact Hs].
  - split; [now apply moved_settle_after|].
    split; [intros _; apply isDone_done | discriminate].
Qed.

Lemma doCompare_Inv1 (f : compareFn) (type : CompareType.t) (m : machine) :
  Inv0 m -> Inv1 m -> isDone m = false ->
  Inv1 (fst (doCompare f type m)).
Proof.
  intros H0 H1 Hd.
  destruct (doCompare_cases f type m) as (m1 & Hs & [E|(s & Hne & E)]);
    rewrite E; cbn [fst snd].
  - apply (Inv1_sameControl _ _ Hs H1).
  - now apply Inv1_settle_after with (m := m).
Qed.

(** An engine function that starts with updates that leave the control
    state alone and goes on with [doCompare]. *)
Lemma doCompare_after (f : compareFn) (type : CompareType.t)
    (m m1 : machine) :
  Inv0 m -> sameControl m m1 ->
  moved m (fst (doCompare f type m1))
  /\ (Inv1 m -> isDone m = false -> Inv1 (fst (doCompare f type m1))).
Proof.
  intros H Hs. pose proof (Inv0_sameControl _ _ Hs H) as H1. split.
  - eapply moved_trans; [apply moved_sameControl; eassumption|].
    now apply doCompare_moved.
  - intros I1 Hd. apply doCompare_Inv1; auto.
    + apply (Inv1_sameControl _ _ Hs I1).
    + now rewrite (sameControl_isDone _ _ Hs).
Qed.

Lemma same_after (m m1 : machine) :
  Inv0 m -> sameControl m m1 -> moved m m1 /\ (Inv1 m -> Inv1 m1).
Proof.
  intros H Hs. split; [now apply moved_sameControl|].
  apply Inv1_sameControl, Hs.
Qed.

Lemma checkpoint_ok (m : machine) :
  Inv0 m -> moved m (checkpoint m) /\ (Inv1 m -> Inv1 (checkpoint m)).
Proof.
  intros H. unfold checkpoint. destruct (isDone m) eqn:Hd.
  - apply same_after; auto. same_control.
  - destruct (doCompare_after (Options.compare (options m))
                CompareType.checkpoint m m H (sameControl_refl m)); auto.
Qed.

Lemma end_ok (m : machine) :
  Inv0 m -> moved m (end_ m) /\ (Inv1 m -> Inv1 (end_ m)).
Proof.
  intros H. unfold end_. destruct (isDone m) eqn:Hd.
  - apply same_after; auto. same_control.
  - destruct (doCompare_after (Options.compare (options m))
                CompareType.last m m H (sameControl_refl m)); auto.
Qed.

Lemma postEndCompare_ok (m : machine) :
  Inv0 m ->
  moved m (postEndCompare m)
  /\ (Inv1 m -> isDone m = false -> Inv1 (postEndCompare m)).
Proof. intros H. apply doCompare_after; auto. apply sameControl_refl. Qed.

Lemma listener_ok (i : side) (eventName : string) (args : list jsval)
    (m : machine) :
  Inv0 m ->
  moved m (listener i eventName args m)
  /\ (Inv1 m -> isDone m = false -> Inv1 (listener i eventName args m)).
Proof.
  intros H. unfold listener. cbv zeta.
  match goal with
  | |- context [Options.incremental (options ?x)] =>
      assert (Hs : sameControl m x) by same_control;
      replace (options x) with (options m)
        by (symmetry; apply (sameControl_options _ _ Hs))
  end.
  destruct (Options.incremental (options m)) as [f|].
  - now apply doCompare_after.
  - destruct (same_after _ _ H Hs). split; auto.
Qed.

Lemma onStreamError_eq (i : side) (err : jsval) (m : machine) :
  onStreamError i err m
  = done (settleWith (Rejected err) (debug (EmittedError i err) m)).
Proof. reflexivity. Qed.

Lemma onStreamError_ok (i : side) (err : jsval) (m : machine) :
  Inv0 m ->
  moved m (onStreamError i err m)
  /\ (Inv1 m -> isDone m = false -> Inv1 (onStreamError i err m)).
Proof.
  intros H. rewrite onStreamError_eq.
  assert (Hs : sameControl m (debug (EmittedError i err) m)) by same_control.
  split.
  - apply moved_settle_after; auto. discriminate.
  - intros I1 Hd. now apply Inv1_settle_after with (m := m).
Qed.

(** After the end of a stream was noted and the incremental comparison
    did not settle, [endListener] may start the post-end timer. *)
Lemma endListener_timer (m : machine) :
  Inv0 m -> isDone m = false ->
  let m' :=
    if ended m =? 2 then
      if negb (Options.delay (options m) =? 0) then
        set_postEndTimeout true
          (debug (AllEndedDelayingFor (Options.delay (options m))) m)
      else set_postEndImmediate true (debug AllEndedDelaying m)
    else m in
  moved m m' /\ (Inv1 m -> Inv1 m').
Proof.
  intros H Hd m'. subst m'.
  destruct (ended m =? 2); [|split; auto using moved_refl].
  destruct (negb (Options.delay (options m) =? 0)).
  - assert (Hs : sameControl m
                   (debug (AllEndedDelayingFor (Options.delay (options m))) m))
      by same_control.
    destruct (same_after _ _ H Hs) as [Hm Hi].
    destruct (moved_set_timer _ _ (moved_inv _ _ Hm)
                (eq_trans (sameControl_isDone _ _ Hs) Hd)
                (or_introl eq_refl)) as [Hm' Hi'].
    split; [eapply moved_trans; eassumption | auto].
  - assert (Hs : sameControl m (debug AllEndedDelaying m)) by same_control.
    destruct (same_after _ _ H Hs) as [Hm Hi].
    destruct (moved_set_timer _ _ (moved_inv _ _ Hm)
                (eq_trans (sameControl_isDone _ _ Hs) Hd)
                (or_intror eq_refl)) as [Hm' Hi'].
    split; [eapply moved_trans; eassumption | auto].
Qed.

Lemma endListener_ok (i : side) (m : machine) :
  Inv0 m -> moved m (endListener i m) /\ (Inv1 m -> Inv1 (endListener i m)).
Proof.
  intros H. unfold endListener.
  destruct (StreamState.ended (state_of i m) || isDone m) eqn:G;
    [split; auto using moved_refl|].
  apply orb_false_iff in G as [_ Hd]. cbv zeta.
  match goal with
  | |- context [Options.incremental (options ?x)] =>
      assert (Hs : sameControl m x) by same_control;
      replace (options x) with (options m)
        by (symmetry; apply (sameControl_options _ _ Hs));
      set (m1 := x) in *
  end.
  destruct (same_after _ _ H Hs) as [Hm1 Hi1].
  pose proof (moved_inv _ _ Hm1) as H1.
  assert (Hd1 : isDone m1 = false) by now rewrite (sameControl_isDone _ _ Hs).
  destruct (Options.incremental (options m)) as [f|].
  - destruct (doCompare_moved f CompareType.incremental m1 H1) as (Hm & Ht & Hf).
    pose proof (doCompare_Inv1 f CompareType.incremental m1 H1) as Hi.
    destruct (doCompare f CompareType.incremental m1) as [m2 stop].
    cbn [fst snd] in *. destruct stop.
    + split; [eapply moved_trans; eassumption | auto].
    + specialize (Hf eq_refl).
      assert (Hd2 : isDone m2 = false) by now rewrite (sameControl_isDone _ _ Hf).
      destruct (endListener_timer m2 (moved_inv _ _ Hm) Hd2) as [Hm' Hi'].
      cbv zeta in *. split.
      * eapply moved_trans; [exact Hm1|]. eapply moved_trans; eassumption.
      * auto.
  - destruct (endListener_timer m1 H1 Hd1) as [Hm' Hi']. cbv zeta in *.
    split; [eapply moved_trans; eassumption | auto].
Qed.

Lemma handleData_ok (i : side) (data : jsval) (m : machine) :
  Inv0 m ->
  moved m (handleData i data m)
  /\ (Inv1 m -> isDone m = false -> Inv1 (handleData i data m)).
Proof.
  intros H. unfold handleData. cbv zeta.
  destruct (addData _ data _) as [state [u|err]].
  - match goal with
    | |- context [Options.incremental (options ?x)] =>
        assert (Hs : sameControl m x) by same_control;
        replace (options x) with (options m)
          by (symmetry; apply (sameControl_options _ _ Hs))
    end.
    destruct (Options.incremental (options m)) as [f|].
    + now apply doCompare_after.
    + destruct (same_after _ _ H Hs). split; auto.
  - change (done (reject err ?x)) with (done (settleWith (Rejected err) x)).
    match goal with
    | |- context [settleWith _ ?x] =>
        assert (Hs : sameControl m x) by same_control
    end.
    split.
    + apply moved_settle_after; auto. discriminate.
    + intros I1 Hd. now apply Inv1_settle_after with (m := m).
Qed.

Lemma sameControl_read (i : side) (m : machine) :
  sameControl m (snd (read i m)).
Proof.
  unfold read. destruct (Stream.readable (stream_of i m)); cbn [snd].
  - apply sameControl_refl.
  - apply sameControl_set_readable.
Qed.

Lemma readNext_loop_ok (fuel : nat) (m : machine) :
  Inv0 m ->
  moved m (readNext_loop fuel m)
  /\ (Inv1 m -> Inv1 (readNext_loop fuel m)).
Proof.
  revert m. induction fuel as [|fuel IH]; intros m H; simpl;
    [split; auto using moved_refl|].
  destruct (isDone m) eqn:Hd; [split; auto using moved_refl|].
  destruct (selectStream m) as [i|].
  - pose proof (sameControl_read i m) as Hs.
    destruct (read i m) as [data m1]. cbn [snd] in Hs.
    destruct (same_after _ _ H Hs) as [Hm1 Hi1].
    pose proof (moved_inv _ _ Hm1) as H1.
    destruct (is_null data).
    + assert (Hs2 : sameControl m1 (debug (WaitingReadable i) m1))
        by same_control.
      destruct (same_after _ _ H1 Hs2) as [Hm2 Hi2].
      split.
      * eapply moved_trans; [exact Hm1|]. eapply moved_trans; [exact Hm2|].
        apply moved_once_readable, (moved_inv _ _ Hm2).
      * intros I1. apply Inv1_once_readable. auto.
    + destruct (handleData_ok i data m1 H1) as [Hm Hi].
      destruct (IH (handleData i data m1) (moved_inv _ _ Hm)) as [Hm' Hi'].
      split.
      * eapply moved_trans; [exact Hm1|]. eapply moved_trans; eassumption.
      * intros I1. apply Hi', Hi; auto.
        now rewrite (sameControl_isDone _ _ Hs).
  - apply same_after; auto. same_control.
Qed.

Lemma readNext_ok (m : machine) :
  Inv0 m -> moved m (readNext m) /\ (Inv1 m -> Inv1 (readNext m)).
Proof. apply readNext_loop_ok. Qed.

Lemma readNextOnEnd_ok (m : machine) :
  Inv0 m -> moved m (readNextOnEnd m) /\ (Inv1 m -> Inv1 (readNextOnEnd m)).
Proof.
  intros H. unfold readNextOnEnd. cbv zeta.
  pose proof (moved_removeListener_readable One m H) as M1.
  pose proof (moved_removeListener_readable Two _ (moved_inv _ _ M1)) as M2.
  destruct (readNext_ok _ (moved_inv _ _ M2)) as [M3 I3].
  split.
  - eapply moved_trans; [exact M1|]. eapply moved_trans; eassumption.
  - intros I1. apply I3. now do 2 apply Inv1_removeListener.
Qed.

(** Calling a listener function: the guarded ones are safe whenever, the
    others while the comparison is not settled. *)
Lemma call_ok (i : side) (fn : Fn.t) (args : list jsval) (m : machine) :
  Inv0 m ->
  moved m (call i fn args m)
  /\ (Inv1 m ->
      isDone m = false
      \/ fn = Fn.endListener \/ fn = Fn.readNext \/ fn = Fn.readNextOnEnd ->
      Inv1 (call i fn args m)).
Proof.
  intros H. destruct fn; simpl.
  - destruct (listener_ok i eventName args m H) as [Hm Hi]. split; auto.
    intros I1 [Hd|[?|[?|?]]]; try discriminate. auto.
  - destruct (endListener_ok i m H). split; auto.
  - destruct (onStreamError_ok i (hd VUndefined args) m H) as [Hm Hi].
    split; auto. intros I1 [Hd|[?|[?|?]]]; try discriminate. auto.
  - destruct (readNext_ok m H). split; auto.
  - destruct (readNextOnEnd_ok m H). split; auto.
  - destruct (handleData_ok i (hd VUndefined args) m H) as [Hm Hi].
    split; auto. intros I1 [Hd|[?|[?|?]]]; try discriminate. auto.
Qed.

Lemma guarded_fn (r : registration) :
  guarded r = true ->
  regFn r = Fn.endListener \/ regFn r = Fn.readNext
  \/ regFn r = Fn.readNextOnEnd.
Proof. unfold guarded. destruct (regFn r); intros; try discriminate; auto. Qed.

Lemma removeRegistration_sameDone (i : side) (id : nat) (m : machine) :
  isDone (removeRegistration i id m) = isDone m
  /\ options (removeRegistration i id m) = options m
  /\ listeners1 (removeRegistration i id m) = listeners1 m
  /\ listeners2 (removeRegistration i id m) = listeners2 m.
Proof. destruct i; repeat split; reflexivity. Qed.

(** Invoking a registration of the snapshot of an emit. *)
Lemma invoke_ok (i : side) (args : list jsval) (m : machine)
    (r : registration) :
  Inv0 m ->
  snapId (stream_of i m) r ->
  (Options.abortOnError (options m) = true -> isDone m = false ->
   regEvent r <> "error") ->
  moved m (invoke i args m r)
  /\ (Inv1 m -> isDone m = false \/ guarded r = true ->
      Inv1 (invoke i args m r)).
Proof.
  intros H Hsnap Herr. unfold invoke.
  assert (Hm1 : let m1 := if regOnce r then removeRegistration i (regId r) m
                          else m in
                moved m m1 /\ (Inv1 m -> Inv1 m1) /\ isDone m1 = isDone m).
  { destruct (regOnce r); cbv zeta.
    - split; [now apply moved_removeRegistration|].
      split; [apply Inv1_removeRegistration | apply removeRegistration_sameDone].
    - split; [now apply moved_refl | auto]. }
  cbv zeta in Hm1. destruct Hm1 as (Hm1 & Hi1 & Hd1).
  destruct (call_ok i (regFn r) args _ (moved_inv _ _ Hm1)) as [Hm Hi].
  split; [eapply moved_trans; eassumption|].
  intros I1 Hor. apply Hi; auto. rewrite Hd1.
  destruct Hor as [Hd|Hg]; auto. right. now apply guarded_fn.
Qed.

(** Invoking [onStreamError]: it settles, so that its own removal from
    the listener table does no harm. *)
Lemma invoke_onStreamError (i : side) (args : list jsval) (m : machine)
    (r : registration) :
  Inv0 m ->
  regFn r = Fn.onStreamError ->
  moved m (invoke i args m r)
  /\ (Inv1 m -> isDone m = false -> Inv1 (invoke i args m r)).
Proof.
  intros H Hfn. unfold invoke. rewrite Hfn. cbn [call].
  rewrite onStreamError_eq.
  set (m1 := if regOnce r then removeRegistration i (regId r) m else m).
  set (m2 := debug (EmittedError i (hd VUndefined args)) m1).
  assert (Hs : sameControl m1 m2) by (subst m2; same_control).
  assert (Hfields : isDone m1 = isDone m /\ options m1 = options m
                    /\ listeners1 m1 = listeners1 m
                    /\ listeners2 m1 = listeners2 m).
  { subst m1. destruct (regOnce r); auto. apply removeRegistration_sameDone. }
  destruct Hfields as (Fd & Fo & F1 & F2).
  assert (Hids : forall j, ids_ok (stream_of j m1)
                           /\ evolves (stream_of j m) (stream_of j m1)).
  { intros j. subst m1. destruct (regOnce r);
      [|split; [apply H | apply evolves_refl]].
    unfold removeRegistration. rewrite stream_of_set_stream.
    destruct (inv_ids _ H i) as [Hnd Hlt].
    destruct i, j; try (split; [apply H | apply evolves_refl]);
      (split; [split|split]); cbn [Stream.registrations Stream.nextId
        Stream.set_registrations]; auto;
      try (now apply NoDup_map_filter);
      intros x Hx; apply filter_In in Hx as [Hx _]; auto. }
  assert (Hk2 : listeners2 m2 = listeners1 m2).
  { destruct Hs as (_ & _ & _ & K1 & K2 & _). rewrite K1, K2, F1, F2. apply H. }
  assert (Hids2 : forall j, ids_ok (stream_of j m2)).
  { intros j. destruct Hs as (_ & _ & _ & _ & _ & _ & _ & _ & R).
    destruct (R j) as [R1 R2]. unfold ids_ok, regs in *. rewrite R1, R2.
    apply Hids. }
  pose proof (moved_done_settle (Rejected (hd VUndefined args)) m2
                ltac:(discriminate) Hk2 Hids2) as Hm.
  split.
  - destruct Hm as [Mi Mo Mk Md Mr]. constructor; auto.
    + rewrite Mo. rewrite (sameControl_options _ _ Hs). exact Fo.
    + rewrite Mk. destruct Hs as (_ & _ & _ & K1 & _). now rewrite K1.
    + intros _. apply isDone_done.
    + intros j. eapply evolves_trans; [apply Hids|].
      eapply evolves_trans; [|apply Mr].
      destruct Hs as (_ & _ & _ & _ & _ & _ & _ & _ & R).
      destruct (R j) as [R1 R2]. unfold regs in R1. split.
      * rewrite R2. lia.
      * rewrite R1. auto.
  - intros I1 Hd. apply Inv1_done_settle; auto.
    + apply (Inv1_sameControl _ _ Hs). subst m1.
      destruct (regOnce r); auto. now apply Inv1_removeRegistration.
    + rewrite (sameControl_isDone _ _ Hs). congruence.
Qed.

Lemma fold_invoke_ok (i : side) (args : list jsval)
    (rest : list registration) (m : machine) :
  Inv0 m ->
  (forall r, In r rest -> snapId (stream_of i m) r) ->
  (forall r, In r rest ->
     Options.abortOnError (options m) = true -> isDone m = false ->
     regEvent r <> "error") ->
  moved m (fold_left (invoke i args) rest m)
  /\ (Inv1 m -> tail_guarded rest ->
      (isDone m = true -> Forall (fun r => guarded r = true) rest) ->
      Inv1 (fold_left (invoke i args) rest m)).
Proof.
  revert m. induction rest as [|r rest IH]; intros m H Hsnap Herr; simpl.
  - split; auto using moved_refl.
  - assert (Hr : In r (r :: rest)) by (left; reflexivity).
    destruct (invoke_ok i args m r H (Hsnap r Hr) (Herr r Hr)) as [Hm Hi].
    assert (Hsnap' : forall x, In x rest ->
                       snapId (stream_of i (invoke i args m r)) x).
    { intros x Hx. eapply snapId_evolves; [apply (moved_regs _ _ Hm)|].
      apply Hsnap. now right. }
    assert (Herr' : forall x, In x rest ->
              Options.abortOnError (options (invoke i args m r)) = true ->
              isDone (invoke i args m r) = false -> regEvent x <> "error").
    { intros x Hx Ha Hd. apply (Herr x); [now right | |].
      - now rewrite <- (moved_options _ _ Hm).
      - destruct (isDone m) eqn:Hdm; auto.
        rewrite (moved_done _ _ Hm Hdm) in Hd. discriminate. }
    destruct (IH (invoke i args m r) (moved_inv _ _ Hm) Hsnap' Herr')
      as [Hm' Hi'].
    split; [eapply moved_trans; eassumption|].
    intros I1 Htail Hg. simpl in Htail. apply Hi'.
    + apply Hi; auto. destruct (isDone m) eqn:Hd; auto.
      right. specialize (Hg eq_refl). now inversion Hg.
    + destruct rest; simpl; auto. now inversion Htail.
    + intros _. exact Htail.
Qed.

Lemma emit_ok (i : side) (eventName : string) (args : list jsval)
    (m : machine) :
  Inv0 m ->
  moved m (emit i eventName args m)
  /\ (Inv1 m -> Inv1 (emit i eventName args m)).
Proof.
  intros H. unfold emit. cbv zeta.
  change (filter _ (Stream.registrations (stream_of i m)))
    with (filter (forEvent eventName) (regs i m)).
  destruct (Options.abortOnError (options m) && negb (isDone m)
            && String.eqb eventName "error") eqn:Special.
  - (* the ['error'] event of an unsettled abortOnError comparison *)
    apply andb_prop in Special as [Special Hn].
    apply andb_prop in Special as [Ha Hd].
    apply String.eqb_eq in Hn. apply negb_true_iff in Hd. subst eventName.
    destruct (inv_error _ H Ha Hd i) as (r & Hr & Hfn & Honce).
    rewrite Hr. simpl.
    destruct (invoke_onStreamError i args m r H Hfn) as [Hm Hi].
    split; auto.
  - assert (Hin : forall r, In r (filter (forEvent eventName) (regs i m)) ->
                            In r (regs i m) /\ regEvent r = eventName).
    { intros r Hr. apply filter_In in Hr as [Hr He]. split; auto.
      now apply String.eqb_eq. }
    destruct (fold_invoke_ok i args (filter (forEvent eventName) (regs i m)) m H)
      as [Hm Hi].
    + intros r Hr. apply ids_ok_snapId; [apply H | now apply Hin].
    + intros r Hr Ha Hd Hn. apply Hin in Hr as [_ He].
      rewrite Ha, Hd in Special. simpl in Special.
      rewrite <- He, Hn in Special. discriminate.
    + split; auto. intros I1. apply Hi; auto.
      * apply (inv_wf _ I1).
      * intros Hd. pose proof (inv_guarded _ I1 Hd i) as Hg.
        rewrite Forall_forall in *. intros r Hr. apply Hg.
        now apply filter_In in Hr.
Qed.

Lemma step_ok (a : action) (m : machine) :
  Inv0 m -> moved m (step a m) /\ (Inv1 m -> Inv1 (step a m)).
Proof.
  intros H. destruct a as [i eventName args|i chunk| | | | |]; simpl.
  - now apply emit_ok.
  - apply same_after; auto. apply sameControl_set_readable.
  - destruct (nextTick m); [|split; auto using moved_refl].
    assert (Hs : sameControl m (set_nextTick false m)) by same_control.
    destruct (same_after _ _ H Hs) as [Hm1 Hi1].
    destruct (readNext_ok _ (moved_inv _ _ Hm1)) as [Hm Hi].
    split; [eapply moved_trans; eassumption | auto].
  - destruct (postEndImmediate m) eqn:P; [|split; auto using moved_refl].
    destruct (moved_clear_timer m _ H (or_intror eq_refl)) as [Hm1 Hi1].
    destruct (postEndCompare_ok _ (moved_inv _ _ Hm1)) as [Hm Hi].
    split; [eapply moved_trans; eassumption|].
    intros I1. apply Hi; auto.
    change (isDone m = false). destruct (isDone m) eqn:Hd; auto.
    destruct (inv_timers _ H Hd). congruence.
  - destruct (postEndTimeout m) eqn:P; [|split; auto using moved_refl].
    destruct (moved_clear_timer m _ H (or_introl eq_refl)) as [Hm1 Hi1].
    destruct (postEndCompare_ok _ (moved_inv _ _ Hm1)) as [Hm Hi].
    split; [eapply moved_trans; eassumption|].
    intros I1. apply Hi; auto.
    change (isDone m = false). destruct (isDone m) eqn:Hd; auto.
    destruct (inv_timers _ H Hd). congruence.
  - now apply checkpoint_ok.
  - now apply end_ok.
Qed.

(** ** The wiring done by [streamCompare] *)

Lemma register_fields (i : side) (eventName : string) (fn : Fn.t) (o : bool)
    (m : machine) :
  let m' := register i eventName fn o m in
  options m' = options m /\ promise m' = promise m /\ isDone m' = isDone m
  /\ listeners1 m' = listeners1 m /\ listeners2 m' = listeners2 m
  /\ postEndImmediate m' = postEndImmediate m
  /\ postEndTimeout m' = postEndTimeout m /\ log m' = log m.
Proof. destruct i; repeat split; reflexivity. Qed.

Lemma register_regs (i j : side) (eventName : string) (fn : Fn.t) (o : bool)
    (m : machine) :
  regs j (register i eventName fn o m)
  = match i, j with
    | One, One | Two, Two =>
        regs j m ++ [mkReg (Stream.nextId (stream_of j m)) eventName fn o]
    | _, _ => regs j m
    end.
Proof. destruct i, j; reflexivity. Qed.

Lemma ids_ok_register (eventName : string) (fn : Fn.t) (o : bool)
    (s : Stream.t) :
  ids_ok s -> ids_ok (Stream.register eventName fn o s).
Proof.
  intros [Hnd Hlt]. split; simpl.
  - rewrite map_app. simpl. apply NoDup_app; auto.
    + repeat constructor. intros [].
    + intros x Hx [<-|[]]. apply in_map_iff in Hx as (r & Hr & Hin).
      apply Hlt in Hin. lia.
  - intros r Hr. apply in_app_or in Hr as [Hr|[<-|[]]]; simpl;
      [apply Hlt in Hr; lia | lia].
Qed.

Lemma wiring_register (i : side) (eventName : string) (fn : Fn.t) (o : bool)
    (m : machine) :
  wiring m -> wiring (register i eventName fn o m).
Proof.
  intros (Hd & Hp & Hi & Ht & Hk & Hids & Hl).
  destruct (register_fields i eventName fn o m)
    as (_ & Fp & Fd & F1 & F2 & Fi & Ft & Fl). cbv zeta in *.
  unfold wiring. rewrite Fp, Fd, F1, F2, Fi, Ft, Fl.
  repeat (split; [assumption|]). split; [|assumption].
  intros j. unfold register. rewrite stream_of_set_stream.
  destruct i, j; auto; apply ids_ok_register; auto.
Qed.

Lemma filter_register_other (i j : side) (eventName name : string)
    (fn : Fn.t) (o : bool) (m : machine) :
  eventName <> name ->
  filter (forEvent name) (regs j (register i eventName fn o m))
  = filter (forEvent name) (regs j m).
Proof.
  intros Hne. rewrite register_regs.
  assert (H : forall id, forEvent name (mkReg id eventName fn o) = false).
  { intros id. unfold forEvent. simpl. now apply String.eqb_neq. }
  destruct i, j; auto; rewrite filter_app; simpl; rewrite H; apply app_nil_r.
Qed.

Lemma noErrorListener_register (i : side) (eventName : string) (fn : Fn.t)
    (o : bool) (m : machine) :
  (Options.abortOnError (options m) = true -> eventName <> "error") ->
  noErrorListener m -> noErrorListener (register i eventName fn o m).
Proof.
  intros Hne H Ha j.
  replace (options (register i eventName fn o m)) with (options m) in Ha
    by (destruct i; reflexivity).
  rewrite filter_register_other; auto.
Qed.

Lemma errorWired_register (i : side) (eventName : string) (fn : Fn.t)
    (o : bool) (m : machine) :
  eventName <> "error" ->
  errorWired m -> errorWired (register i eventName fn o m).
Proof.
  intros Hne H Ha j.
  replace (options (register i eventName fn o m)) with (options m) in Ha
    by (destruct i; reflexivity).
  unfold error_wired. rewrite filter_register_other; auto. now apply H.
Qed.

Lemma allWellFormed_register (i : side) (eventName : string) (fn : Fn.t)
    (o : bool) (m : machine) :
  guarded (mkReg 0 eventName fn o) = true ->
  allWellFormed m -> allWellFormed (register i eventName fn o m).
Proof.
  intros Hg H j. rewrite register_regs.
  replace (listeners1 (register i eventName fn o m)) with (listeners1 m)
    by (destruct i; reflexivity).
  destruct i, j; auto; apply wellFormed_app_guarded; auto.
Qed.

Lemma hasKey_false (keys : list string) (key : string) :
  hasKey keys key = false -> ~ In key keys.
Proof.
  unfold hasKey. intros H Hin.
  assert (existsb (String.eqb key) keys = true).
  { apply existsb_exists. exists key. split; auto. apply String.eqb_refl. }
  congruence.
Qed.

Lemma wireEvent_eq (m : machine) (eventName : string) :
  wireEvent m eventName = m
  \/ (~ In eventName (listeners1 m)
      /\ (Options.abortOnError (options m) = true -> eventName <> "error")
      /\ wireEvent m eventName
         = register Two eventName (Fn.listener eventName) false
             (set_listeners2 (listeners2 m ++ [eventName])
                (register One eventName (Fn.listener eventName) false
                   (set_listeners1 (listeners1 m ++ [eventName]) m)))).
Proof.
  unfold wireEvent.
  destruct (hasKey (listeners1 m) eventName) eqn:Hk; cbn [orb]; auto.
  destruct (hasKey objectPrototypeKeys eventName); auto.
  destruct (Options.abortOnError (options m)) eqn:Ha; cbn [andb].
  - destruct (String.eqb eventName "error") eqn:He; auto.
    right. split; [now apply hasKey_false|]. split; [|reflexivity].
    intros _. now apply String.eqb_neq.
  - right. split; [now apply hasKey_false|]. split; [discriminate | reflexivity].
Qed.

Lemma wiring_set_listeners (k1 k2 : list string) (m : machine) :
  wiring m -> k2 = k1 ->
  wiring (set_listeners2 k2 (set_listeners1 k1 m)).
Proof.
  intros (Hd & Hp & Hi & Ht & Hk & Hids & Hl) ->.
  unfold wiring. repeat (split; [first [assumption | reflexivity]|]).
  assumption.
Qed.

Lemma wireEvent_ok (m : machine) (eventName : string) :
  wiring m -> recordersOnly m ->
  wiring (wireEvent m eventName) /\ recordersOnly (wireEvent m eventName)
  /\ options (wireEvent m eventName) = options m.
Proof.
  intros Hw Hr.
  destruct (wireEvent_eq m eventName) as [->|(Hnew & Hne & ->)]; auto.
  set (L := Fn.listener eventName).
  set (m' := register Two eventName L false _).
  assert (Hregs : forall i, regs i m'
            = regs i m ++ [mkReg (Stream.nextId (stream_of i m)) eventName L false])
    by (intros [|]; reflexivity).
  assert (Hkeys : listeners1 m' = listeners1 m ++ [eventName]) by reflexivity.
  assert (Hopt : options m' = options m) by reflexivity.
  split; [|split; auto].
  - subst m'.
    change (wiring
              (register Two eventName L false
                 (register One eventName L false
                    (set_listeners2 (listeners2 m ++ [eventName])
                       (set_listeners1 (listeners1 m ++ [eventName]) m))))).
    do 2 apply wiring_register. apply wiring_set_listeners; auto.
    destruct Hw as (_ & _ & _ & _ & Hk & _). now rewrite Hk.
  - destruct Hr as (Hrec & Htail & Herr). unfold recordersOnly.
    rewrite Hkeys, Hopt. split; [|split].
    + intros i r Hin. rewrite Hregs in Hin.
      apply in_app_or in Hin as [Hin|[<-|[]]].
      * destruct (Hrec i r Hin). split; auto. apply in_or_app. auto.
      * simpl. split; auto. apply in_or_app. right. now left.
    + intros i n. rewrite Hregs, filter_app. simpl.
      destruct (forEvent n _) eqn:E; [|rewrite app_nil_r; apply Htail].
      apply String.eqb_eq in E. simpl in E. subst n.
      assert (Hnone : filter (forEvent eventName) (regs i m) = []).
      { destruct (filter (forEvent eventName) (regs i m)) as [|r l] eqn:F; auto.
        assert (Hin : In r (filter (forEvent eventName) (regs i m)))
          by (rewrite F; now left).
        apply filter_In in Hin as [Hin He]. apply String.eqb_eq in He.
        destruct (Hrec i r Hin) as [_ Hk]. rewrite He in Hk. contradiction. }
      rewrite Hnone. simpl. constructor.
    + intros Ha Hin. apply in_app_or in Hin as [Hin|[->|[]]].
      * now apply Herr.
      * now apply Hne.
Qed.

Lemma fold_wireEvent_ok (names : list string) (m : machine) :
  wiring m -> recordersOnly m ->
  let m' := fold_left wireEvent names m in
  wiring m' /\ recordersOnly m' /\ options m' = options m.
Proof.
  revert m. induction names as [|n names IH]; intros m Hw Hr; simpl; auto.
  destruct (wireEvent_ok m n Hw Hr) as (Hw1 & Hr1 & Ho1).
  destruct (IH _ Hw1 Hr1) as (Hw2 & Hr2 & Ho2). cbv zeta in *.
  split; [exact Hw2 | split; [exact Hr2 | congruence]].
Qed.

Lemma recordersOnly_wellFormed (m : machine) :
  recordersOnly m -> allWellFormed m /\ noErrorListener m.
Proof.
  intros (Hrec & Htail & Herr). split.
  - intros i. split; [apply Htail|]. intros r Hr _. left. now apply (Hrec i).
  - intros Ha i.
    destruct (filter (forEvent "error") (regs i m)) as [|r l] eqn:F; auto.
    assert (Hin : In r (filter (forEvent "error") (regs i m)))
      by (rewrite F; now left).
    apply filter_In in Hin as [Hin He]. apply String.eqb_eq in He.
    destruct (Hrec i r Hin) as [_ Hk]. rewrite He in Hk.
    exfalso. now apply Herr.
Qed.

Lemma wireEndEvent_ok (m : machine) (eventName : string) :
  wiring m -> noErrorListener m ->
  let m' := wireEndEvent m eventName in
  wiring m' /\ noErrorListener m' /\ options m' = options m
  /\ (allWellFormed m -> allWellFormed m').
Proof.
  intros Hw Hn. unfold wireEndEvent. cbv zeta.
  destruct (negb (Options.abortOnError (options m))
            || negb (String.eqb eventName "error")) eqn:C; auto.
  change (on Two eventName Fn.endListener (on One eventName Fn.endListener m))
    with (register Two eventName Fn.endListener false
            (register One eventName Fn.endListener false m)).
  assert (Hne : Options.abortOnError (options m) = true -> eventName <> "error").
  { intros Ha. rewrite Ha in C. simpl in C.
    now apply negb_true_iff, String.eqb_neq in C. }
  split; [now do 2 apply wiring_register|].
  split; [|split; [reflexivity|]].
  - apply noErrorListener_register; [exact Hne|].
    now apply noErrorListener_register.
  - intros Hwf. do 2 (apply allWellFormed_register; [reflexivity|]). exact Hwf.
Qed.

Lemma fold_wireEndEvent_ok (names : list string) (m : machine) :
  wiring m -> noErrorListener m ->
  let m' := fold_left wireEndEvent names m in
  wiring m' /\ noErrorListener m' /\ options m' = options m
  /\ (allWellFormed m -> allWellFormed m').
Proof.
  revert m. induction names as [|n names IH]; intros m Hw Hn; simpl; auto.
  destruct (wireEndEvent_ok m n Hw Hn) as (Hw1 & Hn1 & Ho1 & Hf1).
  destruct (IH _ Hw1 Hn1) as (Hw2 & Hn2 & Ho2 & Hf2). cbv zeta in *.
  split; [exact Hw2 | split; [exact Hn2 | split; [congruence | auto]]].
Qed.

(** [stream.once('error', onStreamError)] on both streams. *)
Lemma wire_onStreamError_ok (m : machine) :
  wiring m -> noErrorListener m ->
  let m' :=
    if Options.abortOnError (options m) then
      once Two "error" Fn.onStreamError (once One "error" Fn.onStreamError m)
    else m in
  wiring m' /\ errorWired m' /\ options m' = options m
  /\ (allWellFormed m -> allWellFormed m').
Proof.
  intros Hw Hn. cbv zeta.
  destruct (Options.abortOnError (options m)) eqn:Ha.
  - change (once Two "error" Fn.onStreamError
              (once One "error" Fn.onStreamError m))
      with (register Two "error" Fn.onStreamError true
              (register One "error" Fn.onStreamError true m)).
    set (m' := register Two _ _ _ _).
    assert (Hregs : forall i, regs i m'
              = regs i m ++ [mkReg (Stream.nextId (stream_of i m)) "error"
                               Fn.onStreamError true])
      by (intros [|]; reflexivity).
    split; [now do 2 apply wiring_register|].
    split; [|split; [reflexivity|]].
    + intros _ i. unfold error_wired. rewrite Hregs, filter_app, (Hn Ha i).
      simpl. eexists. split; [reflexivity|]. split; reflexivity.
    + intros Hwf i. destruct (Hwf i) as [Htail Hkinds].
      change (listeners1 m') with (listeners1 m). rewrite Hregs. split.
      * intros n. rewrite filter_app. simpl.
        destruct (forEvent n _) eqn:E; [|rewrite app_nil_r; apply Htail].
        apply String.eqb_eq in E. simpl in E. subst n.
        rewrite (Hn Ha i). simpl. constructor.
      * intros r Hr Hg. apply in_app_or in Hr as [Hr|[<-|[]]]; auto.
  - split; [exact Hw|]. split; [|split; auto].
    intros Hf. congruence.
Qed.

Lemma wiring_sameControl (m m' : machine) :
  sameControl m m' -> wiring m -> wiring m'.
Proof.
  intros (a1 & a2 & a3 & a4 & a5 & a6 & a7 & a8 & a9)
         (Hd & Hp & Hi & Ht & Hk & Hids & Hl).
  unfold wiring. rewrite a2, a3, a4, a5, a6, a7, a8.
  repeat (split; [assumption|]). split; [|assumption].
  intros i. destruct (a9 i) as [R N]. unfold ids_ok, regs in *.
  rewrite R, N. apply Hids.
Qed.

Lemma errorWired_sameControl (m m' : machine) :
  sameControl m m' -> errorWired m -> errorWired m'.
Proof.
  intros (a1 & a2 & a3 & a4 & a5 & a6 & a7 & a8 & a9) H Ha i.
  destruct (a9 i) as [R N]. rewrite R. apply H. now rewrite <- a1.
Qed.

Lemma allWellFormed_sameControl (m m' : machine) :
  sameControl m m' -> allWellFormed m -> allWellFormed m'.
Proof.
  intros (a1 & a2 & a3 & a4 & a5 & a6 & a7 & a8 & a9) H i.
  destruct (a9 i) as [R N]. rewrite R, a4. apply H.
Qed.

Lemma wiring_Inv0 (m : machine) : wiring m -> errorWired m -> Inv0 m.
Proof.
  intros (Hd & Hp & Hi & Ht & Hk & Hids & Hl) He.
  constructor; auto; congruence.
Qed.

Lemma wiring_Inv1 (m : machine) : wiring m -> allWellFormed m -> Inv1 m.
Proof.
  intros (Hd & Hp & Hi & Ht & Hk & Hids & Hl) Hwf.
  constructor; auto; [congruence | now rewrite Hd].
Qed.

(** The four wiring steps of [streamCompare], started on a machine that
    has only recorders (or nothing) registered. *)
Lemma wired_Inv (m0 : machine) :
  wiring m0 -> recordersOnly m0 ->
  let o := options m0 in
  let m1 := fold_left wireEvent (Options.events o) m0 in
  let m2 := fold_left wireEndEvent (Options.endEvents o) m1 in
  let m3 :=
    if Options.abortOnError o then
      once Two "error" Fn.onStreamError (once One "error" Fn.onStreamError m2)
    else m2 in
  let m4 :=
    match Options.readPolicy o with
    | ReadPolicy.flowing =>
        let m := debug WillFlowing m3 in
        on Two "data" Fn.handleData (on One "data" Fn.handleData m)
    | ReadPolicy.least =>
        let m := debug WillLeast m3 in
        let m := once One "end" Fn.readNextOnEnd m in
        let m := once Two "end" Fn.readNextOnEnd m in
        set_nextTick true m
    | ReadPolicy.none => debug NotReading m3
    end in
  Inv0 m4 /\ options m4 = o
  /\ (Options.readPolicy o <> ReadPolicy.flowing -> Inv1 m4).
Proof.
  intros Hw0 Hr0 o m1 m2 m3 m4.
  destruct (fold_wireEvent_ok (Options.events o) m0 Hw0 Hr0) as (Hw1 & Hr1 & Ho1).
  fold m1 in Hw1, Hr1, Ho1.
  destruct (recordersOnly_wellFormed m1 Hr1) as [Hf1 Hn1].
  destruct (fold_wireEndEvent_ok (Options.endEvents o) m1 Hw1 Hn1)
    as (Hw2 & Hn2 & Ho2 & Hf2).
  fold m2 in Hw2, Hn2, Ho2, Hf2. specialize (Hf2 Hf1).
  assert (Ho2' : options m2 = o) by (unfold o; congruence).
  destruct (wire_onStreamError_ok m2 Hw2 Hn2) as (Hw3 & He3 & Ho3 & Hf3).
  rewrite Ho2' in Hw3, He3, Ho3, Hf3. fold m3 in Hw3, He3, Ho3, Hf3.
  specialize (Hf3 Hf2).
  assert (Ho3' : options m3 = o) by (unfold o in *; congruence).
  subst m4. destruct (Options.readPolicy o) eqn:Policy; cbv zeta.
  - (* flowing *)
    change (on Two "data" Fn.handleData
              (on One "data" Fn.handleData (debug WillFlowing m3)))
      with (register Two "data" Fn.handleData false
              (register One "data" Fn.handleData false (debug WillFlowing m3))).
    assert (Hs : sameControl m3 (debug WillFlowing m3)) by same_control.
    split; [|split; [exact Ho3' | congruence]].
    apply wiring_Inv0.
    + do 2 apply wiring_register. apply (wiring_sameControl _ _ Hs Hw3).
    + do 2 (apply errorWired_register; [discriminate|]).
      apply (errorWired_sameControl _ _ Hs He3).
  - (* least *)
    change (set_nextTick true
              (once Two "end" Fn.readNextOnEnd
                 (once One "end" Fn.readNextOnEnd (debug WillLeast m3))))
      with (set_nextTick true
              (register Two "end" Fn.readNextOnEnd true
                 (register One "end" Fn.readNextOnEnd true
                    (debug WillLeast m3)))).
    assert (Hs : sameControl m3 (debug WillLeast m3)) by same_control.
    set (m5 := register Two _ _ _ _).
    assert (Hs5 : sameControl m5 (set_nextTick true m5)) by same_control.
    assert (Hw5 : wiring m5).
    { subst m5. do 2 apply wiring_register.
      apply (wiring_sameControl _ _ Hs Hw3). }
    assert (He5 : errorWired m5).
    { subst m5. do 2 (apply errorWired_register; [discriminate|]).
      apply (errorWired_sameControl _ _ Hs He3). }
    assert (Hf5 : allWellFormed m5).
    { subst m5. do 2 (apply allWellFormed_register; [reflexivity|]).
      apply (allWellFormed_sameControl _ _ Hs Hf3). }
    split; [|split; [exact Ho3'|]].
    + apply wiring_Inv0.
      * apply (wiring_sameControl _ _ Hs5 Hw5).
      * apply (errorWired_sameControl _ _ Hs5 He5).
    + intros _. apply wiring_Inv1.
      * apply (wiring_sameControl _ _ Hs5 Hw5).
      * apply (allWellFormed_sameControl _ _ Hs5 Hf5).
  - (* none *)
    assert (Hs : sameControl m3 (debug NotReading m3)) by same_control.
    split; [|split; [exact Ho3'|]].
    + apply wiring_Inv0.
      * apply (wiring_sameControl _ _ Hs Hw3).
      * apply (errorWired_sameControl _ _ Hs He3).
    + intros _. apply wiring_Inv1.
      * apply (wiring_sameControl _ _ Hs Hw3).
      * apply (allWellFormed_sameControl _ _ Hs Hf3).
Qed.

Lemma streamCompare_Inv (s1 s2 : Stream.t)
    (o : option (compareFn + StreamCompareOptions.t)) (m : machine) :
  Stream.registrations s1 = [] ->
  Stream.registrations s2 = [] ->
  streamCompare s1 s2 o = Normal m ->
  Inv0 m /\ (Options.readPolicy (options m) <> ReadPolicy.flowing -> Inv1 m).
Proof.
  intros R1 R2. unfold streamCompare. cbv zeta.
  destruct (_ && (_ || _)); [discriminate|].
  match goal with
  | |- match ?c with Some _ => _ | None => _ end = _ -> _ =>
      destruct c as [cmp|]; [|discriminate]
  end.
  intros Heq. injection Heq as <-.
  match goal with
  | |- context [fold_left wireEvent _ ?m0] =>
      pose proof (wired_Inv m0) as H; set (start := m0) in *
  end.
  assert (Hregs : forall i, regs i start = []) by (intros [|]; assumption).
  cbv zeta in H. destruct H as (H0 & Ho & H1).
  - unfold wiring. repeat (split; [reflexivity|]). split; [|reflexivity].
    intros i. specialize (Hregs i). unfold regs in Hregs.
    split; rewrite Hregs; simpl; [constructor | contradiction].
  - unfold recordersOnly. split; [|split].
    + intros i r Hin. rewrite Hregs in Hin. contradiction.
    + intros i n. rewrite Hregs. exact I.
    + auto.
  - split; [exact H0|]. intros Hp. apply H1. intros Hq. apply Hp.
    etransitivity; [|exact Hq]. f_equal. exact Ho.
Qed.

(** Every reachable machine satisfies the invariant, and the stronger
    one unless its readPolicy is ['flowing']; the options never change. *)
Lemma reachable_Inv (m : machine) :
  reachable m ->
  Inv0 m /\ (Options.readPolicy (options m) <> ReadPolicy.flowing -> Inv1 m).
Proof.
  induction 1 as [s1 s2 o m R1 R2 Hstart | a m Hreach [H0 H1]].
  - exact (streamCompare_Inv s1 s2 o m R1 R2 Hstart).
  - destruct (step_ok a m H0) as [Hm Hi]. split; [apply Hm|].
    rewrite (moved_options _ _ Hm). auto.
Qed.

(** ** The controller: [end], [checkpoint], abort on error *)

Lemma done_fields (m : machine) :
  promise (done m) = promise m
  /\ state1 (done m) = state1 m
  /\ state2 (done m) = state2 m
  /\ ended (done m) = ended m
  /\ isDone (done m) = true
  /\ postEndImmediate (done m) = false
  /\ postEndTimeout (done m) = false
  /\ log (done m) = log m ++ [UnregisteringListeners; ComparisonFinished].
Proof. rewrite done_eq. repeat split; reflexivity. Qed.

Lemma reachable_unsettled (m : machine) :
  reachable m -> promise m = Pending -> isDone m = false.
Proof.
  intros Hr Hp. destruct (reachable_Inv m Hr) as [H0 _].
  destruct (isDone m) eqn:Hd; auto.
  exfalso. now apply (inv_settled _ H0).
Qed.

Lemma reachable_settled (m : machine) :
  reachable m -> settled m -> isDone m = true.
Proof.
  intros Hr Hs. destruct (reachable_Inv m Hr) as [H0 _].
  destruct (isDone m) eqn:Hd; auto.
  exfalso. now apply Hs, (inv_pending _ H0).
Qed.

Lemma compares_app (l l' : list dbg) :
  compares (l ++ l') = compares l + compares l'.
Proof. unfold compares. now rewrite filter_app, length_app. Qed.

(** C4. On an unsettled comparison [end()] runs [options.compare] on the
    two states and settles in every case: a returned value that is
    neither [null] nor [undefined] fulfills with that value, a thrown
    value rejects with it, a returned [null] or [undefined] fulfills
    with [undefined]; afterwards [isDone] holds. *)
Theorem end_always_settles (m : machine) :
  reachable m -> promise m = Pending ->
  let out := Options.compare (options m) (state1 m, state2 m) in
  promise (end_ m)
  = match snd out with
    | Normal result =>
        if inconclusive result then Fulfilled VUndefined else Fulfilled result
    | Throw err => Rejected err
    end
  /\ settled (end_ m)
  /\ isDone (end_ m) = true
  /\ state1 (end_ m) = fst (fst out)
  /\ state2 (end_ m) = snd (fst out)
  /\ compares (log (end_ m)) = S (compares (log m)).
Proof.
  intros Hr Hp out. pose proof (reachable_unsettled m Hr Hp) as Hd.
  unfold end_. rewrite Hd, doCompare_eq. cbv zeta. fold out.
  assert (Settles :
    forall s m1 tail,
      s <> Pending -> promise m1 = Pending ->
      state1 m1 = fst (fst out) -> state2 m1 = snd (fst out) ->
      log m1 = log m ++ PerformingCompare CompareType.last :: tail ->
      compares tail = 0 ->
      promise (done (settleWith s m1)) = s
      /\ settled (done (settleWith s m1))
      /\ isDone (done (settleWith s m1)) = true
      /\ state1 (done (settleWith s m1)) = fst (fst out)
      /\ state2 (done (settleWith s m1)) = snd (fst out)
      /\ compares (log (done (settleWith s m1))) = S (compares (log m))).
  { intros s m1 tail Hs Hp1 S1 S2 L Ht.
    destruct (done_fields (settleWith s m1)) as (Fp & F1 & F2 & _ & Fd & _ & _ & Fl).
    rewrite Fp, F1, F2, Fd, Fl, settleWith_eq. cbn [promise state1 state2 log set_promise].
    rewrite (settleWith_pending s m1 Hp1), S1, S2, L.
    repeat split; auto.
    - unfold settled. now rewrite (proj1 (done_fields _)).
    - rewrite !compares_app.
      change (compares (PerformingCompare CompareType.last :: tail))
        with (S (compares tail)).
      rewrite Ht. cbn. lia. }
  destruct (snd out) as [result|err].
  - destruct (inconclusive result); cbn [fst].
    + apply (Settles (Fulfilled VUndefined) _ []); auto; discriminate.
    + apply (Settles (Fulfilled result) _ [ProducedResult result]); auto;
        try discriminate.
      cbn [log debug set_log set_state1 set_state2].
      now rewrite <- app_assoc.
  - cbn [fst].
    apply (Settles (Rejected err) _ [ProducedError err]); auto; try discriminate.
    cbn [log debug set_log set_state1 set_state2]. now rewrite <- app_assoc.
Qed.

(** A comparison set up with only a [compare] function and ended by the
    caller at once: fulfilled with [undefined]. *)
Lemma end_always_settles_witness :
  exists m,
    streamCompare idleStream idleStream compareOnly = Normal m
    /\ promise (end_ m) = Fulfilled VUndefined
    /\ isDone (end_ m) = true.
Proof.
  eexists. split; [reflexivity|].
  match goal with
  | |- promise (end_ ?m) = _ /\ _ =>
      pose proof (end_always_settles m
                    (reachable_start idleStream idleStream compareOnly m
                       eq_refl eq_refl eq_refl) eq_refl) as H
  end.
  cbv zeta in H. destruct H as (H1 & _ & H3 & _). split; [exact H1 | exact H3].
Defined.

Lemma run_cons (a : action) (acts : list action) (m : machine) :
  run (a :: acts) m = run acts (step a m).
Proof. reflexivity. Qed.

Lemma reachable_run (acts : list action) (m : machine) :
  reachable m -> reachable (run acts m).
Proof.
  revert m. induction acts as [|a acts IH]; intros m H; simpl; auto.
  apply IH. now constructor.
Qed.

Lemma control_calls_ignored (calls : list action) (m : machine) :
  isDone m = true ->
  Forall isControlCall calls ->
  run calls m = set_log (log m ++ map ignoring calls) m.
Proof.
  revert m. induction calls as [|a calls IH]; intros m Hd Hc.
  - simpl. now rewrite app_nil_r.
  - inversion Hc as [|? ? Ha Hc']; subst. rewrite run_cons.
    assert (Hstep : step a m = debug (ignoring a) m).
    { destruct Ha as [-> | ->]; simpl; unfold checkpoint, end_;
        now rewrite Hd. }
    rewrite Hstep, IH; auto.
    unfold debug. cbn [log set_log]. now rewrite <- app_assoc.
Qed.

(** C5. Once the comparison has settled, any number of [checkpoint()]
    and [end()] calls changes nothing but the debug log, which gets one
    "ignoring" line per call: no comparison function is called, neither
    state changes, the promise, the streams' listeners and the timers
    stay as they are. *)
Theorem settled_calls_are_noops (m : machine) (calls : list action) :
  reachable m -> settled m ->
  Forall isControlCall calls ->
  run calls m = set_log (log m ++ map ignoring calls) m
  /\ state1 (run calls m) = state1 m
  /\ state2 (run calls m) = state2 m
  /\ promise (run calls m) = promise m
  /\ stream1 (run calls m) = stream1 m
  /\ stream2 (run calls m) = stream2 m
  /\ compares (log (run calls m)) = compares (log m)
  /\ teardowns (log (run calls m)) = teardowns (log m).
Proof.
  intros Hr Hs Hc. pose proof (reachable_settled m Hr Hs) as Hd.
  rewrite (control_calls_ignored calls m Hd Hc). cbn [log set_log].
  repeat split; auto.
  - rewrite compares_app.
    assert (compares (map ignoring calls) = 0).
    { clear. induction calls as [|a calls IH]; auto. destruct a; exact IH. }
    lia.
  - rewrite teardowns_app.
    assert (teardowns (map ignoring calls) = 0).
    { clear. induction calls as [|a calls IH]; auto. destruct a; exact IH. }
    lia.
Qed.

(** After [end()], a [checkpoint()] and another [end()] are ignored. *)
Lemma settled_calls_are_noops_witness :
  exists m,
    streamCompare idleStream idleStream compareOnly = Normal m
    /\ run [ACheckpoint; AEnd] (end_ m)
       = set_log (log (end_ m) ++ [IgnoringCheckpoint; IgnoringEnd]) (end_ m).
Proof.
  eexists. split; [reflexivity|].
  match goal with
  | |- run _ (end_ ?m) = _ =>
      refine (proj1 (settled_calls_are_noops (end_ m) [ACheckpoint; AEnd]
                       (reachable_step AEnd m
                          (reachable_start idleStream idleStream compareOnly
                             m eq_refl eq_refl eq_refl))
                       _ _))
  end.
  - unfold settled. vm_compute. discriminate.
  - constructor; [left; reflexivity|].
    constructor; [right; reflexivity | constructor].
Defined.

(** C3. With abortOnError, an ['error'] event emitted by either stream
    while the comparison is unsettled rejects the promise with the
    event's first argument and settles at once. Normal end tracking is
    bypassed and the event is not recorded: neither state changes (so
    the stream's [events] and [ended] stay as they were), the [ended]
    count is not advanced, no timer is started and no comparison
    function runs; the log shows [onStreamError] and [done] only. *)
Theorem abortOnError_rejects_at_once (m : machine) (i : side)
    (args : list jsval) :
  reachable m ->
  Options.abortOnError (options m) = true ->
  promise m = Pending ->
  let err := hd VUndefined args in
  let m' := emit i "error" args m in
  promise m' = Rejected err
  /\ isDone m' = true
  /\ state1 m' = state1 m
  /\ state2 m' = state2 m
  /\ ended m' = ended m
  /\ postEndImmediate m' = false
  /\ postEndTimeout m' = false
  /\ log m'
     = log m ++ [EmittedError i err; UnregisteringListeners; ComparisonFinished].
Proof.
  intros Hr Ha Hp err m'.
  pose proof (reachable_unsettled m Hr Hp) as Hd.
  destruct (reachable_Inv m Hr) as [H0 _].
  destruct (inv_error _ H0 Ha Hd i) as (r & Hsnap & Hfn & Honce).
  subst m'. unfold emit. cbv zeta.
  change (filter _ (Stream.registrations (stream_of i m)))
    with (filter (forEvent "error") (regs i m)).
  rewrite Hsnap. cbn [fold_left]. unfold invoke. rewrite Hfn, Honce.
  cbn [call]. fold err. rewrite onStreamError_eq.
  set (m1 := debug (EmittedError i err) (removeRegistration i (regId r) m)).
  assert (Hm1 : promise m1 = Pending /\ state1 m1 = state1 m
                /\ state2 m1 = state2 m /\ ended m1 = ended m
                /\ log m1 = log m ++ [EmittedError i err])
    by (subst m1; destruct i; repeat split; assumption || reflexivity).
  destruct Hm1 as (P1 & S1 & S2 & E1 & L1).
  destruct (done_fields (settleWith (Rejected err) m1))
    as (Fp & F1 & F2 & Fe & Fd & Fi & Ft & Fl).
  rewrite Fp, F1, F2, Fe, Fd, Fi, Ft, Fl, settleWith_eq.
  cbn [promise state1 state2 ended log set_promise].
  rewrite (settleWith_pending _ m1 P1), S1, S2, E1, L1, <- app_assoc.
  repeat split; reflexivity.
Qed.

(** An abortOnError comparison whose second stream emits ['error'] with
    the argument ["E"] before anything else happened. *)
Lemma abortOnError_rejects_at_once_witness :
  exists m,
    streamCompare idleStream idleStream (Some (inr abortOptions)) = Normal m
    /\ promise (emit Two "error" [VStr "E"] m) = Rejected (VStr "E")
    /\ isDone (emit Two "error" [VStr "E"] m) = true
    /\ state2 (emit Two "error" [VStr "E"] m) = state2 m.
Proof.
  eexists. split; [reflexivity|].
  match goal with
  | |- promise (emit _ _ _ ?m) = _ /\ _ =>
      pose proof (abortOnError_rejects_at_once m Two [VStr "E"]
                    (reachable_start idleStream idleStream
                       (Some (inr abortOptions)) m eq_refl eq_refl eq_refl)
                    eq_refl eq_refl) as H
  end.
  cbv zeta in H. destruct H as (H1 & H2 & _ & H4 & _).
  split; [exact H1 | split; [exact H2 | exact H4]].
Defined.

(** ** What counts as a verdict *)

Lemma inconclusive_false (result : jsval) :
  inconclusive result = false <-> result <> VNull /\ result <> VUndefined.
Proof.
  destruct result; simpl; split; try (intros [H1 H2]); try intros H;
    try split; try discriminate; try congruence; auto.
Qed.

(** C9. A value returned by a comparison function is a verdict exactly
    when it is neither [null] nor [undefined]; [false], [0] and [""] are
    verdicts. In [doCompare] on an unsettled comparison a verdict
    fulfills the promise with it and tears down; [null] and [undefined]
    leave the comparison running (or, in the last compare, fulfill with
    [undefined]). In [incrementalProp] with evidence on both sides and a
    positive usable length, the value that the one call of the
    comparison function returns is the value the pass returns; when it
    is [null] or [undefined] both sequences are trimmed, and when it is
    a verdict neither state changes. *)
Theorem verdict_iff_not_nullish :
  (forall result,
      inconclusive result = false <-> result <> VNull /\ result <> VUndefined)
  /\ inconclusive (VBool false) = false
  /\ inconclusive (VNum 0) = false
  /\ inconclusive (VStr "") = false
  /\ (forall (f : compareFn) (type : CompareType.t) (m : machine) result,
        promise m = Pending ->
        snd (f (state1 m, state2 m)) = Normal result ->
        let r := doCompare f type m in
        if inconclusive result then
          match type with
          | CompareType.last =>
              promise (fst r) = Fulfilled VUndefined /\ snd r = true
          | _ =>
              promise (fst r) = Pending /\ snd r = false
              /\ isDone (fst r) = isDone m
          end
        else
          promise (fst r) = Fulfilled result /\ snd r = true
          /\ isDone (fst r) = true)
  /\ (forall V (p : PropName V) (state1 state2 : StreamState.t),
        let A := arrayLike_of p in
        let n := Nat.min (@lengthOr0 V A (getProp p state1))
                         (@lengthOr0 V A (getProp p state2)) in
        @hasEvidence V A (getProp p state1) state1 = true ->
        @hasEvidence V A (getProp p state2) state2 = true ->
        0 < n ->
        exists a1 a2 : V,
          forall (compare : V -> V -> completion jsval) result,
            compare a1 a2 = Normal result ->
            let pass := @incrementalProp V A p compare (state1, state2) in
            snd pass = Normal result
            /\ if inconclusive result then
                 @alength V A (getProp p (fst (fst pass))) + n
                 = @alength V A (getProp p state1)
                 /\ @alength V A (getProp p (snd (fst pass))) + n
                    = @alength V A (getProp p state2)
               else fst pass = (state1, state2)).
Proof.
  split; [exact inconclusive_false|].
  do 3 (split; [reflexivity|]). split.
  - intros f type m result Hp Hf r. subst r. rewrite doCompare_eq. cbv zeta.
    rewrite Hf. destruct (inconclusive result).
    + destruct type; cbn [fst snd]; try (repeat split; assumption).
      split; [|reflexivity].
      rewrite (proj1 (done_fields _)). unfold resolve.
      cbn [promise set_state1 set_state2 debug set_log]. now rewrite Hp.
    + cbn [fst snd]. split; [|split; [reflexivity | apply isDone_done]].
      rewrite (proj1 (done_fields _)). unfold resolve.
      cbn [promise set_state1 set_state2 debug set_log]. now rewrite Hp.
  - intros V p s1 s2 A n E1 E2 Hn.
    destruct (incrementalProp_call p s1 s2 E1 E2) as (a1 & a2 & Hcall).
    exists a1, a2. intros compare result R pass.
    specialize (Hcall compare). fold A pass in Hcall. rewrite R in Hcall.
    split; [exact Hcall|].
    assert (Hsplit : forall y : StreamState.t * StreamState.t * completion jsval,
               y = ((fst (fst y), snd (fst y)), snd y))
      by (intros [[? ?] ?]; reflexivity).
    destruct (incrementalProp_pass p compare s1 s2 (fst (fst pass))
                (snd (fst pass)) (snd pass) E1 E2 (Hsplit pass))
      as [_ Hpass].
    fold A n in Hpass. rewrite Hcall in Hpass.
    apply Nat.ltb_lt in Hn. rewrite Hn in Hpass. cbn [andb] in Hpass.
    destruct (inconclusive result).
    + destruct Hpass as (t1 & t2 & _ & _ & -> & -> & A1 & A2 & L1 & L2).
      rewrite !getProp_setProp. split; lia.
    + destruct Hpass as [H1 H2]. rewrite (surjective_pairing (fst pass)).
      now rewrite H1, H2.
Qed.

(** A comparison function that returns [false] settles a checkpoint. *)
Lemma verdict_iff_not_nullish_witness :
  promise (fst (doCompare (ret (VBool false)) CompareType.checkpoint
                  blankMachine))
  = Fulfilled (VBool false)
  /\ snd (doCompare (ret (VBool false)) CompareType.checkpoint blankMachine)
     = true
  /\ isDone (fst (doCompare (ret (VBool false)) CompareType.checkpoint
                    blankMachine))
     = true.
Proof.
  exact (proj1 (proj2 (proj2 (proj2 (proj2 verdict_iff_not_nullish))))
           (ret (VBool false)) CompareType.checkpoint blankMachine
           (VBool false) eq_refl eq_refl).
Defined.

(** ** Accumulation failures *)

(** C10. Outside objectMode, when [addData] throws on a payload, the
    error is a [TypeError], [addData] has left the state as it was, and
    [handleData] changes neither state, calls no comparison function,
    rejects the (pending) promise with that error and settles. *)
Theorem accumulation_failure_is_atomic (i : side) (data : jsval)
    (m : machine) (this' : StreamState.t) (err : jsval) :
  Options.objectMode (options m) = false ->
  addData (options m) data (state_of i m) = (this', Throw err) ->
  this' = state_of i m
  /\ (exists msg, err = VTypeError msg)
  /\ state1 (handleData i data m) = state1 m
  /\ state2 (handleData i data m) = state2 m
  /\ isDone (handleData i data m) = true
  /\ (promise m = Pending -> promise (handleData i data m) = Rejected err)
  /\ compares (log (handleData i data m)) = compares (log m).
Proof.
  intros Hmode Hadd.
  pose proof (addData_non_object (options m) data (state_of i m) Hmode) as H.
  rewrite Hadd in H. destruct H as (-> & Hmsg & _).
  split; [reflexivity|]. split; [exact Hmsg|].
  unfold handleData. cbv zeta.
  change (options (debug (ReadDataFrom i) m)) with (options m).
  change (state_of i (debug (ReadDataFrom i) m)) with (state_of i m).
  rewrite Hadd.
  change (done (reject err ?x)) with (done (settleWith (Rejected err) x)).
  set (m1 := debug (ErrorAddingData i err) _).
  assert (Hm1 : promise m1 = promise m /\ state1 m1 = state1 m
                /\ state2 m1 = state2 m
                /\ log m1 = (log m ++ [ReadDataFrom i])
                             ++ [ErrorAddingData i err])
    by (subst m1; destruct i; repeat split; reflexivity).
  destruct Hm1 as (P1 & S1 & S2 & L1).
  destruct (done_fields (settleWith (Rejected err) m1))
    as (Fp & F1 & F2 & _ & Fd & _ & _ & Fl).
  rewrite Fp, F1, F2, Fd, Fl, settleWith_eq.
  cbn [promise state1 state2 log set_promise].
  rewrite S1, S2, L1. repeat split.
  - intros Hp. apply settleWith_pending. now rewrite P1.
  - rewrite !compares_app. cbn. lia.
Qed.

(** A number read from stream 1 of a text comparison. *)
Lemma accumulation_failure_is_atomic_witness :
  state1 (handleData One (VNum 1) blankMachine) = StreamState.new
  /\ isDone (handleData One (VNum 1) blankMachine) = true
  /\ promise (handleData One (VNum 1) blankMachine)
     = Rejected (VTypeError
         "expected string or Buffer, got [object Number].  Need objectMode?").
Proof.
  destruct (accumulation_failure_is_atomic One (VNum 1) blankMachine _ _
              eq_refl eq_refl) as (_ & _ & H1 & _ & H3 & H4 & _).
  split; [exact H1 | split; [exact H3 | exact (H4 eq_refl)]].
Defined.

(** ** The read scheduler *)

Lemma done_readable (j : side) (m : machine) :
  Stream.readable (stream_of j (done m)) = Stream.readable (stream_of j m).
Proof. rewrite done_eq. destruct j; reflexivity. Qed.

Lemma settleWith_readable (j : side) (s : settlement) (m : machine) :
  Stream.readable (stream_of j (settleWith s m))
  = Stream.readable (stream_of j m).
Proof. rewrite settleWith_eq. destruct j; reflexivity. Qed.

Lemma doCompare_readable (j : side) (f : compareFn) (type : CompareType.t)
    (m : machine) :
  Stream.readable (stream_of j (fst (doCompare f type m)))
  = Stream.readable (stream_of j m).
Proof.
  rewrite doCompare_eq. cbv zeta.
  destruct (snd (f (state1 m, state2 m))) as [result|err].
  - destruct (inconclusive result); [destruct type|]; cbn [fst];
      try (destruct j; reflexivity).
    + change (resolve VUndefined ?x) with (settleWith (Fulfilled VUndefined) x).
      rewrite done_readable, settleWith_readable. destruct j; reflexivity.
    + change (resolve result ?x) with (settleWith (Fulfilled result) x).
      rewrite done_readable, settleWith_readable. destruct j; reflexivity.
  - cbn [fst]. change (reject err ?x) with (settleWith (Rejected err) x).
    rewrite done_readable, settleWith_readable. destruct j; reflexivity.
Qed.

Lemma handleData_readable (j i : side) (data : jsval) (m : machine) :
  Stream.readable (stream_of j (handleData i data m))
  = Stream.readable (stream_of j m).
Proof.
  unfold handleData. cbv zeta.
  destruct (addData _ data _) as [state [u|err]].
  - match goal with
    | |- context [Options.incremental ?o] => destruct (Options.incremental o)
    end.
    + rewrite doCompare_readable. destruct i, j; reflexivity.
    + destruct i, j; reflexivity.
  - change (reject err ?x) with (settleWith (Rejected err) x).
    rewrite done_readable, settleWith_readable. destruct i, j; reflexivity.
Qed.

Lemma handleData_chunks (i : side) (data : jsval) (m : machine) :
  chunks (handleData i data m) = chunks m.
Proof.
  unfold chunks.
  pose proof (handleData_readable One i data m) as H1.
  pose proof (handleData_readable Two i data m) as H2.
  cbn [stream_of] in H1, H2. now rewrite H1, H2.
Qed.

(** The loop of [readNext] needs no more iterations than there are
    chunks to read, plus one: more fuel changes nothing. *)
Lemma readNext_loop_fuel (fuel fuel' : nat) (m : machine) :
  chunks m < fuel -> chunks m < fuel' ->
  readNext_loop fuel m = readNext_loop fuel' m.
Proof.
  revert fuel' m. induction fuel as [|fuel IH]; intros fuel' m H H';
    [inversion H|].
  destruct fuel' as [|fuel']; [inversion H'|]. simpl.
  destruct (isDone m); auto. destruct (selectStream m) as [i|]; auto.
  unfold read. destruct (Stream.readable (stream_of i m)) as [|c rest] eqn:Q;
    auto.
  destruct (is_null c); auto.
  apply IH; rewrite handleData_chunks; unfold chunks in *;
    destruct i; cbn [stream_of] in Q;
    cbn [stream1 stream2 set_stream set_stream1 set_stream2
         Stream.readable Stream.set_readable];
    rewrite Q in *; simpl in *; lia.
Qed.

(** So [readNext], which gives the loop one iteration more than there
    are chunks, computes what the unbounded [while] loop computes. *)
Lemma readNext_enough_fuel (fuel : nat) (m : machine) :
  chunks m < fuel -> readNext_loop fuel m = readNext m.
Proof.
  intros H. unfold readNext. apply readNext_loop_fuel; [exact H | lia].
Qed.

Lemma selectStream_spec (m : machine) :
  let ended1 := StreamState.ended (state1 m) in
  let ended2 := StreamState.ended (state2 m) in
  let len1 := StreamState.totalDataLen (state1 m) in
  let len2 := StreamState.totalDataLen (state2 m) in
  (selectStream m = Some One
   <-> ended1 = false /\ (ended2 = true \/ len1 <= len2))
  /\ (selectStream m = Some Two
      <-> ended2 = false /\ (ended1 = true \/ len2 < len1))
  /\ (selectStream m = None <-> ended1 = true /\ ended2 = true).
Proof.
  intros ended1 ended2 len1 len2. unfold selectStream.
  fold ended1 ended2 len1 len2.
  destruct (Nat.leb_spec len1 len2) as [L|L];
    destruct ended1, ended2; cbn [negb andb orb];
    repeat split; try discriminate; try tauto; try lia;
    try (intros [H1 [H2|H2]]; try discriminate; try reflexivity; lia);
    try (intros [H1 H2]; discriminate).
Qed.

Lemma readNext_loop_step (m : machine) (fuel : nat) :
  isDone m = false ->
  match selectStream m with
  | None => readNext_loop (S fuel) m = debug NoFurtherReads m
  | Some i =>
      match Stream.readable (stream_of i m) with
      | [] =>
          readNext_loop (S fuel) m
          = once i "readable" Fn.readNext (debug (WaitingReadable i) m)
      | chunk :: rest =>
          let m1 := set_stream i (Stream.set_readable rest (stream_of i m)) m in
          readNext_loop (S fuel) m
          = if is_null chunk then
              once i "readable" Fn.readNext (debug (WaitingReadable i) m1)
            else readNext_loop fuel (handleData i chunk m1)
      end
  end.
Proof.
  intros Hd. simpl. rewrite Hd.
  destruct (selectStream m) as [i|]; [|reflexivity].
  unfold read. destruct (Stream.readable (stream_of i m)) as [|chunk rest];
    reflexivity.
Qed.

Lemma chunks_read (i : side) (m : machine) (chunk : jsval)
    (rest : list jsval) :
  Stream.readable (stream_of i m) = chunk :: rest ->
  S (chunks (set_stream i (Stream.set_readable rest (stream_of i m)) m))
  = chunks m.
Proof.
  unfold chunks. destruct i; cbn [stream_of]; intros E;
    cbn [set_stream set_stream1 set_stream2 stream1 stream2
         Stream.set_readable Stream.readable];
    rewrite E; simpl; lia.
Qed.

(** C6. [readNext] on a settled comparison does nothing. On an unsettled
    one it chooses stream 1 when stream 1 has not ended and either
    stream 2 has ended or stream 1's [totalDataLen] is the smaller or
    equal one; otherwise stream 2 when it has not ended; no stream when
    both have ended. It then reads from the chosen stream and from no
    other: when that stream has a chunk, the chunk is taken off the
    stream and handed to [handleData] for that side, and [readNext] goes
    on from there as a call of [readNext] on the resulting comparison
    would; when the stream has none, [readNext] waits for ['readable']
    on that stream and returns. When both have ended it returns without
    a read. *)
Theorem readNext_reads_least (m : machine) :
  let ended1 := StreamState.ended (state1 m) in
  let ended2 := StreamState.ended (state2 m) in
  let len1 := StreamState.totalDataLen (state1 m) in
  let len2 := StreamState.totalDataLen (state2 m) in
  (selectStream m = Some One
   <-> ended1 = false /\ (ended2 = true \/ len1 <= len2))
  /\ (selectStream m = Some Two
      <-> ended2 = false /\ (ended1 = true \/ len2 < len1))
  /\ (selectStream m = None <-> ended1 = true /\ ended2 = true)
  /\ (isDone m = true -> readNext m = m)
  /\ (isDone m = false -> ended1 = true -> ended2 = true ->
      readNext m = debug NoFurtherReads m
      /\ stream1 (readNext m) = stream1 m
      /\ stream2 (readNext m) = stream2 m)
  /\ (isDone m = false ->
      forall i : side,
        match i with
        | One => ended1 = false /\ (ended2 = true \/ len1 <= len2)
        | Two => ended2 = false /\ (ended1 = true \/ len2 < len1)
        end ->
        match Stream.readable (stream_of i m) with
        | [] =>
            readNext m
            = once i "readable" Fn.readNext (debug (WaitingReadable i) m)
        | chunk :: rest =>
            let m1 :=
              set_stream i (Stream.set_readable rest (stream_of i m)) m in
            readNext m
            = if is_null chunk then
                once i "readable" Fn.readNext (debug (WaitingReadable i) m1)
              else readNext (handleData i chunk m1)
        end).
Proof.
  intros ended1 ended2 len1 len2.
  destruct (selectStream_spec m) as (H1 & H2 & H3).
  fold ended1 ended2 len1 len2 in H1, H2, H3.
  repeat (split; [assumption|]).
  split; [|split].
  - intros Hd. unfold readNext. simpl. now rewrite Hd.
  - intros Hd E1 E2.
    pose proof (readNext_loop_step m (chunks m) Hd) as Hstep.
    rewrite (proj2 H3 (conj E1 E2)) in Hstep. fold (readNext m) in Hstep.
    split; [exact Hstep|]. rewrite Hstep. split; reflexivity.
  - intros Hd i Hi.
    assert (Hsel : selectStream m = Some i)
      by (destruct i; [apply H1 | apply H2]; exact Hi).
    pose proof (readNext_loop_step m (chunks m) Hd) as Hstep.
    rewrite Hsel in Hstep. fold (readNext m) in Hstep.
    destruct (Stream.readable (stream_of i m)) as [|chunk rest] eqn:Q;
      [exact Hstep|].
    cbv zeta in Hstep |- *. rewrite Hstep.
    destruct (is_null chunk); [reflexivity|].
    apply readNext_enough_fuel. rewrite handleData_chunks.
    rewrite <- (chunks_read i m chunk rest Q). apply Nat.lt_succ_diag_r.
Qed.

(** States at 3 and 5 units, a chunk "x" waiting on stream 1: [readNext]
    takes it off stream 1, hands it to [handleData] for side 1 and goes
    on from the comparison that results. *)
Lemma readNext_reads_least_witness :
  selectStream unevenMachine = Some One
  /\ readNext unevenMachine
     = readNext
         (handleData One (VStr "x")
            (set_stream One
               (Stream.set_readable [] (stream_of One unevenMachine))
               unevenMachine)).
Proof.
  split.
  - apply (proj1 (readNext_reads_least unevenMachine)).
    split; [reflexivity|]. right. cbn. lia.
  - apply (proj2 (proj2 (proj2 (proj2 (proj2
             (readNext_reads_least unevenMachine))))) eq_refl One).
    split; [reflexivity|]. right. cbn. lia.
Defined.

(** ** After settlement *)












(** C8. In ['flowing'] mode [done] leaves the ['data'] listeners in
    place, and [handleData] does not test [isDone] as [endListener] and
    [readNext] do: a chunk that arrives after [end()] settled the
    comparison is still appended to the state, the incremental
    comparison is called again and [done] runs a second time. *)
Lemma flowing_data_after_settlement :
  exists m,
    streamCompare idleStream idleStream (Some (inr flowingOptions)) = Normal m
    /\ (let settledM := run [AEnd] m in
        let later := run [AEmit One "data" [VStr "late"]] settledM in
        reachable later
        /\ promise settledM = Fulfilled VUndefined
        /\ isDone settledM = true
        /\ teardowns (log settledM) = 1
        /\ StreamState.data (state1 settledM) = DUndef
        /\ StreamState.data (state1 later) = DStr "late"
        /\ StreamState.totalDataLen (state1 later) = 4
        /\ compares (log later) = S (compares (log settledM))
        /\ teardowns (log later) = 2).
Proof.
  eexists. split; [reflexivity|]. cbv zeta. split.
  - apply reachable_run, reachable_run.
    apply (reachable_start idleStream idleStream
             (Some (inr flowingOptions)) _ eq_refl eq_refl eq_refl).
  - repeat split; vm_compute; reflexivity.
Qed.

(** * Further properties of the code *)

(** ** What the incremental reducer compares and trims *)

Lemma str_take_length (n : nat) (s : string) :
  String.length (str_take n s) = Nat.min n (String.length s).
Proof.
  revert s; induction n as [|n IH]; intros [|c s]; simpl; auto.
Qed.

(** Cutting a truthy value to its first [n] elements succeeds, and the
    result has [n] elements when the value has at least that many. *)
Lemma slice_prefix_length {V} (p : PropName V) (n : nat) (v : V) :
  @truthy V (arrayLike_of p) v = true ->
  n <= @alength V (arrayLike_of p) v ->
  exists t, @slice V (arrayLike_of p) 0 (Some n) v = Normal t
            /\ @lengthOr0 V (arrayLike_of p) t = n.
Proof.
  destruct p; simpl.
  - destruct v as [|s|b|a]; simpl; intros Ht Hn; try discriminate.
    + eexists; split; [reflexivity|]. unfold lengthOr0; simpl.
      rewrite Nat.sub_0_r, str_take_length.
      destruct (Nat.min n (String.length s) =? 0) eqn:E; simpl;
        [apply Nat.eqb_eq in E|]; lia.
    + eexists; split; [reflexivity|]. unfold lengthOr0; simpl.
      rewrite Nat.sub_0_r, length_firstn. lia.
    + eexists; split; [reflexivity|]. unfold lengthOr0; simpl.
      rewrite Nat.sub_0_r, length_firstn. lia.
  - intros _ Hn. eexists; split; [reflexivity|]. unfold lengthOr0; simpl.
    rewrite Nat.sub_0_r, length_firstn. lia.
Qed.

(** X1. What [incrementalProp] compares. With evidence on both sides, the
    one call of [compare] gets two values that depend on the states only,
    not on [compare], and the completion of [incrementalProp] is that of
    this call. While the other stream has not ended, a value is passed cut
    to its first [n] elements, [n] being the smaller of the two lengths;
    once the other stream has ended, it is passed whole. *)
Theorem incrementalProp_compares_common_prefix {V} (p : PropName V)
    (state1 state2 : StreamState.t) :
  let A := arrayLike_of p in
  let values1 := getProp p state1 in
  let values2 := getProp p state2 in
  let n := Nat.min (@lengthOr0 V A values1) (@lengthOr0 V A values2) in
  @hasEvidence V A values1 state1 = true ->
  @hasEvidence V A values2 state2 = true ->
  exists a1 a2,
    (forall compare,
       snd (@incrementalProp V A p compare (state1, state2)) = compare a1 a2)
    /\ (if StreamState.ended state2 then a1 = values1
        else @lengthOr0 V A a1 = n
             /\ (a1 = values1 \/ @slice V A 0 (Some n) values1 = Normal a1))
    /\ (if StreamState.ended state1 then a2 = values2
        else @lengthOr0 V A a2 = n
             /\ (a2 = values2 \/ @slice V A 0 (Some n) values2 = Normal a2)).
Proof.
  intros A values1 values2 n E1 E2.
  pose proof (fun compare =>
                incrementalProp_completion p compare state1 state2 E1 E2) as Hc.
  cbv zeta in Hc. fold A values1 values2 n in Hc.
  assert (N : forall (v : V) (s : StreamState.t),
             @hasEvidence V A v s = true -> StreamState.ended s = false ->
             @truthy V A v = true /\ @lengthOr0 V A v = @alength V A v).
  { intros v s E He. unfold hasEvidence in E. rewrite He, orb_false_r in E.
    apply andb_prop in E as [T L]. unfold lengthOr0. now rewrite T. }
  assert (L : forall v : V,
             @truthy V A v = true -> @lengthOr0 V A v = @alength V A v).
  { intros v T. unfold lengthOr0. now rewrite T. }
  assert (F : forall v : V, @truthy V A v = false -> @lengthOr0 V A v = 0).
  { intros v T. unfold lengthOr0. now rewrite T. }
  destruct ((@truthy V A values1 && (n <? @alength V A values1))
            && negb (StreamState.ended state2)) eqn:B1.
  - apply andb_prop in B1 as [B1 En2]. apply andb_prop in B1 as [T1 Lt1].
    apply negb_true_iff in En2. apply Nat.ltb_lt in Lt1.
    destruct (N _ _ E2 En2) as (T2 & L2).
    destruct (slice_prefix_length p n values1 T1) as (t & St & Lt);
      [apply Nat.lt_le_incl, Lt1|]. fold A in St, Lt.
    exists t, values2. split; [|split].
    + intros compare. rewrite Hc, St. reflexivity.
    + rewrite En2. auto.
    + pose proof (L _ T1).
      destruct (StreamState.ended state1); [reflexivity|].
      split; [subst n; lia | now left].
  - destruct ((@truthy V A values2 && (n <? @alength V A values2))
              && negb (StreamState.ended state1)) eqn:B2.
    + apply andb_prop in B2 as [B2 En1]. apply andb_prop in B2 as [T2 Lt2].
      apply negb_true_iff in En1. apply Nat.ltb_lt in Lt2.
      destruct (N _ _ E1 En1) as (T1 & L1).
      destruct (slice_prefix_length p n values2 T2) as (t & St & Lt);
        [apply Nat.lt_le_incl, Lt2|]. fold A in St, Lt.
      exists values1, t. split; [|split].
      * intros compare. rewrite Hc, St. reflexivity.
      * pose proof (L _ T2).
        destruct (StreamState.ended state2); [reflexivity|].
        split; [subst n; lia | now left].
      * rewrite En1. auto.
    + exists values1, values2. split; [|split].
      * intros compare. now rewrite Hc.
      * destruct (StreamState.ended state2) eqn:En2; [reflexivity|].
        split; [|now left].
        rewrite andb_true_r in B1.
        destruct (@truthy V A values1) eqn:T1.
        -- apply Nat.ltb_ge in B1. pose proof (L _ T1). subst n; lia.
        -- pose proof (F _ T1). subst n; lia.
      * destruct (StreamState.ended state1) eqn:En1; [reflexivity|].
        split; [|now left].
        rewrite andb_true_r in B2.
        destruct (@truthy V A values2) eqn:T2.
        -- apply Nat.ltb_ge in B2. pose proof (L _ T2). subst n; lia.
        -- pose proof (F _ T2). subst n; lia.
Qed.

Lemma incrementalProp_compares_common_prefix_witness :
  exists a1 a2,
    (forall compare,
       snd (incrementalProp data_prop compare
              (sampleState "Hello", sampleState "He")) = compare a1 a2)
    /\ (lengthOr0 a1 = 2
        /\ (a1 = DStr "Hello" \/ slice 0 (Some 2) (DStr "Hello") = Normal a1))
    /\ (lengthOr0 a2 = 2
        /\ (a2 = DStr "He" \/ slice 0 (Some 2) (DStr "He") = Normal a2)).
Proof.
  apply (incrementalProp_compares_common_prefix data_prop
           (sampleState "Hello") (sampleState "He")); reflexivity.
Defined.

Lemma incrementalProp_no_evidence {V} (p : PropName V)
    (compare : V -> V -> completion jsval) (st : states) :
  @hasEvidence V (arrayLike_of p) (getProp p (fst st)) (fst st)
  && @hasEvidence V (arrayLike_of p) (getProp p (snd st)) (snd st) = false ->
  @incrementalProp V (arrayLike_of p) p compare st = (st, Normal VUndefined).
Proof.
  intros E. unfold incrementalProp, bind, gets, ret. cbn [fst snd].
  rewrite E. reflexivity.
Qed.

Lemma nothingYet_no_evidence (s : StreamState.t) :
  nothingYet s ->
  hasEvidence (StreamState.data s) s = false
  /\ hasEvidence (StreamState.events s) s = false.
Proof.
  intros (He & Hd & Hv). unfold hasEvidence. rewrite He, Hv, !orb_false_r.
  split; [|reflexivity].
  unfold lengthOr0 in Hd. destruct (truthy (StreamState.data s)); [|reflexivity].
  rewrite Hd. reflexivity.
Qed.

(** X2. [makeIncremental] waits for both streams: as long as one of the
    states has not ended and holds neither data nor events, the
    incremental function calls neither comparison, returns [undefined]
    and changes nothing. *)
Theorem makeIncremental_waits_for_both
    (compareData : option (dataVal -> dataVal -> completion jsval))
    (compareEvents : option (list event -> list event -> completion jsval))
    (state1 state2 : StreamState.t) :
  nothingYet state1 \/ nothingYet state2 ->
  makeIncremental compareData compareEvents (state1, state2)
  = ((state1, state2), Normal VUndefined).
Proof.
  intros H.
  assert (Ed : hasEvidence (StreamState.data state1) state1
               && hasEvidence (StreamState.data state2) state2 = false
               /\ hasEvidence (StreamState.events state1) state1
                  && hasEvidence (StreamState.events state2) state2 = false).
  { destruct H as [H|H]; apply nothingYet_no_evidence in H as [Hd Hv];
      rewrite Hd, Hv, ?andb_false_r; auto. }
  destruct Ed as [Ed Ev].
  unfold makeIncremental, bind.
  assert (D : match compareData with
              | Some f => incrementalProp data_prop f
              | None => ret VUndefined
              end (state1, state2) = ((state1, state2), Normal VUndefined)).
  { destruct compareData as [f|]; [|reflexivity].
    apply (incrementalProp_no_evidence data_prop f (state1, state2)), Ed. }
  rewrite D.
  assert (E : match compareEvents with
              | Some f => incrementalProp events_prop f
              | None => ret VUndefined
              end (state1, state2) = ((state1, state2), Normal VUndefined)).
  { destruct compareEvents as [f|]; [|reflexivity].
    apply (incrementalProp_no_evidence events_prop f (state1, state2)), Ev. }
  rewrite E. reflexivity.
Qed.

Lemma makeIncremental_waits_for_both_witness :
  makeIncremental (Some (throwing (VStr "data differ")))
    (Some (throwing (VStr "events differ")))
    (sampleState "Hello", StreamState.new)
  = ((sampleState "Hello", StreamState.new), Normal VUndefined).
Proof.
  apply makeIncremental_waits_for_both.
  right. repeat split; reflexivity.
Defined.

(** One pass of [incrementalProp] changes nothing, or removes the same
    positive number of elements of the named property from both states. *)
Lemma incrementalProp_trims {V} (p : PropName V)
    (compare : V -> V -> completion jsval) (st : states) :
  let A := arrayLike_of p in
  let st' := fst (@incrementalProp V A p compare st) in
  st' = st
  \/ exists k t1 t2,
       0 < k
       /\ @slice V A k None (getProp p (fst st)) = Normal t1
       /\ @slice V A k None (getProp p (snd st)) = Normal t2
       /\ st' = (setProp p t1 (fst st), setProp p t2 (snd st)).
Proof.
  intros A st'. destruct st as [s1 s2].
  destruct (@hasEvidence V A (getProp p s1) s1
            && @hasEvidence V A (getProp p s2) s2) eqn:E.
  - apply andb_prop in E as [E1 E2].
    destruct (@incrementalProp V A p compare (s1, s2)) as [[s1' s2'] out] eqn:Run.
    destruct (incrementalProp_pass p compare s1 s2 s1' s2' out E1 E2 Run)
      as [_ H].
    subst st'. cbn [fst snd] in *.
    destruct out as [result|e].
    + destruct ((0 <? _) && inconclusive result) eqn:Trim.
      * destruct H as (t1 & t2 & S1 & S2 & -> & -> & _).
        apply andb_prop in Trim as [Hn _]. apply Nat.ltb_lt in Hn.
        right. eexists _, t1, t2. repeat split; eauto.
      * destruct H as [-> ->]. now left.
    + destruct H as [-> ->]. now left.
  - left. subst st' A.
    now rewrite (incrementalProp_no_evidence p compare (s1, s2) E).
Qed.

Lemma trimmedBy_data (k : nat) (t : dataVal) (s : StreamState.t) :
  0 < k -> slice k None (StreamState.data s) = Normal t ->
  trimmedBy k 0 s (StreamState.set_data t s).
Proof.
  intros Hk S. unfold trimmedBy. cbn.
  destruct k; [inversion Hk|]. cbn. auto.
Qed.

Lemma trimmedBy_events (kd k : nat) (s s' : StreamState.t) :
  trimmedBy kd 0 s s' ->
  trimmedBy kd k s
    (StreamState.set_events (skipn k (StreamState.events s')) s').
Proof.
  intros (He & Ht & Hv & Hd). unfold trimmedBy. cbn.
  rewrite Hv. cbn. auto.
Qed.

(** X3. Whatever the two comparisons return or throw, the function built
    by [makeIncremental] only trims: it removes the same number of leading
    elements from both [data] values and the same number of leading
    entries from both [events] lists, and leaves [ended] and
    [totalDataLen] alone. *)
Theorem makeIncremental_only_trims
    (compareData : option (dataVal -> dataVal -> completion jsval))
    (compareEvents : option (list event -> list event -> completion jsval))
    (st : states) :
  let st' := fst (makeIncremental compareData compareEvents st) in
  exists kd ke,
    trimmedBy kd ke (fst st) (fst st') /\ trimmedBy kd ke (snd st) (snd st').
Proof.
  intros st'.
  set (dataPass := match compareData with
                   | Some f => incrementalProp data_prop f
                   | None => ret VUndefined
                   end).
  set (eventsPass := match compareEvents with
                     | Some f => incrementalProp events_prop f
                     | None => ret VUndefined
                     end).
  assert (D : exists kd, trimmedBy kd 0 (fst st) (fst (fst (dataPass st)))
                         /\ trimmedBy kd 0 (snd st) (snd (fst (dataPass st)))).
  { subst dataPass. destruct compareData as [f|].
    - destruct (incrementalProp_trims data_prop f st)
        as [H | (k & t1 & t2 & Hk & S1 & S2 & H)]; cbv zeta in H; cbn [arrayLike_of] in *; rewrite H.
      + exists 0. split; repeat split; reflexivity.
      + exists k. split; apply trimmedBy_data; assumption.
    - exists 0. split; repeat split; reflexivity. }
  destruct D as (kd & D1 & D2).
  assert (E : forall st1 : states,
             exists ke,
               fst (eventsPass st1)
               = (StreamState.set_events
                    (skipn ke (StreamState.events (fst st1))) (fst st1),
                  StreamState.set_events
                    (skipn ke (StreamState.events (snd st1))) (snd st1))).
  { intros st1. subst eventsPass. destruct compareEvents as [f|].
    - destruct (incrementalProp_trims events_prop f st1)
        as [H | (k & t1 & t2 & Hk & S1 & S2 & H)]; cbv zeta in H; cbn [arrayLike_of] in *; rewrite H.
      + exists 0. destruct st1 as [[] []]; reflexivity.
      + exists k. cbn in S1, S2. inversion S1; inversion S2. reflexivity.
    - exists 0. destruct st1 as [[] []]; reflexivity. }
  subst st'. unfold makeIncremental, bind. fold dataPass eventsPass.
  destruct (dataPass st) as [st1 [r|e]]; cbn [fst snd] in *.
  - destruct (E st1) as (ke & Ev).
    assert (R : fst (let (s', c) := eventsPass st1 in
                     match c with
                     | Normal a =>
                         ret (if negb (is_null r) && negb (is_undefined r)
                              then r else a) s'
                     | Throw e => (s', Throw e)
                     end) = fst (eventsPass st1)).
    { destruct (eventsPass st1) as [st2 [r'|e']]; reflexivity. }
    rewrite R, Ev. exists kd, ke. cbn [fst snd].
    split; apply trimmedBy_events; assumption.
  - exists kd, 0. split; assumption.
Qed.

Lemma trimmedBy_example :
  exists kd ke,
    trimmedBy kd ke (sampleState "Hello")
      (fst (fst (makeIncremental (Some (returning VUndefined))
                   (Some (returning VNull))
                   (sampleState "Hello", sampleState "He"))))
    /\ kd = 2 /\ ke = 1.
Proof.
  exists 2, 1. repeat split; reflexivity.
Qed.

(** ** Accounting in [addData] *)

Lemma string_length_app (s t : string) :
  String.length (s ++ t) = String.length s + String.length t.
Proof. induction s as [|c s IH]; simpl; auto. Qed.

Lemma string_app_assoc (s t u : string) :
  ((s ++ t) ++ u)%string = (s ++ (t ++ u))%string.
Proof. induction s as [|c s IH]; simpl; [reflexivity | now rewrite IH]. Qed.

(** X4. [addData] counts what it keeps: in both modes, for any payload,
    and whether it returns or throws, [totalDataLen] grows by exactly as
    much as the length of [data] does; [ended] and [events] are not
    touched. *)
Theorem addData_accounts (options : Options.t) (data : jsval)
    (this : StreamState.t) :
  let this' := fst (addData options data this) in
  StreamState.totalDataLen this' + lengthOr0 (StreamState.data this)
  = StreamState.totalDataLen this + lengthOr0 (StreamState.data this')
  /\ StreamState.ended this' = StreamState.ended this
  /\ StreamState.events this' = StreamState.events this.
Proof.
  destruct this as [e ev d t].
  unfold addData, addTotalDataLen, bind, gets, modify, ret, throw, lengthOr0.
  cbn [fst snd StreamState.data].
  destruct (Options.objectMode options);
    [| destruct data as [| |?|?|s1|b1|?|?|?|?]];
    destruct d as [|s0|b0|a0]; cbn -[Nat.ltb Nat.eqb];
    repeat match goal with
      | |- context [?a =? 0] => destruct (a =? 0) eqn:?; cbn -[Nat.ltb Nat.eqb]
      | |- context [0 <? ?a] => destruct (0 <? a) eqn:?; cbn -[Nat.ltb Nat.eqb]
      end;
    rewrite ?string_length_app, ?length_app; cbn -[Nat.ltb Nat.eqb];
    repeat match goal with
      | H : (_ =? _) = true |- _ => apply Nat.eqb_eq in H
      | H : (_ =? _) = false |- _ => apply Nat.eqb_neq in H
      | H : (_ <? _) = true |- _ => apply Nat.ltb_lt in H
      | H : (_ <? _) = false |- _ => apply Nat.ltb_ge in H
      | H : context [String.length (_ ++ _)] |- _ =>
          rewrite string_length_app in H
      end;
    repeat split; auto; try lia.
Qed.

(** X5. Outside objectMode the accumulated state does not depend on how
    the input was chunked: adding [d1] and then [d2] leaves the state that
    adding [d1 ++ d2] at once leaves, for strings and for Buffers (when
    the state holds data of the other type, both ways are refused and
    leave the state as it was). *)
Theorem addData_chunking_is_invisible (options : Options.t)
    (this : StreamState.t) :
  Options.objectMode options = false ->
  (forall d1 d2 : string,
      fst (addData options (VStr d2) (fst (addData options (VStr d1) this)))
      = fst (addData options (VStr (d1 ++ d2)) this))
  /\ (forall d1 d2 : list byte,
         fst (addData options (VBuf d2) (fst (addData options (VBuf d1) this)))
         = fst (addData options (VBuf (d1 ++ d2)) this)).
Proof.
  intros Hm. destruct this as [e ev d t].
  unfold addData, addTotalDataLen, bind, gets, modify, ret, throw.
  rewrite Hm. cbn [fst snd StreamState.data].
  split; intros d1 d2; destruct d as [|s0|b0|a0]; cbn -[Nat.ltb Nat.eqb];
    try reflexivity;
    rewrite ?string_length_app, ?length_app;
    repeat match goal with
      | |- context [?a =? 0] => destruct (a =? 0) eqn:?; cbn -[Nat.ltb Nat.eqb]
      | |- context [0 <? ?a] => destruct (0 <? a) eqn:?; cbn -[Nat.ltb Nat.eqb]
      end;
    rewrite ?string_length_app, ?length_app;
    repeat match goal with
      | H : (_ =? _) = true |- _ => apply Nat.eqb_eq in H
      | H : (_ =? _) = false |- _ => apply Nat.eqb_neq in H
      | H : (_ <? _) = true |- _ => apply Nat.ltb_lt in H
      | H : (_ <? _) = false |- _ => apply Nat.ltb_ge in H
      | H : context [String.length (_ ++ _)] |- _ =>
          rewrite string_length_app in H
      | H : context [List.length (_ ++ _)] |- _ =>
          rewrite length_app in H
      end;
    try lia;
    repeat match goal with
      | H : _ <= 0 |- _ => apply Nat.le_0_r in H
      | H : String.length ?s = 0 |- _ => apply string_length_0 in H; subst s
      | H : List.length ?l = 0 |- _ => apply length_zero_iff_nil in H; subst l
      end;
    cbn -[Nat.ltb Nat.eqb];
    rewrite ?string_app_empty_r, ?app_nil_r, ?string_app_assoc, <- ?app_assoc,
      ?Nat.add_0_r, ?Nat.add_assoc;
    try reflexivity.
Qed.

Lemma addData_chunking_is_invisible_witness :
  fst (addData textOptions (VStr "llo")
         (fst (addData textOptions (VStr "He") StreamState.new)))
  = fst (addData textOptions (VStr ("He" ++ "llo")) StreamState.new).
Proof.
  apply (addData_chunking_is_invisible textOptions StreamState.new).
  reflexivity.
Defined.

(** ** What the engine keeps in every mode *)

Lemma tracks_refl (m : machine) : tracks m m.
Proof. constructor; auto. Qed.

Lemma tracks_trans (m1 m2 m3 : machine) :
  tracks m1 m2 -> tracks m2 m3 -> tracks m1 m3.
Proof.
  intros [o1 k1 p1 d1 r1 t1 f1 c1] [o2 k2 p2 d2 r2 t2 f2 c2].
  rewrite o1 in f2, c2. constructor; auto.
  - congruence.
  - congruence.
  - intros Hp. rewrite p2; auto. rewrite p1; auto.
  - intros Hd i r Hr Hl. apply r2; auto. apply r1; auto.
    destruct (isDone m2) eqn:E; auto. rewrite d2 in Hd; auto.
Qed.

Lemma counted_same (m m' : machine) :
  ended m' = ended m -> sameFlags m m' -> counted m -> counted m'.
Proof.
  unfold counted, endedCount. intros He Hf Hc.
  pose proof (Hf One) as H1. pose proof (Hf Two) as H2.
  cbn [state_of] in H1, H2. rewrite He, H1, H2. exact Hc.
Qed.

Lemma tracks_same (m m' : machine) :
  sameControl m m' -> ended m' = ended m ->
  (respectful (options m) -> sameFlags m m') -> tracks m m'.
Proof.
  intros (a1 & a2 & a3 & a4 & a5 & a6 & a7 & a8 & a9) He Hf.
  constructor; auto.
  - congruence.
  - intros _ i r Hr _. destruct (a9 i) as [R _]. now rewrite R.
  - unfold finalCompareDue, scheduled. now rewrite a1, a3, a6, a7, He.
  - intros Hr j. now rewrite (Hf Hr).
  - intros Hr. apply counted_same; auto.
Qed.

Lemma sameFlags_refl (m : machine) : sameFlags m m.
Proof. intros j. reflexivity. Qed.

Lemma sameFlags_trans (m1 m2 m3 : machine) :
  sameFlags m1 m2 -> sameFlags m2 m3 -> sameFlags m1 m3.
Proof. intros H1 H2 j. now rewrite H2, H1. Qed.

Lemma counted_done (x : machine) : counted x -> counted (done x).
Proof. unfold counted, endedCount. now rewrite done_eq. Qed.

Lemma settleWith_stable (s : settlement) (m : machine) :
  promise m <> Pending -> promise (settleWith s m) = promise m.
Proof.
  intros H. destruct s as [|v|e]; simpl; auto; unfold resolve, reject;
    destruct (promise m) eqn:P; congruence.
Qed.

Lemma settleWith_fields (s : settlement) (m : machine) :
  options (settleWith s m) = options m
  /\ listeners1 (settleWith s m) = listeners1 m
  /\ ended (settleWith s m) = ended m
  /\ state1 (settleWith s m) = state1 m
  /\ state2 (settleWith s m) = state2 m.
Proof. rewrite settleWith_eq. repeat split; reflexivity. Qed.

(** Settling and tearing down after a step that tracks. *)
Lemma tracks_done_settle (s : settlement) (m m1 : machine) :
  options m1 = options m -> listeners1 m1 = listeners1 m ->
  promise m1 = promise m ->
  (respectful (options m) ->
   forall j, StreamState.ended (state_of j m) = true ->
             StreamState.ended (state_of j m1) = true) ->
  (respectful (options m) -> counted m -> counted m1) ->
  tracks m (done (settleWith s m1)).
Proof.
  intros a1 a4 a2 Hf Hcount.
  destruct (settleWith_fields s m1) as (Fo & Fk & Fe & F1 & F2).
  assert (Hd : isDone (done (settleWith s m1)) = true) by apply isDone_done.
  assert (S1 : state1 (done (settleWith s m1)) = state1 m1)
    by (rewrite done_eq; exact F1).
  assert (S2 : state2 (done (settleWith s m1)) = state2 m1)
    by (rewrite done_eq; exact F2).
  constructor; try (rewrite Hd; discriminate); auto.
  - rewrite done_eq. cbn. congruence.
  - rewrite done_eq. cbn. congruence.
  - intros H. rewrite done_eq. cbn. rewrite settleWith_stable; congruence.
  - intros _ H. rewrite Hd in H. discriminate.
  - intros Hr j Hj. specialize (Hf Hr j Hj).
    destruct j; cbn [state_of] in *; rewrite ?S1, ?S2; congruence.
  - intros Hr Hc. apply counted_done.
    apply (counted_same m1);
      [exact Fe | intros [|]; cbn [state_of]; congruence | auto].
Qed.

Lemma tracks_settle_after (s : settlement) (m m1 : machine) :
  sameControl m m1 ->
  (respectful (options m) ->
   forall j, StreamState.ended (state_of j m) = true ->
             StreamState.ended (state_of j m1) = true) ->
  (respectful (options m) -> counted m -> counted m1) ->
  tracks m (done (settleWith s m1)).
Proof.
  intros (a1 & a2 & a3 & a4 & _). now apply tracks_done_settle.
Qed.

Lemma tracks_settle (s : settlement) (m m1 : machine) :
  sameControl m m1 -> ended m1 = ended m ->
  (respectful (options m) -> sameFlags m m1) ->
  tracks m (done (settleWith s m1)).
Proof.
  intros Hs He Hf. apply tracks_settle_after; auto.
  - intros Hr j Hj. now rewrite (Hf Hr j).
  - intros Hr. apply counted_same; auto.
Qed.

(** The two outcomes of [doCompare]: it returns [false] and has changed
    only the states and the log, or it returns [true] and has settled. *)
Lemma doCompare_outcome (f : compareFn) (type : CompareType.t) (m : machine) :
  exists m1,
    sameControl m m1 /\ ended m1 = ended m
    /\ state1 m1 = fst (fst (f (state1 m, state2 m)))
    /\ state2 m1 = snd (fst (f (state1 m, state2 m)))
    /\ (doCompare f type m = (m1, false)
        \/ exists s, s <> Pending
                     /\ doCompare f type m = (done (settleWith s m1), true)).
Proof.
  rewrite doCompare_eq. cbv zeta.
  set (st := fst (f (state1 m, state2 m))).
  set (m1 := set_state2 (snd st) (set_state1 (fst st) _)).
  assert (Hs : sameControl m m1) by (subst m1; same_control).
  destruct (snd (f (state1 m, state2 m))) as [result|err].
  - destruct (inconclusive result).
    + exists m1. repeat (split; [first [assumption | reflexivity]|]).
      destruct type; auto.
      right. exists (Fulfilled VUndefined). split; [discriminate | reflexivity].
    + exists (debug (ProducedResult result) m1).
      split; [same_control|]. repeat (split; [reflexivity|]).
      right. exists (Fulfilled result). split; [discriminate | reflexivity].
  - exists (debug (ProducedError err) m1).
    split; [same_control|]. repeat (split; [reflexivity|]).
    right. exists (Rejected err). split; [discriminate | reflexivity].
Qed.

Lemma doCompare_tracks (f : compareFn) (type : CompareType.t)
    (m m1 : machine) :
  sameControl m m1 -> ended m1 = ended m ->
  (respectful (options m) -> sameFlags m m1) ->
  (respectful (options m) -> keepsEnded f) ->
  tracks m (fst (doCompare f type m1)).
Proof.
  intros Hs He Hf Hk.
  destruct (doCompare_outcome f type m1)
    as (m2 & Hs2 & He2 & S1 & S2 & Hcase).
  assert (Hf2 : respectful (options m) -> sameFlags m m2).
  { intros Hr. apply (sameFlags_trans _ m1); [now apply Hf|].
    destruct (Hk Hr (state1 m1, state2 m1)) as [K1 K2].
    intros [|]; cbn [state_of fst snd] in *; congruence. }
  destruct Hcase as [-> | (s & Hsp & ->)]; cbn [fst].
  - apply tracks_same; auto; [eapply sameControl_trans; eassumption|].
    congruence.
  - apply tracks_settle; auto; [eapply sameControl_trans; eassumption|].
    congruence.
Qed.

Lemma respectful_compare (m : machine) :
  respectful (options m) -> keepsEnded (Options.compare (options m)).
Proof. now intros [H _]. Qed.

Ltac plain_flags := intros _ [|]; reflexivity.

Lemma checkpoint_tracks (m : machine) : tracks m (checkpoint m).
Proof.
  unfold checkpoint. destruct (isDone m).
  - apply tracks_same; [same_control | reflexivity | plain_flags].
  - apply doCompare_tracks;
      [apply sameControl_refl | reflexivity | plain_flags
      | apply respectful_compare].
Qed.

Lemma end_tracks (m : machine) : tracks m (end_ m).
Proof.
  unfold end_. destruct (isDone m).
  - apply tracks_same; [same_control | reflexivity | plain_flags].
  - apply doCompare_tracks;
      [apply sameControl_refl | reflexivity | plain_flags
      | apply respectful_compare].
Qed.

Lemma listener_tracks (i : side) (eventName : string) (args : list jsval)
    (m : machine) :
  tracks m (listener i eventName args m).
Proof.
  unfold listener. cbv zeta.
  match goal with
  | |- context [Options.incremental (options ?x)] =>
      assert (Hs : sameControl m x) by same_control;
      assert (He : ended x = ended m) by (destruct i; reflexivity);
      assert (Hf : respectful (options m) -> sameFlags m x)
        by (intros _ [|]; destruct i; reflexivity);
      replace (options x) with (options m)
        by (symmetry; apply (sameControl_options _ _ Hs))
  end.
  destruct (Options.incremental (options m)) as [f|] eqn:Hinc.
  - apply doCompare_tracks; auto. intros [_ Hr]. now apply Hr.
  - now apply tracks_same.
Qed.

Lemma onStreamError_tracks (i : side) (err : jsval) (m : machine) :
  tracks m (onStreamError i err m).
Proof.
  rewrite onStreamError_eq.
  apply tracks_settle; [same_control | reflexivity | plain_flags].
Qed.

(** The end of [endListener]: with the second end signal counted, the
    timer is started. *)
Lemma timer_tracks (m m2 : machine) :
  sameControl m m2 -> ended m2 = ended m + 1 -> isDone m = false ->
  (respectful (options m) ->
   forall j, StreamState.ended (state_of j m) = true ->
             StreamState.ended (state_of j m2) = true) ->
  (respectful (options m) -> counted m -> counted m2) ->
  tracks m
    (if ended m2 =? 2 then
       if negb (Options.delay (options m2) =? 0) then
         set_postEndTimeout true
           (debug (AllEndedDelayingFor (Options.delay (options m2))) m2)
       else set_postEndImmediate true (debug AllEndedDelaying m2)
     else m2).
Proof.
  intros (a1 & a2 & a3 & a4 & a5 & a6 & a7 & a8 & a9) He Hd Hmono Hcount.
  set (m' := if ended m2 =? 2 then _ else _).
  assert (F : options m' = options m /\ listeners1 m' = listeners1 m
              /\ promise m' = promise m /\ isDone m' = isDone m
              /\ ended m' = ended m2
              /\ state1 m' = state1 m2 /\ state2 m' = state2 m2
              /\ (forall j, regs j m' = regs j m)
              /\ (ended m2 = 2 -> scheduled m')
              /\ (ended m2 <> 2 ->
                  postEndImmediate m' = postEndImmediate m
                  /\ postEndTimeout m' = postEndTimeout m)).
  { subst m'. destruct (ended m2 =? 2) eqn:E2.
    - apply Nat.eqb_eq in E2.
      destruct (Options.delay (options m2) =? 0) eqn:D; cbn [negb];
        (split; [exact a1|]); (split; [exact a4|]); (split; [exact a2|]);
        (split; [exact a3|]); (split; [reflexivity|]);
        (split; [reflexivity|]); (split; [reflexivity|]);
        (split; [intros j; apply a9|]);
        (split; [intros _ | intros; contradiction]);
        unfold scheduled;
        lazy beta iota zeta delta
          [set_postEndImmediate set_postEndTimeout debug set_log options
           postEndImmediate postEndTimeout];
        destruct (Options.delay _ =? 0) eqn:D';
        first [reflexivity | discriminate].
    - apply Nat.eqb_neq in E2.
      (split; [exact a1|]); (split; [exact a4|]); (split; [exact a2|]);
      (split; [exact a3|]); (split; [reflexivity|]);
      (split; [reflexivity|]); (split; [reflexivity|]);
      (split; [intros j; apply a9|]).
      split; [intros; contradiction | auto]. }
  destruct F as (Fo & Fk & Fp & Fd & Fe & F1 & F2 & Fr & Fs & Ft).
  constructor; auto.
  - congruence.
  - intros _ j r Hr _. now rewrite Fr.
  - intros Hdue Hd' Hge. destruct (Nat.eq_dec (ended m2) 2) as [E|E]; auto.
    destruct (Ft E) as [T1 T2].
    assert (S0 : scheduled m) by (apply Hdue; [assumption | lia]).
    unfold scheduled in *. now rewrite Fo, T1, T2.
  - intros Hr j Hj. specialize (Hmono Hr j Hj).
    destruct j; cbn [state_of] in *; congruence.
  - intros Hr Hc. specialize (Hcount Hr Hc).
    unfold counted, endedCount in *. now rewrite Fe, F1, F2.
Qed.

Lemma counted_one_more (i : side) (m x : machine) :
  ended x = ended m + 1 ->
  StreamState.ended (state_of i m) = false ->
  StreamState.ended (state_of i x) = true ->
  (forall j, j <> i ->
             StreamState.ended (state_of j x)
             = StreamState.ended (state_of j m)) ->
  counted m -> counted x.
Proof.
  unfold counted, endedCount. intros He H0 H1 Hj Hc.
  destruct i; cbn [state_of] in *.
  - pose proof (Hj Two ltac:(discriminate)) as H2. cbn [state_of] in H2.
    rewrite He, H1, H2, Hc, H0. lia.
  - pose proof (Hj One ltac:(discriminate)) as H2. cbn [state_of] in H2.
    rewrite He, H1, H2, Hc, H0. lia.
Qed.

Lemma endListener_tracks (i : side) (m : machine) :
  tracks m (endListener i m).
Proof.
  unfold endListener.
  destruct (StreamState.ended (state_of i m) || isDone m) eqn:G;
    [apply tracks_refl|].
  apply orb_false_iff in G as [Hfl Hd]. cbv zeta.
  match goal with
  | |- context [Options.incremental (options ?x)] =>
      assert (Hs : sameControl m x) by same_control;
      assert (He : ended x = ended m + 1) by (destruct i; reflexivity);
      assert (Hmono : forall j, StreamState.ended (state_of j m) = true ->
                                StreamState.ended (state_of j x) = true)
        by (intros j Hj; destruct i, j; cbn [state_of] in *; auto);
      assert (Hcount : counted m -> counted x)
        by (apply (counted_one_more i); auto;
            [destruct i; reflexivity
            | intros j Hj; destruct i, j; try reflexivity; contradiction]);
      replace (options x) with (options m)
        by (symmetry; apply (sameControl_options _ _ Hs));
      set (m1 := x) in *
  end.
  destruct (Options.incremental (options m)) as [f|] eqn:Hinc.
  - destruct (doCompare_outcome f CompareType.incremental m1)
      as (m2 & Hs2 & He2 & S1 & S2 & Hcase).
    assert (Hf2 : respectful (options m) -> sameFlags m1 m2).
    { intros [_ Hr]. destruct (Hr f Hinc (state1 m1, state2 m1)) as [K1 K2].
      intros [|]; cbn [state_of fst snd] in *; congruence. }
    destruct Hcase as [-> | (s & Hsp & ->)].
    + apply timer_tracks; auto.
      * eapply sameControl_trans; eassumption.
      * congruence.
      * intros Hr j Hj. rewrite (Hf2 Hr j). auto.
      * intros Hr Hc. apply (counted_same m1); auto.
    + apply tracks_settle_after.
      * eapply sameControl_trans; eassumption.
      * intros Hr j Hj. rewrite (Hf2 Hr j). auto.
      * intros Hr Hc. apply (counted_same m1); auto.
  - apply timer_tracks; auto.
Qed.

Lemma addData_frame (options : Options.t) (data : jsval)
    (this : StreamState.t) :
  StreamState.ended (fst (addData options data this)) = StreamState.ended this
  /\ StreamState.events (fst (addData options data this))
     = StreamState.events this.
Proof.
  destruct this as [e ev d t].
  unfold addData, addTotalDataLen, bind, gets, modify, ret, throw.
  cbn [fst snd StreamState.data].
  destruct (Options.objectMode options);
    [| destruct data as [| |?|?|s1|b1|?|?|?|?]];
    destruct d as [|s0|b0|a0]; cbn -[Nat.ltb Nat.eqb];
    repeat match goal with
      | |- context [?a =? 0] => destruct (a =? 0); cbn -[Nat.ltb Nat.eqb]
      | |- context [0 <? ?a] => destruct (0 <? a); cbn -[Nat.ltb Nat.eqb]
      end;
    split; reflexivity.
Qed.

Lemma handleData_tracks (i : side) (data : jsval) (m : machine) :
  tracks m (handleData i data m).
Proof.
  unfold handleData. cbv zeta.
  destruct (addData_frame (options (debug (ReadDataFrom i) m)) data
              (state_of i (debug (ReadDataFrom i) m))) as [Fe _].
  destruct (addData _ data _) as [state [u|err]]; cbn [fst] in Fe.
  - match goal with
    | |- context [Options.incremental (options ?x)] =>
        assert (Hs : sameControl m x) by same_control;
        assert (He : ended x = ended m) by (destruct i; reflexivity);
        assert (Hf : respectful (options m) -> sameFlags m x)
          by (intros _ [|]; destruct i; cbn [state_of] in *;
              first [reflexivity | exact Fe]);
        replace (options x) with (options m)
          by (symmetry; apply (sameControl_options _ _ Hs))
    end.
    destruct (Options.incremental (options m)) as [f|] eqn:Hinc.
    + apply doCompare_tracks; auto. intros [_ Hr]. now apply Hr.
    + now apply tracks_same.
  - change (done (reject err ?x)) with (done (settleWith (Rejected err) x)).
    apply tracks_settle; [same_control | destruct i; reflexivity |].
    intros _ [|]; destruct i; cbn [state_of] in *;
      first [reflexivity | exact Fe].
Qed.

(** A change of one stream's listener table alone. *)
Lemma tracks_set_registrations (i : side) (l' : list registration)
    (n' : nat) (m : machine) :
  let s := stream_of i m in
  let s' := Stream.mk (Stream.hasRead s) (Stream.readable s) l' n' in
  (forall r, In r (Stream.registrations s) -> lasting r -> In r l') ->
  tracks m (set_stream i s' m).
Proof.
  intros s s' Hl.
  constructor.
  - destruct i; reflexivity.
  - destruct i; reflexivity.
  - intros _. destruct i; reflexivity.
  - destruct i; auto.
  - intros _ j r Hr Hlast. unfold regs in *.
    rewrite stream_of_set_stream.
    destruct i, j; auto; apply Hl; auto.
  - unfold finalCompareDue, scheduled. destruct i; auto.
  - intros _ j Hj. destruct i, j; exact Hj.
  - intros _. apply counted_same; [destruct i; reflexivity|].
    intros j. destruct i, j; reflexivity.
Qed.

Lemma once_readable_tracks (i : side) (m : machine) :
  tracks m (once i "readable" Fn.readNext m).
Proof.
  apply (tracks_set_registrations i). intros r Hr _.
  apply in_or_app. now left.
Qed.

Lemma remove_last_keeps (p : registration -> bool) (l : list registration)
    (r : registration) :
  In r l -> p r = false -> In r (remove_last p l).
Proof.
  induction l as [|x l IH]; simpl; auto. intros [->|Hin] Hp.
  - destruct (existsb p l); [now left|]. rewrite Hp. now left.
  - destruct (existsb p l); [right; auto|].
    destruct (p x); [assumption | now right].
Qed.

Lemma removeListener_readable_tracks (i : side) (m : machine) :
  tracks m (removeListener i "readable" Fn.readNext m).
Proof.
  apply (tracks_set_registrations i). intros r Hr [_ Hfn].
  apply remove_last_keeps; auto.
  destruct (matches "readable" Fn.readNext r) eqn:E; auto.
  apply matches_spec in E as [_ E]. contradiction.
Qed.

Lemma removeRegistration_tracks (i : side) (r : registration) (m : machine) :
  snapId (stream_of i m) r -> regOnce r = true ->
  tracks m (removeRegistration i (regId r) m).
Proof.
  intros [_ Hsnap] Honce.
  apply (tracks_set_registrations i). intros x Hx [Hl _].
  apply filter_In. split; auto.
  destruct (regId x =? regId r) eqn:E; auto.
  apply Nat.eqb_eq in E. rewrite (Hsnap x Hx E) in Hl. congruence.
Qed.

Lemma tracks_read (i : side) (m : machine) : tracks m (snd (read i m)).
Proof.
  unfold read. destruct (Stream.readable (stream_of i m)); cbn [snd].
  - apply tracks_refl.
  - apply tracks_same;
      [apply sameControl_set_readable | destruct i; reflexivity|].
    intros _ [|]; destruct i; reflexivity.
Qed.

Lemma readNext_loop_tracks (fuel : nat) (m : machine) :
  tracks m (readNext_loop fuel m).
Proof.
  revert m. induction fuel as [|fuel IH]; intros m; simpl;
    [apply tracks_refl|].
  destruct (isDone m); [apply tracks_refl|].
  destruct (selectStream m) as [i|].
  - pose proof (tracks_read i m) as T1.
    destruct (read i m) as [data m1]. cbn [snd] in T1.
    destruct (is_null data).
    + eapply tracks_trans; [exact T1|].
      eapply tracks_trans; [|apply once_readable_tracks].
      apply tracks_same; [same_control | reflexivity | plain_flags].
    + eapply tracks_trans; [exact T1|].
      eapply tracks_trans; [apply handleData_tracks | apply IH].
  - apply tracks_same; [same_control | reflexivity | plain_flags].
Qed.

Lemma readNextOnEnd_tracks (m : machine) : tracks m (readNextOnEnd m).
Proof.
  unfold readNextOnEnd. cbv zeta.
  eapply tracks_trans; [apply (removeListener_readable_tracks One)|].
  eapply tracks_trans; [apply (removeListener_readable_tracks Two)|].
  apply readNext_loop_tracks.
Qed.

Lemma call_tracks (i : side) (fn : Fn.t) (args : list jsval) (m : machine) :
  tracks m (call i fn args m).
Proof.
  destruct fn; simpl.
  - apply listener_tracks.
  - apply endListener_tracks.
  - apply onStreamError_tracks.
  - apply readNext_loop_tracks.
  - apply readNextOnEnd_tracks.
  - apply handleData_tracks.
Qed.

Lemma invoke_tracks (i : side) (args : list jsval) (m : machine)
    (r : registration) :
  snapId (stream_of i m) r -> tracks m (invoke i args m r).
Proof.
  intros Hsnap. unfold invoke.
  eapply tracks_trans; [|apply call_tracks].
  destruct (regOnce r) eqn:Honce; [|apply tracks_refl].
  now apply removeRegistration_tracks.
Qed.

Lemma fold_invoke_tracks (i : side) (args : list jsval)
    (rest : list registration) (m : machine) :
  Inv0 m ->
  (forall r, In r rest -> snapId (stream_of i m) r) ->
  (forall r, In r rest ->
     Options.abortOnError (options m) = true -> isDone m = false ->
     regEvent r <> "error") ->
  tracks m (fold_left (invoke i args) rest m).
Proof.
  revert m. induction rest as [|r rest IH]; intros m H Hsnap Herr; simpl.
  - apply tracks_refl.
  - assert (Hr : In r (r :: rest)) by (left; reflexivity).
    destruct (invoke_ok i args m r H (Hsnap r Hr) (Herr r Hr)) as [Hm _].
    eapply tracks_trans; [apply invoke_tracks, Hsnap, Hr|].
    apply IH.
    + apply (moved_inv _ _ Hm).
    + intros x Hx. eapply snapId_evolves; [apply (moved_regs _ _ Hm)|].
      apply Hsnap. now right.
    + intros x Hx Ha Hd. apply (Herr x); [now right | |].
      * now rewrite <- (moved_options _ _ Hm).
      * destruct (isDone m) eqn:Hdm; auto.
        rewrite (moved_done _ _ Hm Hdm) in Hd. discriminate.
Qed.

Lemma emit_tracks (i : side) (eventName : string) (args : list jsval)
    (m : machine) :
  Inv0 m -> tracks m (emit i eventName args m).
Proof.
  intros H. unfold emit. cbv zeta.
  change (filter _ (Stream.registrations (stream_of i m)))
    with (filter (forEvent eventName) (regs i m)).
  destruct (Options.abortOnError (options m) && negb (isDone m)
            && String.eqb eventName "error") eqn:Special.
  - apply andb_prop in Special as [Special Hn].
    apply andb_prop in Special as [Ha Hd].
    apply String.eqb_eq in Hn. apply negb_true_iff in Hd. subst eventName.
    destruct (inv_error _ H Ha Hd i) as (r & Hr & Hfn & Honce).
    rewrite Hr. simpl. apply invoke_tracks.
    apply ids_ok_snapId; [apply H|].
    assert (Hin : In r (filter (forEvent "error") (regs i m)))
      by (rewrite Hr; now left).
    now apply filter_In in Hin.
  - assert (Hin : forall r, In r (filter (forEvent eventName) (regs i m)) ->
                            In r (regs i m) /\ regEvent r = eventName).
    { intros r Hr. apply filter_In in Hr as [Hr He]. split; auto.
      now apply String.eqb_eq. }
    apply fold_invoke_tracks; auto.
    + intros r Hr. apply ids_ok_snapId; [apply H | now apply Hin].
    + intros r Hr Ha Hd Hn. apply Hin in Hr as [_ He].
      rewrite Ha, Hd in Special. simpl in Special.
      rewrite <- He, Hn in Special. discriminate.
Qed.

(** A comparison of type [last] always settles. *)
Lemma doCompare_last (f : compareFn) (m : machine) :
  exists m1 s,
    sameControl m m1 /\ ended m1 = ended m
    /\ state1 m1 = fst (fst (f (state1 m, state2 m)))
    /\ state2 m1 = snd (fst (f (state1 m, state2 m)))
    /\ s <> Pending
    /\ doCompare f CompareType.last m = (done (settleWith s m1), true).
Proof.
  destruct (doCompare_outcome f CompareType.last m)
    as (m1 & Hs & He & S1 & S2 & [E | (s & Hsp & E)]).
  - rewrite doCompare_eq in E. cbv zeta in E.
    destruct (snd (f (state1 m, state2 m))) as [result|err];
      [destruct (inconclusive result)|]; discriminate.
  - exists m1, s. repeat (split; [assumption|]). assumption.
Qed.

Lemma postEndCompare_tracks (m x : machine) :
  options x = options m -> listeners1 x = listeners1 m ->
  promise x = promise m -> ended x = ended m ->
  state1 x = state1 m -> state2 x = state2 m ->
  tracks m (postEndCompare x).
Proof.
  intros Ho Hk Hp He H1 H2. unfold postEndCompare.
  destruct (doCompare_last (Options.compare (options x)) x)
    as (m1 & s & Hs & He1 & S1 & S2 & Hsp & ->).
  destruct Hs as (a1 & a2 & a3 & a4 & _).
  cbn [fst]. apply tracks_done_settle; try congruence.
  - intros [Hr _] j Hj. rewrite <- Ho in Hr.
    destruct (Hr (state1 x, state2 x)) as [K1 K2].
    destruct j; cbn [state_of fst snd] in *; congruence.
  - intros [Hr _] Hc. rewrite <- Ho in Hr.
    destruct (Hr (state1 x, state2 x)) as [K1 K2].
    unfold counted, endedCount in *. cbn [fst snd] in *.
    rewrite He1, S1, S2, K1, K2, He, H1, H2. exact Hc.
Qed.

Lemma step_tracks (a : action) (m : machine) :
  Inv0 m -> tracks m (step a m).
Proof.
  intros H. destruct a as [i eventName args|i chunk| | | | |]; simpl.
  - now apply emit_tracks.
  - apply tracks_same;
      [apply sameControl_set_readable | destruct i; reflexivity|].
    intros _ [|]; destruct i; reflexivity.
  - destruct (nextTick m); [|apply tracks_refl].
    eapply tracks_trans; [|apply readNext_loop_tracks].
    apply tracks_same; [same_control | reflexivity | plain_flags].
  - destruct (postEndImmediate m); [|apply tracks_refl].
    apply postEndCompare_tracks; reflexivity.
  - destruct (postEndTimeout m); [|apply tracks_refl].
    apply postEndCompare_tracks; reflexivity.
  - apply checkpoint_tracks.
  - apply end_tracks.
Qed.

Lemma run_tracks (acts : list action) (m : machine) :
  Inv0 m -> tracks m (run acts m).
Proof.
  revert m. induction acts as [|a acts IH]; intros m H; simpl.
  - apply tracks_refl.
  - eapply tracks_trans; [apply step_tracks, H|].
    apply IH. apply (moved_inv _ _ (proj1 (step_ok a m H))).
Qed.

(** ** What [streamCompare] returns *)

Lemma wiredFrom_refl (m : machine) : wiredFrom m m.
Proof. unfold wiredFrom. repeat split; auto. Qed.

Lemma wiredFrom_trans (m1 m2 m3 : machine) :
  wiredFrom m1 m2 -> wiredFrom m2 m3 -> wiredFrom m1 m3.
Proof.
  intros (a1 & a2 & a3 & a4 & a5 & a6 & a7 & a8 & a9)
         (b1 & b2 & b3 & b4 & b5 & b6 & b7 & b8 & b9).
  unfold wiredFrom.
  repeat (split; [congruence|]).
  intros i. destruct (a9 i) as (A1 & A2 & A3). destruct (b9 i) as (B1 & B2 & B3).
  split; [congruence|]. split; [congruence | auto].
Qed.

Lemma wiredFrom_register (i : side) (eventName : string) (fn : Fn.t)
    (o : bool) (m : machine) :
  wiredFrom m (register i eventName fn o m).
Proof.
  unfold wiredFrom.
  repeat (split; [destruct i; reflexivity|]).
  intros j. split; [destruct i, j; reflexivity|].
  split; [destruct i, j; reflexivity|].
  intros r Hr. rewrite register_regs.
  destruct i, j; auto; apply in_or_app; now left.
Qed.

Lemma wiredFrom_sameControl (m m' : machine) :
  sameControl m m' ->
  state1 m' = state1 m -> state2 m' = state2 m -> ended m' = ended m ->
  (forall i, Stream.hasRead (stream_of i m') = Stream.hasRead (stream_of i m)
             /\ Stream.readable (stream_of i m')
                = Stream.readable (stream_of i m)) ->
  wiredFrom m m'.
Proof.
  intros (a1 & a2 & a3 & a4 & a5 & a6 & a7 & a8 & a9) S1 S2 E R.
  unfold wiredFrom. repeat (split; [assumption|]).
  intros i. destruct (R i). destruct (a9 i) as [Hr _].
  repeat split; auto. rewrite Hr. auto.
Qed.

Lemma hasKey_In (keys : list string) (key : string) :
  hasKey keys key = true <-> In key keys.
Proof.
  unfold hasKey. rewrite existsb_exists. split.
  - intros (x & Hx & E). apply String.eqb_eq in E. now subst.
  - intros H. exists key. split; auto. apply String.eqb_refl.
Qed.

Lemma wireEvent_cases (m : machine) (eventName : string) :
  (hasKey (listeners1 m) eventName || negb (recordable (options m) eventName)
   = true
   /\ wireEvent m eventName = m)
  \/ (hasKey (listeners1 m) eventName = false
      /\ recordable (options m) eventName = true
      /\ wireEvent m eventName
         = register Two eventName (Fn.listener eventName) false
             (set_listeners2 (listeners2 m ++ [eventName])
                (register One eventName (Fn.listener eventName) false
                   (set_listeners1 (listeners1 m ++ [eventName]) m)))).
Proof.
  unfold wireEvent, recordable.
  destruct (hasKey (listeners1 m) eventName); cbn [orb]; auto.
  destruct (hasKey objectPrototypeKeys eventName); cbn [negb andb orb]; auto.
  destruct (Options.abortOnError (options m) && String.eqb eventName "error");
    cbn [negb]; auto.
Qed.

(** What [options.events.forEach] leaves behind. *)
Lemma fold_wireEvent_keys (names : list string) (m : machine) :
  let m' := fold_left wireEvent names m in
  NoDup (listeners1 m) ->
  (forall i k, In k (listeners1 m) -> hasListener i k (Fn.listener k) m) ->
  wiredFrom m m'
  /\ nextTick m' = nextTick m
  /\ NoDup (listeners1 m')
  /\ (forall k, In k (listeners1 m')
                <-> In k (listeners1 m)
                    \/ (In k names /\ recordable (options m) k = true))
  /\ (forall i k, In k (listeners1 m') -> hasListener i k (Fn.listener k) m').
Proof.
  revert m. induction names as [|n names IH]; intros m m' Hnd Hrec.
  - subst m'. simpl. split; [apply wiredFrom_refl|]. split; [reflexivity|].
    split; [assumption|]. split; [|assumption]. intros k. tauto.
  - subst m'. simpl.
    destruct (wireEvent_cases m n) as [(Hskip & E) | (Hnew & Hok & E)];
      rewrite E.
    + destruct (IH m Hnd Hrec) as (W & T & N & K & R). cbv zeta in *.
      split; [exact W|]. split; [exact T|]. split; [exact N|].
      split; [|exact R].
      intros k. rewrite K. split; [tauto|].
      intros [H | ([<-|H] & Hr)]; auto.
      apply orb_prop in Hskip as [Hk|Hk]; [left; now apply hasKey_In|].
      rewrite Hr in Hk. discriminate.
    + set (m1 := register Two n (Fn.listener n) false _) in *.
      assert (K1 : listeners1 m1 = listeners1 m ++ [n]) by reflexivity.
      assert (O1 : options m1 = options m) by reflexivity.
      assert (R1 : forall i, regs i m1
                = regs i m ++ [mkReg (Stream.nextId (stream_of i m)) n
                                 (Fn.listener n) false])
        by (intros [|]; reflexivity).
      assert (W1 : wiredFrom m m1).
      { unfold wiredFrom. do 8 (split; [reflexivity|]).
        intros i. split; [destruct i; reflexivity|].
        split; [destruct i; reflexivity|].
        intros r Hr. rewrite R1. apply in_or_app. now left. }
      destruct (IH m1) as (W & T & N & K & R).
      * rewrite K1. apply NoDup_app; [assumption|constructor; [auto|constructor]|].
        intros x Hx [<-|[]]. apply hasKey_In in Hx. congruence.
      * intros i k Hk. rewrite K1 in Hk. unfold hasListener. rewrite R1.
        apply in_app_or in Hk as [Hk|[<-|[]]].
        -- destruct (Hrec i k Hk) as (r & Hr & F).
           exists r. split; [apply in_or_app; now left | exact F].
        -- eexists. split; [apply in_or_app; right; now left|].
           repeat split; try reflexivity. discriminate.
      * cbv zeta in *. split; [eapply wiredFrom_trans; eassumption|].
        split; [exact T|]. split; [exact N|]. split; [|exact R].
        intros k. rewrite K, K1, O1, in_app_iff. simpl. intuition (subst; auto).
Qed.

Lemma hasListener_wiredFrom (i : side) (k : string) (fn : Fn.t)
    (m m' : machine) :
  wiredFrom m m' -> hasListener i k fn m -> hasListener i k fn m'.
Proof.
  intros (_ & _ & _ & _ & _ & _ & _ & _ & W) (r & Hr & F).
  exists r. split; [now apply (W i) | exact F].
Qed.

Lemma wireEndEvent_cases (m : machine) (eventName : string) :
  (Options.abortOnError (options m) = true /\ eventName = "error"
   /\ wireEndEvent m eventName = m)
  \/ ((Options.abortOnError (options m) = true -> eventName <> "error")
      /\ wireEndEvent m eventName
         = register Two eventName Fn.endListener false
             (register One eventName Fn.endListener false m)).
Proof.
  unfold wireEndEvent.
  destruct (Options.abortOnError (options m)); cbn [negb orb].
  - destruct (String.eqb eventName "error") eqn:E; cbn [negb].
    + left. apply String.eqb_eq in E. auto.
    + right. split; [|reflexivity]. intros _. now apply String.eqb_neq.
  - right. split; [discriminate | reflexivity].
Qed.

(** What [options.endEvents.forEach] leaves behind. *)
Lemma fold_wireEndEvent_facts (names : list string) (m : machine) :
  let m' := fold_left wireEndEvent names m in
  wiredFrom m m'
  /\ nextTick m' = nextTick m
  /\ listeners1 m' = listeners1 m
  /\ (forall i k, In k names ->
        (Options.abortOnError (options m) = true -> k <> "error") ->
        hasListener i k Fn.endListener m').
Proof.
  revert m. induction names as [|n names IH]; intros m; simpl.
  - split; [apply wiredFrom_refl|]. repeat split; auto. contradiction.
  - destruct (IH (wireEndEvent m n)) as (W & T & K & E). cbv zeta in *.
    assert (W1 : wiredFrom m (wireEndEvent m n)
                 /\ nextTick (wireEndEvent m n) = nextTick m
                 /\ listeners1 (wireEndEvent m n) = listeners1 m
                 /\ ((Options.abortOnError (options m) = true -> n <> "error") ->
                     forall i, hasListener i n Fn.endListener (wireEndEvent m n))).
    { destruct (wireEndEvent_cases m n) as [(Ha & He & ->) | (Hne & ->)].
      - split; [apply wiredFrom_refl|]. repeat split; auto.
        intros H. now destruct (H Ha).
      - split; [eapply wiredFrom_trans; apply wiredFrom_register|].
        split; [reflexivity|]. split; [reflexivity|].
        intros _ i. unfold hasListener.
        exists (mkReg (Stream.nextId (stream_of i m)) n Fn.endListener false).
        split; [|repeat split; try reflexivity; discriminate].
        destruct i; cbn; apply in_or_app; right; now left. }
    destruct W1 as (W1 & T1 & K1 & E1).
    assert (O1 : options (wireEndEvent m n) = options m) by apply W1.
    split; [eapply wiredFrom_trans; eassumption|].
    split; [congruence|]. split; [congruence|].
    intros i k [<-|Hk] Hne.
    + apply (hasListener_wiredFrom _ _ _ _ _ W). now apply E1.
    + apply E; auto. now rewrite O1.
Qed.

(** The four wiring steps of [streamCompare], started on a machine
    without keys and without listeners. *)
Lemma wired_facts (m0 : machine) :
  listeners1 m0 = [] ->
  let o := options m0 in
  let m1 := fold_left wireEvent (Options.events o) m0 in
  let m2 := fold_left wireEndEvent (Options.endEvents o) m1 in
  let m3 :=
    if Options.abortOnError o then
      once Two "error" Fn.onStreamError (once One "error" Fn.onStreamError m2)
    else m2 in
  let m4 :=
    match Options.readPolicy o with
    | ReadPolicy.flowing =>
        let m := debug WillFlowing m3 in
        on Two "data" Fn.handleData (on One "data" Fn.handleData m)
    | ReadPolicy.least =>
        let m := debug WillLeast m3 in
        let m := once One "end" Fn.readNextOnEnd m in
        let m := once Two "end" Fn.readNextOnEnd m in
        set_nextTick true m
    | ReadPolicy.none => debug NotReading m3
    end in
  wiredFrom m0 m4
  /\ nextTick m4
     = match Options.readPolicy o with
       | ReadPolicy.least => true
       | _ => nextTick m0
       end
  /\ NoDup (listeners1 m4)
  /\ (forall k, In k (listeners1 m4)
                <-> In k (Options.events o) /\ recordable o k = true)
  /\ (forall i k, In k (listeners1 m4) -> hasListener i k (Fn.listener k) m4)
  /\ (forall i k, In k (Options.endEvents o) ->
        (Options.abortOnError o = true -> k <> "error") ->
        hasListener i k Fn.endListener m4).
Proof.
  intros K0 o m1 m2 m3 m4.
  destruct (fold_wireEvent_keys (Options.events o) m0) as (W1 & T1 & N1 & K1 & R1).
  { rewrite K0. constructor. }
  { intros i k Hk. rewrite K0 in Hk. contradiction. }
  fold m1 in W1, T1, N1, K1, R1.
  assert (O1 : options m1 = o) by apply W1.
  destruct (fold_wireEndEvent_facts (Options.endEvents o) m1)
    as (W2 & T2 & K2 & E2).
  fold m2 in W2, T2, K2, E2. rewrite O1 in E2.
  assert (W3 : wiredFrom m2 m3 /\ nextTick m3 = nextTick m2
               /\ listeners1 m3 = listeners1 m2).
  { subst m3. destruct (Options.abortOnError o).
    - split; [|split; reflexivity].
      eapply wiredFrom_trans;
        [apply (wiredFrom_register One "error" Fn.onStreamError true)
        |apply (wiredFrom_register Two "error" Fn.onStreamError true)].
    - split; [apply wiredFrom_refl | split; reflexivity]. }
  destruct W3 as (W3 & T3 & K3).
  assert (W4 : wiredFrom m3 m4 /\ listeners1 m4 = listeners1 m3
               /\ nextTick m4 = match Options.readPolicy o with
                                | ReadPolicy.least => true
                                | _ => nextTick m3
                                end).
  { assert (D : forall d, d <> UnregisteringListeners ->
                          wiredFrom m3 (debug d m3)).
    { intros d Hd. apply wiredFrom_sameControl; auto.
      now apply sameControl_debug. }
    subst m4. destruct (Options.readPolicy o); cbv zeta.
    - split; [|split; reflexivity].
      eapply wiredFrom_trans; [apply (D WillFlowing); discriminate|].
      eapply wiredFrom_trans;
        [apply (wiredFrom_register One "data" Fn.handleData false)
        |apply (wiredFrom_register Two "data" Fn.handleData false)].
    - split; [|split; reflexivity].
      eapply wiredFrom_trans; [apply (D WillLeast); discriminate|].
      eapply wiredFrom_trans;
        [apply (wiredFrom_register One "end" Fn.readNextOnEnd true)|].
      eapply wiredFrom_trans;
        [apply (wiredFrom_register Two "end" Fn.readNextOnEnd true)|].
      apply wiredFrom_sameControl; auto. apply sameControl_set_nextTick.
    - split; [|split; reflexivity]. apply D. discriminate. }
  destruct W4 as (W4 & K4 & T4).
  assert (W24 : wiredFrom m2 m4) by (eapply wiredFrom_trans; eassumption).
  assert (W14 : wiredFrom m1 m4) by (eapply wiredFrom_trans; eassumption).
  split; [eapply wiredFrom_trans; eassumption|].
  split; [rewrite T4; destruct (Options.readPolicy o); congruence|].
  assert (K : listeners1 m4 = listeners1 m1) by congruence.
  rewrite K. split; [exact N1|]. split; [|split].
  - intros k. rewrite K1, K0. simpl. tauto.
  - intros i k Hk. apply (hasListener_wiredFrom _ _ _ _ _ W14). now apply R1.
  - intros i k Hk Hne. apply (hasListener_wiredFrom _ _ _ _ _ W24).
    now apply E2.
Qed.

(** What [streamCompare] returns when it returns: the merged options,
    a fresh comparison, and the listeners. *)
Lemma streamCompare_started (s1 s2 : Stream.t)
    (optionsOrCompare : option (compareFn + StreamCompareOptions.t))
    (m : machine) :
  streamCompare s1 s2 optionsOrCompare = Normal m ->
  let given :=
    match optionsOrCompare with
    | Some (inl f) =>
        StreamCompareOptions.mk None (Some f) None None None None None None
    | Some (inr o) => o
    | None => StreamCompareOptions.empty
    end in
  (Some (Options.compare (options m))
   = match StreamCompareOptions.compare given with
     | Some f => Some f
     | None => StreamCompareOptions.incremental given
     end
   /\ Options.abortOnError (options m)
      = orDefault DEFAULT_abortOnError (StreamCompareOptions.abortOnError given)
   /\ Options.delay (options m)
      = orDefault DEFAULT_delay (StreamCompareOptions.delay given)
   /\ Options.endEvents (options m)
      = orDefault DEFAULT_endEvents (StreamCompareOptions.endEvents given)
   /\ Options.events (options m)
      = orDefault DEFAULT_events (StreamCompareOptions.events given)
   /\ Options.incremental (options m) = StreamCompareOptions.incremental given
   /\ Options.objectMode (options m)
      = orDefault DEFAULT_objectMode (StreamCompareOptions.objectMode given)
   /\ Options.readPolicy (options m)
      = orDefault DEFAULT_readPolicy (StreamCompareOptions.readPolicy given))
  /\ (Options.readPolicy (options m) = ReadPolicy.least ->
      Stream.hasRead s1 = true /\ Stream.hasRead s2 = true)
  /\ (promise m = Pending /\ isDone m = false
      /\ state1 m = StreamState.new /\ state2 m = StreamState.new
      /\ ended m = 0
      /\ postEndImmediate m = false /\ postEndTimeout m = false
      /\ nextTick m = match Options.readPolicy (options m) with
                      | ReadPolicy.least => true
                      | _ => false
                      end)
  /\ (forall i,
        let s := match i with One => s1 | Two => s2 end in
        Stream.hasRead (stream_of i m) = Stream.hasRead s
        /\ Stream.readable (stream_of i m) = Stream.readable s
        /\ forall r, In r (Stream.registrations s) -> In r (regs i m))
  /\ NoDup (listeners1 m)
  /\ (forall k, In k (listeners1 m)
                <-> In k (Options.events (options m))
                    /\ recordable (options m) k = true)
  /\ (forall i k, In k (listeners1 m) -> hasListener i k (Fn.listener k) m)
  /\ (forall i k, In k (Options.endEvents (options m)) ->
        (Options.abortOnError (options m) = true -> k <> "error") ->
        hasListener i k Fn.endListener m).
Proof.
  unfold streamCompare. cbv zeta.
  destruct (_ && (_ || _)) eqn:Hread; [discriminate|].
  match goal with
  | |- match ?c with Some _ => _ | None => _ end = _ -> _ =>
      destruct c as [cmp|] eqn:Hcmp; [|discriminate]
  end.
  intros Heq. injection Heq as Heq.
  match type of Heq with
  | context [fold_left wireEvent _ ?m0] =>
      pose proof (wired_facts m0 eq_refl) as H; set (start := m0) in H
  end.
  cbv zeta in H.
  match type of H with
  | wiredFrom _ ?m4 /\ _ =>
      assert (Hm : m = m4) by (rewrite <- Heq; reflexivity)
  end.
  clear Heq. subst m.
  match type of H with
  | wiredFrom _ ?m4 /\ _ => set (m := m4) in *
  end.
  destruct H as (W & T & N & K & R & E).
  pose proof W as (Wo & Wp & Wd & W1 & W2 & We & Wi & Wt & Ws).
  assert (Hpolicy : Options.readPolicy (options m)
                    = Options.readPolicy (options start))
    by exact (f_equal Options.readPolicy Wo).
  split; [|split; [|split; [|split; [|split; [|split; [|split]]]]]].
  - split; [f_equal; exact (f_equal Options.compare Wo)|].
    split; [exact (f_equal Options.abortOnError Wo)|].
    split; [exact (f_equal Options.delay Wo)|].
    split; [exact (f_equal Options.endEvents Wo)|].
    split; [exact (f_equal Options.events Wo)|].
    split; [exact (f_equal Options.incremental Wo)|].
    split; [exact (f_equal Options.objectMode Wo)|].
    exact Hpolicy.
  - intros Hl.
    assert (Hl' : Options.readPolicy (options start) = ReadPolicy.least)
      by (etransitivity; [symmetry; exact Hpolicy | exact Hl]).
    change (match Options.readPolicy (options start) with
            | ReadPolicy.least => true
            | _ => false
            end && (negb (Stream.hasRead s1) || negb (Stream.hasRead s2))
            = false) in Hread.
    rewrite Hl' in Hread. cbn [andb] in Hread.
    apply orb_false_iff in Hread as [A B].
    apply negb_false_iff in A, B. auto.
  - repeat (split; [assumption|]).
    etransitivity; [exact T|].
    change (match Options.readPolicy (options start) with
            | ReadPolicy.least => true
            | _ => false
            end
            = match Options.readPolicy (options m) with
              | ReadPolicy.least => true
              | _ => false
              end).
    now rewrite <- Hpolicy.
  - intros i. cbv zeta. destruct (Ws i) as (A & B & C).
    destruct i; auto.
  - exact N.
  - intros k. rewrite K, Wo. reflexivity.
  - exact R.
  - intros i k Hk Hne. rewrite Wo in Hk, Hne. now apply E.
Qed.

(** The checks of [Raw.streamCompare] leave nothing for [streamCompare]
    to refuse. *)
Lemma streamCompare_returns (s1 s2 : Stream.t) (o : StreamCompareOptions.t)
    (compare : compareFn) (policy : ReadPolicy.t) :
  StreamCompareOptions.compare o = Some compare ->
  StreamCompareOptions.readPolicy o = Some policy ->
  match policy with ReadPolicy.least => true | _ => false end
  && (negb (Stream.hasRead s1) || negb (Stream.hasRead s2)) = false ->
  exists m, streamCompare s1 s2 (Some (inr o)) = Normal m.
Proof.
  intros Hc Hp Hread. unfold streamCompare. cbv zeta.
  rewrite Hc, Hp. cbn [orDefault]. rewrite Hread. eexists. reflexivity.
Qed.

Lemma given_throws (optionsOrCompare : Raw.argument) (e : jsval) :
  Raw.given optionsOrCompare = Throw e ->
  e = VTypeError "optionsOrCompare must be an object or function"
  /\ exists v,
       optionsOrCompare = Raw.plain v /\ Raw.toBoolean v = true
       /\ Raw.typeOf v <> "function" /\ Raw.typeOf v <> "object".
Proof.
  destruct optionsOrCompare as [v|o]; [|discriminate].
  unfold Raw.given. destruct (Raw.toBoolean v) eqn:T; [|discriminate].
  destruct v; simpl; try discriminate; intros [= <-];
    (split; [reflexivity|]); eexists;
    (split; [reflexivity|]); (split; [exact T|]); split; discriminate.
Qed.

Lemma policyOf_None (name : string) :
  Raw.policyOf name = None ->
  name <> "flowing" /\ name <> "least" /\ name <> "none".
Proof.
  unfold Raw.policyOf.
  destruct (String.eqb_spec name "flowing"); [discriminate|].
  destruct (String.eqb_spec name "least"); [discriminate|].
  destruct (String.eqb_spec name "none"); [discriminate|]. auto.
Qed.

(** X6. [streamCompare] makes its checks in this order and throws at the
    first that fails: a TypeError when [optionsOrCompare] is truthy and
    neither a function nor an object; when stream 1, then stream 2, is no
    EventEmitter; when the readPolicy is ['least'] (which it is by
    default) and a stream has no [.read()]; when [compare], or
    [incremental] in its place when [compare] is falsy, is no function;
    when [endEvents], then [events], is not Array-like; when
    [incremental] is truthy and no function; when the readPolicy is no
    string; and a RangeError when it is a string other than the three
    names. A key that is present with the value [undefined] hides the
    default. In every other case it returns a comparison whose options
    are the given ones over the defaults; the promise is pending, the two
    states are fresh, no end signal is counted, no timer is pending, the
    [nextTick] callback is scheduled under ['least'] only, and nothing
    was read. *)
Theorem streamCompare_starts (emitter1 emitter2 : option Stream.t)
    (optionsOrCompare : Raw.argument) :
  match Raw.streamCompare emitter1 emitter2 optionsOrCompare with
  | Throw err =>
      match Raw.given optionsOrCompare with
      | Throw _ =>
          err = VTypeError "optionsOrCompare must be an object or function"
          /\ exists v,
               optionsOrCompare = Raw.plain v /\ Raw.toBoolean v = true
               /\ Raw.typeOf v <> "function" /\ Raw.typeOf v <> "object"
      | Normal o =>
          let readPolicy :=
            Raw.assigned Raw.readPolicy (Raw.text "least") o in
          let endEvents :=
            Raw.assigned Raw.endEvents (Raw.arrayLike ["end"; "error"])
              o in
          let events :=
            Raw.assigned Raw.events (Raw.arrayLike ["close"; "end"; "error"])
              o in
          let incremental :=
            Raw.assigned Raw.incremental Raw.undefined o in
          match emitter1, emitter2 with
          | None, _ => err = VTypeError "stream1 must be an EventEmitter"
          | Some _, None => err = VTypeError "stream2 must be an EventEmitter"
          | Some s1, Some s2 =>
              if match readPolicy with
                 | Raw.text name => String.eqb name "least"
                 | _ => false
                 end
                 && (negb (Stream.hasRead s1) || negb (Stream.hasRead s2))
              then
                err
                = VTypeError "streams must have .read() for readPolicy 'least'"
              else if negb (String.eqb (Raw.typeOf (Raw.compareOf o))
                              "function")
              then err = VTypeError "options.compare must be a function"
              else if match Raw.namesOf endEvents with
                      | None => true
                      | Some _ => false
                      end
              then err = VTypeError "options.endEvents must be Array-like"
              else if match Raw.namesOf events with
                      | None => true
                      | Some _ => false
                      end
              then err = VTypeError "options.events must be Array-like"
              else if Raw.toBoolean incremental
                      && negb (String.eqb (Raw.typeOf incremental) "function")
              then err = VTypeError "options.incremental must be a function"
              else if negb (String.eqb (Raw.typeOf readPolicy) "string")
              then err = VTypeError "options.readPolicy must be a string"
              else
                exists name,
                  readPolicy = Raw.text name
                  /\ name <> "flowing" /\ name <> "least" /\ name <> "none"
                  /\ err
                     = VRangeError
                         ("Invalid options.readPolicy '" ++ name ++ "'")
          end
      end
  | Normal m =>
      exists s1 s2 o name,
        emitter1 = Some s1 /\ emitter2 = Some s2
        /\ Raw.given optionsOrCompare = Normal o
        /\ Raw.compareOf o = Raw.function (Options.compare (options m))
        /\ Options.abortOnError (options m)
           = Raw.toBoolean
               (Raw.assigned Raw.abortOnError (Raw.boolean false) o)
        /\ Options.delay (options m)
           = Raw.delayOf (Raw.assigned Raw.delay (Raw.number 0) o)
        /\ Raw.assigned Raw.endEvents (Raw.arrayLike ["end"; "error"]) o
           = Raw.arrayLike (Options.endEvents (options m))
        /\ Raw.assigned Raw.events (Raw.arrayLike ["close"; "end"; "error"])
             o
           = Raw.arrayLike (Options.events (options m))
        /\ match Options.incremental (options m) with
           | Some f =>
               Raw.assigned Raw.incremental Raw.undefined o
               = Raw.function f
           | None =>
               Raw.toBoolean
                 (Raw.assigned Raw.incremental Raw.undefined o)
               = false
           end
        /\ Options.objectMode (options m)
           = Raw.toBoolean
               (Raw.assigned Raw.objectMode (Raw.boolean false) o)
        /\ Raw.assigned Raw.readPolicy (Raw.text "least") o
           = Raw.text name
        /\ Raw.policyOf name = Some (Options.readPolicy (options m))
        /\ (Options.readPolicy (options m) = ReadPolicy.least ->
            Stream.hasRead s1 = true /\ Stream.hasRead s2 = true)
        /\ promise m = Pending /\ isDone m = false
        /\ state1 m = StreamState.new /\ state2 m = StreamState.new
        /\ ended m = 0
        /\ postEndImmediate m = false /\ postEndTimeout m = false
        /\ nextTick m = match Options.readPolicy (options m) with
                        | ReadPolicy.least => true
                        | _ => false
                        end
        /\ Stream.readable (stream1 m) = Stream.readable s1
        /\ Stream.readable (stream2 m) = Stream.readable s2
  end.
Proof.
  unfold Raw.streamCompare.
  destruct (Raw.given optionsOrCompare) as [o|e] eqn:G;
    [|exact (given_throws _ _ G)].
  destruct emitter1 as [s1|]; [|reflexivity].
  destruct emitter2 as [s2|]; [|reflexivity].
  cbv zeta. change DEFAULT_endEvents with ["end"; "error"].
  change DEFAULT_events with ["close"; "end"; "error"].
  set (readPolicy := Raw.assigned Raw.readPolicy (Raw.text "least") o).
  set (endEvents := Raw.assigned Raw.endEvents _ o).
  set (events := Raw.assigned Raw.events _ o).
  set (incremental := Raw.assigned Raw.incremental Raw.undefined o).
  destruct (_ && (_ || _)) eqn:Hread; [reflexivity|].
  destruct (Raw.compareOf o) as [| | | | |cmp| |] eqn:Hcmp;
    try reflexivity.
  cbn [Raw.functionOf Raw.typeOf String.eqb Ascii.eqb Bool.eqb negb].
  destruct endEvents as [| | | | | |endNames|] eqn:HendEvents;
    try reflexivity.
  destruct events as [| | | | | |names|] eqn:Hevents; try reflexivity.
  cbn [Raw.namesOf].
  destruct (Raw.toBoolean incremental
            && negb (String.eqb (Raw.typeOf incremental) "function"))
    eqn:Hinc; [reflexivity|].
  destruct readPolicy as [| | | |name| | |] eqn:Hpolicy; try reflexivity.
  cbn [Raw.typeOf String.eqb Ascii.eqb Bool.eqb negb].
  destruct (Raw.policyOf name) as [policy|] eqn:Hname.
  2:{ exists name. split; [reflexivity|].
      destruct (policyOf_None _ Hname) as (N1 & N2 & N3). auto. }
  match goal with
  | |- match streamCompare s1 s2 (Some (inr ?o)) with _ => _ end =>
      set (typed := o)
  end.
  assert (Hleast : match policy with ReadPolicy.least => true | _ => false end
                   = String.eqb name "least").
  { revert Hname. unfold Raw.policyOf.
    destruct (String.eqb_spec name "flowing") as [->|]; [now intros [= <-]|].
    destruct (String.eqb_spec name "least") as [->|]; [now intros [= <-]|].
    destruct (String.eqb_spec name "none") as [->|]; [now intros [= <-]|].
    discriminate. }
  destruct (streamCompare_returns s1 s2 typed cmp policy eq_refl eq_refl)
    as [m Run]; [rewrite Hleast; exact Hread|].
  rewrite Run.
  destruct (streamCompare_started _ _ _ _ Run)
    as ((Oc & Oa & Od & Oe & Ov & Oi & Oo & Op) & Hr
        & (Fp & Fd & F1 & F2 & Fe & Fi & Ft & Fn) & Hs & _).
  cbn [StreamCompareOptions.compare StreamCompareOptions.abortOnError
       StreamCompareOptions.delay StreamCompareOptions.endEvents
       StreamCompareOptions.events StreamCompareOptions.incremental
       StreamCompareOptions.objectMode StreamCompareOptions.readPolicy
       typed orDefault] in Oc, Oa, Od, Oe, Ov, Oi, Oo, Op.
  exists s1, s2, o, name.
  do 3 (split; [reflexivity|]).
  split; [now injection Oc as <-|].
  split; [exact Oa|]. split; [exact Od|].
  split; [now rewrite Oe|]. split; [now rewrite Ov|].
  split.
  { rewrite Oi. fold incremental. revert Hinc. generalize incremental.
    intros [| |b|n|t|f|l|]; cbn; rewrite ?andb_true_r; auto. }
  split; [exact Oo|]. split; [exact Hpolicy|]. split; [now rewrite Op|].
  split; [exact Hr|].
  do 8 (split; [assumption|]).
  split; [apply (Hs One) | apply (Hs Two)].
Qed.

(** The checks at work. A [readPolicy] key that is present with the
    value [undefined] hides the default and is refused; an unknown name
    is a RangeError; [events] that is a string and [incremental] that is
    a number are refused; a stream that is no EventEmitter is refused
    before the options are looked at; and a function alone starts the
    comparison that [streamCompare] starts for it. *)
Example streamCompare_checks :
  let compare := Some (Raw.function (ret VUndefined)) in
  let both := Raw.streamCompare (Some idleStream) (Some idleStream) in
  both (Raw.withKeys
          (Raw.mkBag None compare None None None None None
             (Some Raw.undefined)))
  = Throw (VTypeError "options.readPolicy must be a string")
  /\ both (Raw.withKeys
             (Raw.mkBag None compare None None None None None
                (Some (Raw.text "bogus"))))
     = Throw (VRangeError "Invalid options.readPolicy 'bogus'")
  /\ both (Raw.withKeys
             (Raw.mkBag None compare None None (Some (Raw.text "end")) None
                None None))
     = Throw (VTypeError "options.events must be Array-like")
  /\ both (Raw.withKeys
             (Raw.mkBag None compare None None None (Some (Raw.number 1))
                None None))
     = Throw (VTypeError "options.incremental must be a function")
  /\ both (Raw.plain (Raw.number 1))
     = Throw (VTypeError "optionsOrCompare must be an object or function")
  /\ both (Raw.plain Raw.undefined)
     = Throw (VTypeError "options.compare must be a function")
  /\ Raw.streamCompare None (Some idleStream)
       (Raw.plain (Raw.function (ret VUndefined)))
     = Throw (VTypeError "stream1 must be an EventEmitter")
  /\ both (Raw.plain (Raw.function (ret VUndefined)))
     = streamCompare idleStream idleStream compareOnly.
Proof. cbv zeta. repeat split; reflexivity. Qed.

(** X7. The listeners that [streamCompare] wires. The recorded event names
    are the entries of [options.events], each once, without the names
    that a fresh object already answers to and without ['error'] under
    abortOnError; each of them has a recorder on both streams; every end
    event (but ['error'] under abortOnError) has an [endListener] on both
    streams; and the listeners that were on the streams before are still
    there. *)
Theorem streamCompare_wires_listeners (s1 s2 : Stream.t)
    (optionsOrCompare : option (compareFn + StreamCompareOptions.t))
    (m : machine) :
  streamCompare s1 s2 optionsOrCompare = Normal m ->
  NoDup (listeners1 m)
  /\ (forall k, In k (listeners1 m)
                <-> In k (Options.events (options m))
                    /\ recordable (options m) k = true)
  /\ (forall i k, In k (listeners1 m) -> hasListener i k (Fn.listener k) m)
  /\ (forall i k, In k (Options.endEvents (options m)) ->
        (Options.abortOnError (options m) = true -> k <> "error") ->
        hasListener i k Fn.endListener m)
  /\ (forall i r, In r (Stream.registrations
                          match i with One => s1 | Two => s2 end) ->
                  In r (regs i m)).
Proof.
  intros Run.
  destruct (streamCompare_started _ _ _ _ Run)
    as (_ & _ & _ & Hs & N & K & R & E).
  repeat (split; [assumption|]).
  intros i r Hr. now apply (Hs i).
Qed.

Lemma streamCompare_wires_listeners_witness :
  exists m,
    streamCompare idleStream idleStream compareOnly = Normal m
    /\ NoDup (listeners1 m)
    /\ hasListener One "close" (Fn.listener "close") m
    /\ hasListener Two "end" Fn.endListener m.
Proof.
  eexists. split; [reflexivity|].
  match goal with
  | |- NoDup (listeners1 ?m) /\ _ =>
      destruct (streamCompare_wires_listeners idleStream idleStream
                  compareOnly m eq_refl) as (N & K & R & E & _)
  end.
  split; [exact N|]. split.
  - apply R, K. split; [vm_compute; left; reflexivity | reflexivity].
  - apply E; [vm_compute; left; reflexivity | discriminate].
Defined.

(** What holds of every reachable machine, in every mode. *)
Lemma reachable_tracked (m : machine) :
  reachable m ->
  listening m
  /\ finalCompareDue m
  /\ (respectful (options m) -> counted m)
  /\ NoDup (listeners1 m)
  /\ (forall k, In k (listeners1 m)
                <-> In k (Options.events (options m))
                    /\ recordable (options m) k = true).
Proof.
  induction 1 as [s1 s2 o m R1 R2 Hstart | a m Hreach IH].
  - destruct (streamCompare_started _ _ _ _ Hstart)
      as (_ & _ & (Fp & Fd & F1 & F2 & Fe & Fi & Ft & Fn) & _ & N & K & R & E).
    split; [|split; [|split; [|split]]]; auto.
    + intros _ i. split; [apply R | apply E].
    + intros _ Hge. rewrite Fe in Hge. inversion Hge.
    + intros _. unfold counted, endedCount. now rewrite Fe, F1, F2.
  - destruct IH as (L & D & C & N & K).
    destruct (reachable_Inv m Hreach) as [H0 _].
    destruct (step_tracks a m H0) as [To Tk Tp Td Tr Tu Tf Tc].
    rewrite To, Tk. split; [|split; [|split; [|split]]]; auto.
    intros Hd' i.
    assert (Hd : isDone m = false).
    { destruct (isDone m) eqn:E; auto. rewrite Td in Hd'; auto. }
    destruct (L Hd i) as [Lr Le].
    rewrite Tk, To. split.
    + intros k Hk. destruct (Lr k Hk) as (r & Hr & F1 & F2 & F3).
      exists r. split; [apply Tr; auto|]. auto.
    + intros k Hk Hne. destruct (Le k Hk Hne) as (r & Hr & F1 & F2 & F3).
      exists r. split; [apply Tr; auto|]. auto.
Qed.

(** X8. In every read policy, ['flowing'] included: once the promise is
    settled, nothing that happens afterwards changes its value, [isDone]
    stays set, and the options stay what they were. *)
Theorem settled_promise_never_changes (m : machine) (acts : list action) :
  reachable m -> settled m ->
  promise (run acts m) = promise m
  /\ isDone (run acts m) = true
  /\ options (run acts m) = options m.
Proof.
  intros Hr Hs. destruct (reachable_Inv m Hr) as [H0 _].
  destruct (run_tracks acts m H0) as [To Tk Tp Td Tr Tu Tf Tc].
  split; [now apply Tp|]. split; [|exact To].
  apply Td. now apply reachable_settled.
Qed.

Lemma settled_promise_never_changes_witness :
  exists m,
    streamCompare idleStream idleStream (Some (inr flowingOptions)) = Normal m
    /\ promise (run [AEmit One "data" [VStr "late"]; ACheckpoint] (end_ m))
       = promise (end_ m)
    /\ isDone (run [AEmit One "data" [VStr "late"]; ACheckpoint] (end_ m))
       = true.
Proof.
  eexists. split; [reflexivity|].
  match goal with
  | |- promise (run ?acts (end_ ?m)) = _ /\ _ =>
      destruct (settled_promise_never_changes (end_ m) acts
                  (reachable_step AEnd m
                     (reachable_start idleStream idleStream
                        (Some (inr flowingOptions)) m eq_refl eq_refl eq_refl)))
        as (H1 & H2 & _)
  end.
  - unfold settled. vm_compute. discriminate.
  - split; [exact H1 | exact H2].
Defined.

(** ** The final comparison *)

(** A comparison of type [last] does not care whether a timer was
    pending: [done] clears both. *)
Lemma doCompare_last_timers (f : compareFn) (a b : bool) (m : machine) :
  fst (doCompare f CompareType.last
         (set_postEndTimeout b (set_postEndImmediate a m)))
  = fst (doCompare f CompareType.last m).
Proof.
  rewrite !doCompare_eq. cbv zeta.
  change (state1 (set_postEndTimeout b (set_postEndImmediate a m)))
    with (state1 m).
  change (state2 (set_postEndTimeout b (set_postEndImmediate a m)))
    with (state2 m).
  destruct (snd (f (state1 m, state2 m))) as [result|err];
    [destruct (inconclusive result)|]; cbn [fst];
    rewrite !done_eq; unfold resolve, reject; setters;
    repeat match goal with
      | |- context [match ?p with Pending => _ | _ => _ end] => destruct p
      end;
    reflexivity.
Qed.

(** X9. The timer that [endListener] starts does what [end()] does: when
    it fires, it leaves exactly the machine that a call of [end()] at
    that moment would leave. *)
Theorem post_end_timer_is_end (m : machine) :
  reachable m ->
  (postEndImmediate m = true -> step AImmediate m = end_ m)
  /\ (postEndTimeout m = true -> step ATimeout m = end_ m).
Proof.
  intros Hr. destruct (reachable_Inv m Hr) as [H0 _].
  assert (Hd : postEndImmediate m = true \/ postEndTimeout m = true ->
               isDone m = false).
  { intros Ht. destruct (isDone m) eqn:E; auto.
    destruct (inv_timers _ H0 E) as [A B]. destruct Ht; congruence. }
  split; intros Ht; simpl; rewrite Ht; unfold end_, postEndCompare;
    rewrite Hd by auto.
  - apply (doCompare_last_timers _ false (postEndTimeout m) m).
  - apply (doCompare_last_timers _ (postEndImmediate m) false m).
Qed.

Lemma post_end_timer_is_end_witness :
  exists m,
    streamCompare idleStream idleStream compareOnly = Normal m
    /\ postEndImmediate (run [AEmit One "end" []; AEmit Two "end" []] m) = true
    /\ step AImmediate (run [AEmit One "end" []; AEmit Two "end" []] m)
       = end_ (run [AEmit One "end" []; AEmit Two "end" []] m).
Proof.
  eexists. split; [reflexivity|].
  split; [reflexivity|].
  match goal with
  | |- step AImmediate (run ?acts ?m) = _ =>
      apply (proj1 (post_end_timer_is_end (run acts m)
                      (reachable_run acts m
                         (reachable_start idleStream idleStream compareOnly m
                            eq_refl eq_refl eq_refl))))
  end.
  reflexivity.
Defined.

Lemma postEndCompare_settles (m : machine) :
  isDone (postEndCompare m) = true.
Proof.
  unfold postEndCompare.
  destruct (doCompare_last (Options.compare (options m)) m)
    as (m1 & s & _ & _ & _ & _ & _ & ->).
  apply isDone_done.
Qed.

(** With both flags set on an unsettled comparison, the final
    comparison is pending, and its timer settles the comparison. *)
Lemma both_ended_due (m : machine) :
  reachable m ->
  respectful (options m) ->
  isDone m = false ->
  StreamState.ended (state1 m) = true ->
  StreamState.ended (state2 m) = true ->
  ended m = 2 /\ scheduled m
  /\ isDone (step (if Options.delay (options m) =? 0 then AImmediate
                   else ATimeout) m) = true.
Proof.
  intros Hr Hresp Hd E1 E2.
  destruct (reachable_tracked m Hr) as (_ & D & C & _).
  specialize (C Hresp). unfold counted, endedCount in C.
  rewrite E1, E2 in C. simpl in C.
  assert (S : scheduled m) by (apply D; [assumption | lia]).
  split; [exact C|]. split; [exact S|].
  unfold scheduled in S.
  destruct (Options.delay (options m) =? 0); simpl; rewrite S;
    apply postEndCompare_settles.
Qed.

(** X10. With comparison functions that do not write [ended]: when both
    states have ended and the comparison is not settled, two end signals
    have been counted, the timer of the final comparison is pending
    ([setImmediate] for a zero delay, [setTimeout] otherwise), and the
    promise is settled as soon as it fires. *)
Theorem both_ended_schedules_final_compare (m : machine) :
  reachable m ->
  respectful (options m) ->
  promise m = Pending ->
  StreamState.ended (state1 m) = true ->
  StreamState.ended (state2 m) = true ->
  ended m = 2
  /\ (if Options.delay (options m) =? 0 then postEndImmediate m = true
      else postEndTimeout m = true)
  /\ settled (step (if Options.delay (options m) =? 0 then AImmediate
                    else ATimeout) m).
Proof.
  intros Hr Hresp Hp E1 E2.
  pose proof (reachable_unsettled m Hr Hp) as Hd.
  destruct (both_ended_due m Hr Hresp Hd E1 E2) as (C & S & F).
  split; [exact C|]. split; [exact S|].
  set (a := if Options.delay (options m) =? 0 then AImmediate else ATimeout)
    in *.
  apply (inv_settled _ (proj1 (reachable_Inv _ (reachable_step a m Hr)))).
  exact F.
Qed.

Lemma both_ended_schedules_final_compare_witness :
  exists m,
    streamCompare idleStream idleStream compareOnly = Normal m
    /\ ended (run [AEmit One "end" []; AEmit Two "error" []] m) = 2
    /\ postEndImmediate (run [AEmit One "end" []; AEmit Two "error" []] m)
       = true
    /\ settled (step AImmediate
                  (run [AEmit One "end" []; AEmit Two "error" []] m)).
Proof.
  eexists. split; [reflexivity|].
  match goal with
  | |- ended (run ?acts ?m) = 2 /\ _ =>
      apply (both_ended_schedules_final_compare (run acts m)
               (reachable_run acts m
                  (reachable_start idleStream idleStream compareOnly m
                     eq_refl eq_refl eq_refl)))
  end.
  - split; [|discriminate]. intros st. split; reflexivity.
  - reflexivity.
  - reflexivity.
  - reflexivity.
Defined.

(** ** End events *)

(** The functions that [makeIncremental] builds never write [ended]. *)
Lemma makeIncremental_keepsEnded
    (compareData : option (dataVal -> dataVal -> completion jsval))
    (compareEvents : option (list event -> list event -> completion jsval)) :
  keepsEnded (makeIncremental compareData compareEvents).
Proof.
  assert (P : forall V (p : PropName V) (f : V -> V -> completion jsval)
                     (st : states),
             StreamState.ended
               (fst (fst (@incrementalProp V (arrayLike_of p) p f st)))
             = StreamState.ended (fst st)
             /\ StreamState.ended
                  (snd (fst (@incrementalProp V (arrayLike_of p) p f st)))
                = StreamState.ended (snd st)).
  { intros V p f st. destruct (incrementalProp_frame p f st) as (v1 & v2 & ->).
    destruct p; split; reflexivity. }
  intros st. unfold makeIncremental, bind.
  set (dataPass := match compareData with
                   | Some f => incrementalProp data_prop f
                   | None => ret VUndefined
                   end).
  set (eventsPass := match compareEvents with
                     | Some f => incrementalProp events_prop f
                     | None => ret VUndefined
                     end).
  assert (D : forall st0, StreamState.ended (fst (fst (dataPass st0)))
                          = StreamState.ended (fst st0)
                          /\ StreamState.ended (snd (fst (dataPass st0)))
                             = StreamState.ended (snd st0)).
  { intros st0. subst dataPass. destruct compareData as [f|].
    - apply (P _ data_prop).
    - split; reflexivity. }
  assert (E : forall st0, StreamState.ended (fst (fst (eventsPass st0)))
                          = StreamState.ended (fst st0)
                          /\ StreamState.ended (snd (fst (eventsPass st0)))
                             = StreamState.ended (snd st0)).
  { intros st0. subst eventsPass. destruct compareEvents as [f|].
    - apply (P _ events_prop).
    - split; reflexivity. }
  specialize (D st). destruct (dataPass st) as [st1 [r|e]]; cbn [fst snd] in *;
    [|exact D].
  specialize (E st1). destruct (eventsPass st1) as [st2 [r'|e']];
    unfold ret; cbn [fst snd] in *; destruct D, E; split; congruence.
Qed.

(** [endListener] marks its stream as ended, unless the comparison is
    settled. *)
Lemma endListener_marks (i : side) (m : machine) :
  respectful (options m) ->
  StreamState.ended (state_of i (endListener i m)) = true
  \/ isDone (endListener i m) = true.
Proof.
  intros Hresp. unfold endListener.
  destruct (StreamState.ended (state_of i m) || isDone m) eqn:G.
  { apply orb_prop in G. tauto. }
  cbv zeta.
  match goal with
  | |- context [Options.incremental (options ?x)] =>
      assert (Hfl : StreamState.ended (state_of i x) = true)
        by (destruct i; reflexivity);
      replace (options x) with (options m) by (destruct i; reflexivity);
      set (m1 := x) in *
  end.
  assert (T : forall m2,
             StreamState.ended (state_of i m2) = true ->
             StreamState.ended
               (state_of i
                  (if ended m2 =? 2 then
                     if negb (Options.delay (options m2) =? 0) then
                       set_postEndTimeout true
                         (debug (AllEndedDelayingFor
                                   (Options.delay (options m2))) m2)
                     else set_postEndImmediate true (debug AllEndedDelaying m2)
                   else m2)) = true).
  { intros m2 H2. destruct (ended m2 =? 2); [|exact H2].
    destruct (negb _); destruct i; exact H2. }
  destruct (Options.incremental (options m)) as [f|] eqn:Hinc.
  - destruct (doCompare_outcome f CompareType.incremental m1)
      as (m2 & Hs2 & He2 & S1 & S2 & [-> | (s & Hsp & ->)]).
    + left. apply T.
      destruct Hresp as [_ Hr].
      destruct (Hr f Hinc (state1 m1, state2 m1)) as [K1 K2].
      destruct i; cbn [state_of fst snd] in *; congruence.
    + right. apply isDone_done.
  - left. now apply T.
Qed.

Lemma fold_invoke_marks (i : side) (args : list jsval)
    (rest : list registration) (m : machine) (r : registration) :
  Inv0 m ->
  (forall x, In x rest -> snapId (stream_of i m) x) ->
  (forall x, In x rest ->
     Options.abortOnError (options m) = true -> isDone m = false ->
     regEvent x <> "error") ->
  respectful (options m) ->
  In r rest -> regFn r = Fn.endListener ->
  StreamState.ended (state_of i (fold_left (invoke i args) rest m)) = true
  \/ isDone (fold_left (invoke i args) rest m) = true.
Proof.
  revert m. induction rest as [|x rest IH]; intros m H Hsnap Herr Hresp Hin Hfn;
    [contradiction|].
  simpl.
  assert (Hx : In x (x :: rest)) by (left; reflexivity).
  destruct (invoke_ok i args m x H (Hsnap x Hx) (Herr x Hx)) as [Hm _].
  assert (Hsnap' : forall y, In y rest ->
                     snapId (stream_of i (invoke i args m x)) y).
  { intros y Hy. eapply snapId_evolves; [apply (moved_regs _ _ Hm)|].
    apply Hsnap. now right. }
  assert (Herr' : forall y, In y rest ->
            Options.abortOnError (options (invoke i args m x)) = true ->
            isDone (invoke i args m x) = false -> regEvent y <> "error").
  { intros y Hy Ha Hd. apply (Herr y); [now right | |].
    - now rewrite <- (moved_options _ _ Hm).
    - destruct (isDone m) eqn:Hdm; auto.
      rewrite (moved_done _ _ Hm Hdm) in Hd. discriminate. }
  assert (Hresp' : respectful (options (invoke i args m x)))
    by now rewrite (moved_options _ _ Hm).
  destruct Hin as [->|Hin].
  - pose proof (fold_invoke_tracks i args rest (invoke i args m r)
                  (moved_inv _ _ Hm) Hsnap' Herr') as T.
    assert (M : StreamState.ended (state_of i (invoke i args m r)) = true
                \/ isDone (invoke i args m r) = true).
    { unfold invoke. rewrite Hfn. cbn [call].
      apply endListener_marks.
      destruct (regOnce r); [destruct i|]; exact Hresp. }
    destruct M as [M|M].
    + left. now apply (tr_flags _ _ T Hresp').
    + right. now apply (tr_done _ _ T).
  - apply IH; auto. apply (moved_inv _ _ Hm).
Qed.

(** An end event marks its stream as ended, unless the comparison is
    or gets settled. *)
Lemma emit_marks (m : machine) (i : side) (k : string) (args : list jsval) :
  reachable m ->
  respectful (options m) ->
  In k (Options.endEvents (options m)) ->
  (Options.abortOnError (options m) = true -> k <> "error") ->
  StreamState.ended (state_of i (emit i k args m)) = true
  \/ isDone (emit i k args m) = true.
Proof.
  intros Hr Hresp Hk Hne.
  destruct (reachable_Inv m Hr) as [H0 _].
  destruct (isDone m) eqn:Hd.
  { right. apply (tr_done _ _ (emit_tracks i k args m H0) Hd). }
  destruct (reachable_tracked m Hr) as (L & _).
  destruct (L Hd i) as [_ Le].
  destruct (Le k Hk Hne) as (r & Hin & Hev & Hfn & _).
  assert (Hsnap : forall x, In x (filter (forEvent k) (regs i m)) ->
                            In x (regs i m) /\ regEvent x = k).
  { intros x Hx. apply filter_In in Hx as [Hx He]. split; auto.
    now apply String.eqb_eq. }
  unfold emit. cbv zeta.
  change (filter _ (Stream.registrations (stream_of i m)))
    with (filter (forEvent k) (regs i m)).
  apply (fold_invoke_marks i args _ m r); auto.
  - intros x Hx. apply ids_ok_snapId; [apply H0 | now apply Hsnap].
  - intros x Hx Ha _ He. apply Hsnap in Hx as [_ Hx].
    apply (Hne Ha). congruence.
  - apply filter_In. split; auto. unfold forEvent. rewrite Hev.
    apply String.eqb_refl.
Qed.

(** X11. With comparison functions that do not write [ended]: after
    stream [i] of an unsettled comparison has emitted one of the end
    events, its state is marked as ended, or the comparison is settled. *)
Theorem end_event_ends_stream (m : machine) (i : side) (k : string)
    (args : list jsval) :
  reachable m ->
  respectful (options m) ->
  promise m = Pending ->
  In k (Options.endEvents (options m)) ->
  (Options.abortOnError (options m) = true -> k <> "error") ->
  let m' := emit i k args m in
  StreamState.ended (state_of i m') = true \/ settled m'.
Proof.
  intros Hr Hresp Hp Hk Hne m'.
  destruct (emit_marks m i k args Hr Hresp Hk Hne) as [M|M]; [now left|right].
  apply (inv_settled _ (proj1 (reachable_Inv _
           (reachable_step (AEmit i k args) m Hr)))).
  exact M.
Qed.

Lemma end_event_ends_stream_witness :
  exists m,
    streamCompare idleStream idleStream compareOnly = Normal m
    /\ (StreamState.ended (state_of Two (emit Two "error" [VStr "E"] m)) = true
        \/ settled (emit Two "error" [VStr "E"] m)).
Proof.
  eexists. split; [reflexivity|].
  match goal with
  | |- StreamState.ended (state_of Two (emit Two "error" ?a ?m)) = true \/ _ =>
      apply (end_event_ends_stream m Two "error" a
               (reachable_start idleStream idleStream compareOnly m
                  eq_refl eq_refl eq_refl))
  end.
  - split; [|discriminate]. intros st. split; reflexivity.
  - reflexivity.
  - vm_compute. right. left. reflexivity.
  - discriminate.
Defined.

(** ** Recording events *)

Lemma sameEvents_refl (m : machine) : sameEvents m m.
Proof. split; auto. Qed.

Lemma sameEvents_trans (m1 m2 m3 : machine) :
  sameEvents m1 m2 -> sameEvents m2 m3 -> sameEvents m1 m3.
Proof.
  intros [o1 e1] [o2 e2]. split; [congruence|].
  intros j. now rewrite e2, e1.
Qed.

Lemma sameEvents_done (m : machine) : sameEvents m (done m).
Proof. rewrite done_eq. split; [reflexivity|]. intros [|]; reflexivity. Qed.

Lemma sameEvents_settleWith (s : settlement) (m : machine) :
  sameEvents m (settleWith s m).
Proof.
  rewrite settleWith_eq. split; [reflexivity|]. intros [|]; reflexivity.
Qed.

Lemma sameEvents_set_stream (i : side) (x : Stream.t) (m : machine) :
  sameEvents m (set_stream i x m).
Proof. destruct i; (split; [reflexivity|]); intros [|]; reflexivity. Qed.

Lemma sameEvents_debug (d : dbg) (m : machine) : sameEvents m (debug d m).
Proof. split; [reflexivity|]. intros [|]; reflexivity. Qed.

Lemma onStreamError_sameEvents (i : side) (err : jsval) (m : machine) :
  sameEvents m (onStreamError i err m).
Proof.
  rewrite onStreamError_eq.
  eapply sameEvents_trans; [apply sameEvents_debug|].
  eapply sameEvents_trans; [apply sameEvents_settleWith|].
  apply sameEvents_done.
Qed.

Lemma endListener_sameEvents (i : side) (m : machine) :
  Options.incremental (options m) = None ->
  sameEvents m (endListener i m).
Proof.
  intros Hinc. unfold endListener.
  destruct (StreamState.ended (state_of i m) || isDone m);
    [apply sameEvents_refl|].
  cbv zeta.
  match goal with
  | |- context [Options.incremental (options ?x)] =>
      replace (options x) with (options m) by (destruct i; reflexivity);
      assert (Hs : sameEvents m x)
        by (split; [destruct i; reflexivity|];
            intros [|]; destruct i; reflexivity);
      set (m1 := x) in *
  end.
  rewrite Hinc.
  eapply sameEvents_trans; [exact Hs|].
  destruct (ended m1 =? 2); [|apply sameEvents_refl].
  destruct (negb _); (split; [reflexivity|]); intros [|]; reflexivity.
Qed.

Lemma handleData_sameEvents (i : side) (data : jsval) (m : machine) :
  Options.incremental (options m) = None ->
  sameEvents m (handleData i data m).
Proof.
  intros Hinc. unfold handleData. cbv zeta.
  destruct (addData_frame (options (debug (ReadDataFrom i) m)) data
              (state_of i (debug (ReadDataFrom i) m))) as [_ Fv].
  destruct (addData _ data _) as [state [u|err]]; cbn [fst] in Fv.
  - match goal with
    | |- context [Options.incremental (options ?x)] =>
        replace (options x) with (options m) by (destruct i; reflexivity)
    end.
    rewrite Hinc. split; [destruct i; reflexivity|].
    intros [|]; destruct i; cbn [state_of] in *;
      first [reflexivity | exact Fv].
  - change (done (reject err ?x)) with (done (settleWith (Rejected err) x)).
    eapply sameEvents_trans; [|apply sameEvents_done].
    eapply sameEvents_trans; [|apply sameEvents_settleWith].
    split; [destruct i; reflexivity|].
    intros [|]; destruct i; cbn [state_of] in *;
      first [reflexivity | exact Fv].
Qed.

Lemma read_sameEvents (i : side) (m : machine) :
  sameEvents m (snd (read i m)).
Proof.
  unfold read. destruct (Stream.readable (stream_of i m)); cbn [snd].
  - apply sameEvents_refl.
  - apply sameEvents_set_stream.
Qed.

Lemma readNext_loop_sameEvents (fuel : nat) (m : machine) :
  Options.incremental (options m) = None ->
  sameEvents m (readNext_loop fuel m).
Proof.
  revert m. induction fuel as [|fuel IH]; intros m Hinc; simpl;
    [apply sameEvents_refl|].
  destruct (isDone m); [apply sameEvents_refl|].
  destruct (selectStream m) as [i|]; [|apply sameEvents_debug].
  pose proof (read_sameEvents i m) as S1.
  destruct (read i m) as [data m1]. cbn [snd] in S1.
  assert (Hinc1 : Options.incremental (options m1) = None)
    by (destruct S1 as [-> _]; exact Hinc).
  eapply sameEvents_trans; [exact S1|].
  destruct (is_null data).
  - eapply sameEvents_trans; [apply sameEvents_debug|].
    apply sameEvents_set_stream.
  - pose proof (handleData_sameEvents i data m1 Hinc1) as S2.
    eapply sameEvents_trans; [exact S2|]. apply IH.
    destruct S2 as [-> _]. exact Hinc1.
Qed.

Lemma readNextOnEnd_sameEvents (m : machine) :
  Options.incremental (options m) = None ->
  sameEvents m (readNextOnEnd m).
Proof.
  intros Hinc. unfold readNextOnEnd. cbv zeta.
  eapply sameEvents_trans; [apply (sameEvents_set_stream One)|].
  eapply sameEvents_trans; [apply (sameEvents_set_stream Two)|].
  now apply readNext_loop_sameEvents.
Qed.

(** Invoking anything but a recorder leaves the [events] lists alone
    when there is no incremental comparison. *)
Lemma invoke_sameEvents (i : side) (args : list jsval) (m : machine)
    (r : registration) :
  Options.incremental (options m) = None ->
  (forall n, regFn r <> Fn.listener n) ->
  sameEvents m (invoke i args m r).
Proof.
  intros Hinc Hfn. unfold invoke.
  set (m0 := if regOnce r then removeRegistration i (regId r) m else m).
  assert (S0 : sameEvents m m0).
  { subst m0. destruct (regOnce r); [|apply sameEvents_refl].
    apply sameEvents_set_stream. }
  assert (Hinc0 : Options.incremental (options m0) = None)
    by (destruct S0 as [-> _]; exact Hinc).
  eapply sameEvents_trans; [exact S0|].
  destruct (regFn r) eqn:F; cbn [call].
  - now destruct (Hfn eventName).
  - now apply endListener_sameEvents.
  - apply onStreamError_sameEvents.
  - now apply readNext_loop_sameEvents.
  - now apply readNextOnEnd_sameEvents.
  - now apply handleData_sameEvents.
Qed.

Lemma fold_invoke_sameEvents (i : side) (args : list jsval)
    (rest : list registration) (m : machine) :
  Options.incremental (options m) = None ->
  (forall r, In r rest -> forall n, regFn r <> Fn.listener n) ->
  sameEvents m (fold_left (invoke i args) rest m).
Proof.
  revert m. induction rest as [|r rest IH]; intros m Hinc Hfn; simpl.
  - apply sameEvents_refl.
  - pose proof (invoke_sameEvents i args m r Hinc (Hfn r (or_introl eq_refl)))
      as S1.
    eapply sameEvents_trans; [exact S1|]. apply IH.
    + destruct S1 as [-> _]. exact Hinc.
    + intros x Hx. apply Hfn. now right.
Qed.

Lemma guarded_not_listener (r : registration) :
  guarded r = true -> forall n, regFn r <> Fn.listener n.
Proof. unfold guarded. intros H n E. rewrite E in H. discriminate. Qed.

(** In a well-formed table, the recorder of an event name is the first
    listener for it, and the others test [isDone]. *)
Lemma recorder_first (keys : list string) (l : list registration)
    (r : registration) (k : string) :
  wellFormed keys l ->
  In r l -> regEvent r = k -> regFn r = Fn.listener k ->
  exists rest,
    filter (forEvent k) l = r :: rest
    /\ Forall (fun x => guarded x = true) rest.
Proof.
  intros [Htail _] Hin Hev Hfn.
  assert (Hr : In r (filter (forEvent k) l)).
  { apply filter_In. split; auto. unfold forEvent. rewrite Hev.
    apply String.eqb_refl. }
  specialize (Htail k).
  destruct (filter (forEvent k) l) as [|x rest]; [contradiction|].
  simpl in Htail. exists rest. split; [|exact Htail].
  destruct Hr as [->|Hr]; [reflexivity|].
  rewrite Forall_forall in Htail. specialize (Htail r Hr).
  unfold guarded in Htail. rewrite Hfn in Htail. discriminate.
Qed.

(** X12. Under ['least'] or ['none'], on an unsettled comparison: emitting
    a recorded event name on stream [i] calls its recorder first, on the
    machine as it was, and after it only listeners that test [isDone];
    without an incremental function the event ends up as the last entry
    of that side's [events], and the other side's [events] are as
    before. *)
Theorem configured_event_is_recorded (m : machine) (i : side) (k : string)
    (args : list jsval) :
  reachable m ->
  Options.readPolicy (options m) <> ReadPolicy.flowing ->
  promise m = Pending ->
  In k (Options.events (options m)) ->
  recordable (options m) k = true ->
  let m' := emit i k args m in
  (exists rest,
      Forall (fun r => guarded r = true) rest
      /\ m' = fold_left (invoke i args) rest (listener i k args m))
  /\ (Options.incremental (options m) = None ->
      StreamState.events (state_of i m')
      = StreamState.events (state_of i m) ++ [mkEvent k args]
      /\ forall j, j <> i ->
                   StreamState.events (state_of j m')
                   = StreamState.events (state_of j m)).
Proof.
  intros Hr Hpol Hp Hk Hrec m'.
  destruct (reachable_Inv m Hr) as [H0 H1]. specialize (H1 Hpol).
  destruct (reachable_tracked m Hr) as (L & _ & _ & _ & K).
  pose proof (reachable_unsettled m Hr Hp) as Hd.
  destruct (L Hd i) as [Lr _].
  destruct (Lr k (proj2 (K k) (conj Hk Hrec)))
    as (r & Hin & Hev & Hfn & Honce & _).
  destruct (recorder_first _ _ r k (inv_wf _ H1 i) Hin Hev Hfn)
    as (rest & Hsnap & Hg).
  assert (E : m' = fold_left (invoke i args) rest (listener i k args m)).
  { subst m'. unfold emit. cbv zeta.
    change (filter _ (Stream.registrations (stream_of i m)))
      with (filter (forEvent k) (regs i m)).
    rewrite Hsnap. simpl. unfold invoke at 2. now rewrite Honce, Hfn. }
  split; [exists rest; auto|].
  intros Hinc.
  assert (Hl : listener i k args m
               = set_state i
                   (StreamState.set_events
                      (StreamState.events (state_of i m) ++ [mkEvent k args])
                      (state_of i m))
                   (debug (EventFrom k i) m)).
  { unfold listener. cbv zeta.
    match goal with
    | |- context [Options.incremental (options ?x)] =>
        replace (options x) with (options m) by (destruct i; reflexivity)
    end.
    rewrite Hinc. destruct i; reflexivity. }
  destruct (fold_invoke_sameEvents i args rest (listener i k args m))
    as [_ S].
  { rewrite Hl. destruct i; exact Hinc. }
  { intros x Hx. apply guarded_not_listener.
    rewrite Forall_forall in Hg. auto. }
  rewrite E. split.
  - rewrite S, Hl. destruct i; reflexivity.
  - intros j Hj. rewrite S, Hl. destruct i, j; try reflexivity; contradiction.
Qed.

Lemma configured_event_is_recorded_witness :
  exists m,
    streamCompare idleStream idleStream compareOnly = Normal m
    /\ StreamState.events (state_of One (emit One "end" [] m))
       = StreamState.events (state_of One m) ++ [mkEvent "end" []].
Proof.
  eexists. split; [reflexivity|].
  match goal with
  | |- StreamState.events (state_of One (emit One "end" [] ?m)) = _ =>
      destruct (configured_event_is_recorded m One "end" []
                  (reachable_start idleStream idleStream compareOnly m
                     eq_refl eq_refl eq_refl)) as [_ H]
  end.
  - discriminate.
  - reflexivity.
  - vm_compute. right. left. reflexivity.
  - reflexivity.
  - exact (proj1 (H eq_refl)).
Defined.

(** X13. Under ['least'] or ['none'] and without an incremental function:
    an event whose name is not recorded (it is not in [options.events],
    or it is a name that a fresh object already answers to, or it is
    ['error'] under abortOnError) changes neither [events] list. *)
Theorem unconfigured_event_is_not_recorded (m : machine) (i : side)
    (k : string) (args : list jsval) :
  reachable m ->
  Options.readPolicy (options m) <> ReadPolicy.flowing ->
  Options.incremental (options m) = None ->
  ~ (In k (Options.events (options m)) /\ recordable (options m) k = true) ->
  forall j, StreamState.events (state_of j (emit i k args m))
            = StreamState.events (state_of j m).
Proof.
  intros Hr Hpol Hinc Hk.
  destruct (reachable_Inv m Hr) as [H0 H1]. specialize (H1 Hpol).
  destruct (reachable_tracked m Hr) as (_ & _ & _ & _ & K).
  apply (fold_invoke_sameEvents i args); auto.
  intros r Hin n Hfn.
  apply filter_In in Hin as [Hin Hev]. apply String.eqb_eq in Hev.
  destruct (inv_wf _ H1 i) as [_ Hkinds].
  destruct (Hkinds r Hin) as [[_ Hkey] | [Hfn' _]].
  - unfold guarded. now rewrite Hfn.
  - apply Hk. apply K. now rewrite <- Hev.
  - congruence.
Qed.

Lemma unconfigured_event_is_not_recorded_witness :
  exists m,
    streamCompare idleStream idleStream (Some (inr toStringOptions)) = Normal m
    /\ StreamState.events (state_of One (emit One "toString" [] m))
       = StreamState.events (state_of One m).
Proof.
  eexists. split; [reflexivity|].
  match goal with
  | |- StreamState.events (state_of One (emit One ?k [] ?m)) = _ =>
      apply (unconfigured_event_is_not_recorded m One k []
               (reachable_start idleStream idleStream
                  (Some (inr toStringOptions)) m eq_refl eq_refl eq_refl))
  end.
  - discriminate.
  - reflexivity.
  - intros [_ H]. discriminate H.
Defined.

(** ** [checkpoint] *)

Lemma settle_facts (s : settlement) (m1 : machine) :
  s <> Pending -> promise m1 = Pending ->
  promise (done (settleWith s m1)) = s
  /\ isDone (done (settleWith s m1)) = true
  /\ state1 (done (settleWith s m1)) = state1 m1
  /\ state2 (done (settleWith s m1)) = state2 m1
  /\ log (done (settleWith s m1))
     = log m1 ++ [UnregisteringListeners; ComparisonFinished].
Proof.
  intros Hs Hp.
  destruct (done_fields (settleWith s m1)) as (Fp & F1 & F2 & _ & Fd & _ & _ & Fl).
  destruct (settleWith_fields s m1) as (_ & _ & _ & S1 & S2).
  rewrite Fp, F1, F2, Fd, Fl, S1, S2, (settleWith_pending s m1 Hp).
  repeat split; auto. rewrite settleWith_eq. reflexivity.
Qed.

(** X14. [checkpoint()] on an unsettled comparison calls
    [options.compare] once on the two states and keeps what it did to
    them. A verdict fulfills the promise and a thrown value rejects it;
    [null] or [undefined] leaves the comparison running: the promise
    pending, and the listeners, the read buffers, the end count, the
    timers and the tick untouched. *)
Theorem checkpoint_settles_only_on_verdict (m : machine) :
  reachable m -> promise m = Pending ->
  let out := Options.compare (options m) (state1 m, state2 m) in
  state1 (checkpoint m) = fst (fst out)
  /\ state2 (checkpoint m) = snd (fst out)
  /\ compares (log (checkpoint m)) = S (compares (log m))
  /\ match snd out with
     | Normal result =>
         if inconclusive result then
           promise (checkpoint m) = Pending
           /\ isDone (checkpoint m) = false
           /\ stream1 (checkpoint m) = stream1 m
           /\ stream2 (checkpoint m) = stream2 m
           /\ ended (checkpoint m) = ended m
           /\ postEndImmediate (checkpoint m) = postEndImmediate m
           /\ postEndTimeout (checkpoint m) = postEndTimeout m
           /\ nextTick (checkpoint m) = nextTick m
         else
           promise (checkpoint m) = Fulfilled result
           /\ isDone (checkpoint m) = true
     | Throw err =>
         promise (checkpoint m) = Rejected err
         /\ isDone (checkpoint m) = true
     end.
Proof.
  intros Hr Hp out. pose proof (reachable_unsettled m Hr Hp) as Hd.
  unfold checkpoint. rewrite Hd, doCompare_eq. cbv zeta. fold out.
  destruct (snd out) as [result|err].
  - destruct (inconclusive result); cbn [fst].
    + repeat split; auto.
      cbn [log debug set_log set_state1 set_state2].
      rewrite compares_app. cbn. lia.
    + match goal with
      | |- context [done (resolve result ?x)] =>
          change (done (resolve result x))
            with (done (settleWith (Fulfilled result) x));
          destruct (settle_facts (Fulfilled result) x)
            as (Fp & Fd & F1 & F2 & Fl); [discriminate | exact Hp |]
      end.
      rewrite Fp, Fd, F1, F2, Fl. repeat split; auto.
      cbn [log debug set_log set_state1 set_state2].
      rewrite !compares_app. cbn. lia.
  - cbn [fst].
    match goal with
    | |- context [done (reject err ?x)] =>
        change (done (reject err x))
          with (done (settleWith (Rejected err) x));
        destruct (settle_facts (Rejected err) x)
          as (Fp & Fd & F1 & F2 & Fl); [discriminate | exact Hp |]
    end.
    rewrite Fp, Fd, F1, F2, Fl. repeat split; auto.
    cbn [log debug set_log set_state1 set_state2].
    rewrite !compares_app. cbn. lia.
Qed.

Lemma checkpoint_settles_only_on_verdict_witness :
  exists m,
    streamCompare idleStream idleStream compareOnly = Normal m
    /\ promise (checkpoint m) = Pending
    /\ isDone (checkpoint m) = false
    /\ stream1 (checkpoint m) = stream1 m.
Proof.
  eexists. split; [reflexivity|].
  match goal with
  | |- promise (checkpoint ?m) = _ /\ _ =>
      pose proof (checkpoint_settles_only_on_verdict m
                    (reachable_start idleStream idleStream compareOnly m
                       eq_refl eq_refl eq_refl) eq_refl) as H
  end.
  cbv zeta in H. destruct H as (_ & _ & _ & H).
  destruct H as (H1 & H2 & H3 & _).
  split; [exact H1 | split; [exact H2 | exact H3]].
Defined.

(** ** Ended streams are not read *)

Lemma selectStream_not_ended (m : machine) (i : side) :
  selectStream m = Some i -> StreamState.ended (state_of i m) = false.
Proof.
  intros H. destruct (selectStream_spec m) as (S1 & S2 & _). cbv zeta in *.
  destruct i; [apply S1 in H | apply S2 in H]; apply H.
Qed.

Lemma read_readable_other (i j : side) (m : machine) :
  i <> j ->
  Stream.readable (stream_of j (snd (read i m)))
  = Stream.readable (stream_of j m).
Proof.
  intros Hne. unfold read.
  destruct (Stream.readable (stream_of i m)); cbn [snd]; [reflexivity|].
  rewrite stream_of_set_stream. destruct i, j; try reflexivity; contradiction.
Qed.

Lemma readNext_loop_spares_ended (fuel : nat) (m : machine) (i : side) :
  respectful (options m) ->
  StreamState.ended (state_of i m) = true ->
  Stream.readable (stream_of i (readNext_loop fuel m))
  = Stream.readable (stream_of i m).
Proof.
  revert m. induction fuel as [|fuel IH]; intros m Hresp He; simpl;
    [reflexivity|].
  destruct (isDone m); [reflexivity|].
  destruct (selectStream m) as [j|] eqn:Sel; [|destruct i; reflexivity].
  assert (Hne : j <> i).
  { intros ->. apply selectStream_not_ended in Sel. congruence. }
  pose proof (read_readable_other j i m Hne) as R1.
  pose proof (tracks_read j m) as T1.
  destruct (read j m) as [data m1]. cbn [snd] in *.
  assert (Hresp1 : respectful (options m1))
    by now rewrite (tr_options _ _ T1).
  assert (He1 : StreamState.ended (state_of i m1) = true)
    by now apply (tr_flags _ _ T1).
  destruct (is_null data).
  - rewrite <- R1. unfold once. rewrite stream_of_set_stream.
    destruct j, i; try reflexivity; contradiction.
  - pose proof (handleData_tracks j data m1) as T2.
    rewrite IH.
    + now rewrite handleData_readable.
    + now rewrite (tr_options _ _ T2).
    + now apply (tr_flags _ _ T2).
Qed.

(** X15. With comparison functions that do not write [ended]: [readNext]
    and [readNextOnEnd] never take a chunk off a stream whose state has
    ended. *)
Theorem readNext_never_reads_an_ended_stream (m : machine) (i : side) :
  respectful (options m) ->
  StreamState.ended (state_of i m) = true ->
  Stream.readable (stream_of i (readNext m))
  = Stream.readable (stream_of i m)
  /\ Stream.readable (stream_of i (readNextOnEnd m))
     = Stream.readable (stream_of i m).
Proof.
  intros Hresp He. split; [now apply readNext_loop_spares_ended|].
  unfold readNextOnEnd. cbv zeta. unfold readNext.
  rewrite readNext_loop_spares_ended.
  - unfold removeListener. rewrite !stream_of_set_stream.
    destruct i; reflexivity.
  - exact Hresp.
  - destruct i; exact He.
Qed.

Lemma readNext_never_reads_an_ended_stream_witness :
  Stream.readable (stream_of One (readNext halfEndedMachine))
  = Stream.readable (stream_of One halfEndedMachine)
  /\ Stream.readable (stream_of One (readNextOnEnd halfEndedMachine))
     = Stream.readable (stream_of One halfEndedMachine).
Proof.
  apply (readNext_never_reads_an_ended_stream halfEndedMachine One).
  - split; [|discriminate]. intros st. split; reflexivity.
  - reflexivity.
Defined.

(** ** Reading only under ['least'] *)

Lemma noPull_refl (m : machine) : noPull m m.
Proof. unfold noPull. repeat split; auto. Qed.

Lemma noPull_trans (m1 m2 m3 : machine) :
  noPull m1 m2 -> noPull m2 m3 -> noPull m1 m3.
Proof.
  intros (o1 & t1 & s1) (o2 & t2 & s2).
  split; [congruence|]. split; [congruence|].
  intros j. destruct (s1 j) as [r1 i1]. destruct (s2 j) as [r2 i2].
  split; [congruence | auto].
Qed.

Lemma noPull_fields (m m' : machine) :
  options m' = options m -> nextTick m' = nextTick m ->
  stream1 m' = stream1 m -> stream2 m' = stream2 m ->
  noPull m m'.
Proof.
  intros Ho Ht H1 H2. split; [exact Ho|]. split; [exact Ht|].
  intros [|]; unfold regs; cbn [stream_of]; rewrite ?H1, ?H2; auto.
Qed.

Lemma noPull_done (m : machine) : noPull m (done m).
Proof.
  rewrite done_eq. split; [reflexivity|]. split; [reflexivity|].
  intros [|]; (split; [reflexivity|]); intros r; apply unregister_In.
Qed.

Lemma noPull_settleWith (s : settlement) (m : machine) :
  noPull m (settleWith s m).
Proof. rewrite settleWith_eq. now apply noPull_fields. Qed.

Lemma doCompare_noPull (f : compareFn) (type : CompareType.t) (m : machine) :
  noPull m (fst (doCompare f type m)).
Proof.
  rewrite doCompare_eq. cbv zeta.
  set (m1 := set_state2 _ (set_state1 _ _)).
  assert (N1 : noPull m m1) by now apply noPull_fields.
  assert (S : forall s x, noPull m1 x -> noPull m (done (settleWith s x))).
  { intros s x Hx. eapply noPull_trans; [exact N1|].
    eapply noPull_trans; [exact Hx|].
    eapply noPull_trans; [apply noPull_settleWith | apply noPull_done]. }
  destruct (snd (f (state1 m, state2 m))) as [result|err].
  - destruct (inconclusive result).
    + destruct type; cbn [fst]; auto.
      apply (S (Fulfilled VUndefined)), noPull_refl.
    + apply (S (Fulfilled result)). now apply noPull_fields.
  - apply (S (Rejected err)). now apply noPull_fields.
Qed.

Lemma listener_noPull (i : side) (eventName : string) (args : list jsval)
    (m : machine) :
  noPull m (listener i eventName args m).
Proof.
  unfold listener. cbv zeta.
  match goal with
  | |- context [Options.incremental (options ?x)] =>
      assert (N1 : noPull m x) by (destruct i; now apply noPull_fields)
  end.
  destruct (Options.incremental _) as [f|]; [|exact N1].
  eapply noPull_trans; [exact N1 | apply doCompare_noPull].
Qed.

Lemma onStreamError_noPull (i : side) (err : jsval) (m : machine) :
  noPull m (onStreamError i err m).
Proof.
  rewrite onStreamError_eq.
  eapply noPull_trans; [|apply noPull_done].
  eapply noPull_trans; [|apply noPull_settleWith].
  now apply noPull_fields.
Qed.

Lemma endListener_noPull (i : side) (m : machine) :
  noPull m (endListener i m).
Proof.
  unfold endListener.
  destruct (StreamState.ended (state_of i m) || isDone m);
    [apply noPull_refl|].
  cbv zeta.
  match goal with
  | |- context [Options.incremental (options ?x)] =>
      assert (N1 : noPull m x) by (destruct i; now apply noPull_fields);
      set (m1 := x) in *
  end.
  assert (T : forall m2,
             noPull m2
               (if ended m2 =? 2 then
                  if negb (Options.delay (options m2) =? 0) then
                    set_postEndTimeout true
                      (debug (AllEndedDelayingFor
                                (Options.delay (options m2))) m2)
                  else set_postEndImmediate true (debug AllEndedDelaying m2)
                else m2)).
  { intros m2. destruct (ended m2 =? 2); [|apply noPull_refl].
    destruct (negb _); now apply noPull_fields. }
  destruct (Options.incremental (options m1)) as [f|].
  - pose proof (doCompare_noPull f CompareType.incremental m1) as N2.
    destruct (doCompare f CompareType.incremental m1) as [m2 stop].
    cbn [fst] in N2. destruct stop.
    + eapply noPull_trans; eassumption.
    + eapply noPull_trans; [exact N1|].
      eapply noPull_trans; [exact N2 | apply T].
  - eapply noPull_trans; [exact N1 | apply T].
Qed.

Lemma handleData_noPull (i : side) (data : jsval) (m : machine) :
  noPull m (handleData i data m).
Proof.
  unfold handleData. cbv zeta.
  destruct (addData _ data _) as [state [u|err]].
  - match goal with
    | |- context [Options.incremental (options ?x)] =>
        assert (N1 : noPull m x) by (destruct i; now apply noPull_fields)
    end.
    destruct (Options.incremental _) as [f|]; [|exact N1].
    eapply noPull_trans; [exact N1 | apply doCompare_noPull].
  - change (done (reject err ?x)) with (done (settleWith (Rejected err) x)).
    eapply noPull_trans; [|apply noPull_done].
    eapply noPull_trans; [|apply noPull_settleWith].
    destruct i; now apply noPull_fields.
Qed.

Lemma invoke_noPull (i : side) (args : list jsval) (m : machine)
    (r : registration) :
  regFn r <> Fn.readNext -> regFn r <> Fn.readNextOnEnd ->
  noPull m (invoke i args m r).
Proof.
  intros H1 H2. unfold invoke.
  set (m0 := if regOnce r then removeRegistration i (regId r) m else m).
  assert (N0 : noPull m m0).
  { subst m0. destruct (regOnce r); [|apply noPull_refl].
    unfold removeRegistration.
    split; [destruct i; reflexivity|]. split; [destruct i; reflexivity|].
    intros j. unfold regs. rewrite stream_of_set_stream.
    destruct i, j; (split; [reflexivity|]); auto;
      intros x Hx; now apply filter_In in Hx. }
  eapply noPull_trans; [exact N0|].
  destruct (regFn r); cbn [call]; try contradiction.
  - apply listener_noPull.
  - apply endListener_noPull.
  - apply onStreamError_noPull.
  - apply handleData_noPull.
Qed.

Lemma fold_invoke_noPull (i : side) (args : list jsval)
    (rest : list registration) (m : machine) :
  (forall r, In r rest ->
             regFn r <> Fn.readNext /\ regFn r <> Fn.readNextOnEnd) ->
  noPull m (fold_left (invoke i args) rest m).
Proof.
  revert m. induction rest as [|r rest IH]; intros m Hfn; simpl.
  - apply noPull_refl.
  - destruct (Hfn r (or_introl eq_refl)) as [H1 H2].
    apply (noPull_trans _ (invoke i args m r));
      [apply invoke_noPull; assumption|].
    apply IH. intros x Hx. apply Hfn. now right.
Qed.

Lemma noReader_noPull (m m' : machine) :
  noPull m m' -> noReader m -> noReader m'.
Proof.
  intros (_ & Ht & Hs) [Hn Hr]. split; [congruence|].
  intros j r Hin. apply (Hr j). now apply (Hs j).
Qed.

(** Without a reader, only the environment changes the read buffers. *)
Lemma step_noPull (a : action) (m : machine) :
  noReader m ->
  (forall i chunk, a <> APush i chunk) ->
  noPull m (step a m).
Proof.
  intros [Hn Hr] Ha. destruct a as [i eventName args|i chunk| | | | |]; simpl.
  - apply fold_invoke_noPull. intros r Hin.
    apply filter_In in Hin as [Hin _]. now apply (Hr i).
  - now destruct (Ha i chunk).
  - rewrite Hn. apply noPull_refl.
  - destruct (postEndImmediate m); [|apply noPull_refl].
    eapply noPull_trans; [|apply doCompare_noPull]. now apply noPull_fields.
  - destruct (postEndTimeout m); [|apply noPull_refl].
    eapply noPull_trans; [|apply doCompare_noPull]. now apply noPull_fields.
  - unfold checkpoint. destruct (isDone m);
      [now apply noPull_fields | apply doCompare_noPull].
  - unfold end_. destruct (isDone m);
      [now apply noPull_fields | apply doCompare_noPull].
Qed.

Lemma step_noReader (a : action) (m : machine) :
  noReader m -> noReader (step a m).
Proof.
  intros Hn. destruct a as [i eventName args|i chunk| | | | |];
    try (apply (noReader_noPull m); [apply step_noPull|]; auto; discriminate).
  destruct Hn as [Hn Hr]. simpl. split; [destruct i; exact Hn|].
  intros j r Hin. apply (Hr j). unfold regs in *.
  rewrite stream_of_set_stream in Hin. destruct i, j; exact Hin.
Qed.

Lemma addsNoReader_refl (m : machine) : addsNoReader m m.
Proof. intros j r Hr. now left. Qed.

Lemma addsNoReader_trans (m1 m2 m3 : machine) :
  addsNoReader m1 m2 -> addsNoReader m2 m3 -> addsNoReader m1 m3.
Proof.
  intros H1 H2 j r Hr. destruct (H2 j r Hr) as [Hr2|]; auto.
Qed.

Lemma addsNoReader_register (i : side) (eventName : string) (fn : Fn.t)
    (o : bool) (m : machine) :
  fn <> Fn.readNext -> fn <> Fn.readNextOnEnd ->
  addsNoReader m (register i eventName fn o m).
Proof.
  intros H1 H2 j r Hr. rewrite register_regs in Hr.
  destruct i, j; auto; apply in_app_or in Hr as [Hr|[<-|[]]]; auto.
Qed.

Lemma addsNoReader_same (m m' : machine) :
  (forall j, regs j m' = regs j m) -> addsNoReader m m'.
Proof. intros H j r Hr. left. now rewrite <- H. Qed.

Lemma fold_wireEvent_adds (names : list string) (m : machine) :
  addsNoReader m (fold_left wireEvent names m).
Proof.
  revert m. induction names as [|n names IH]; intros m; simpl.
  - apply addsNoReader_refl.
  - eapply addsNoReader_trans; [|apply IH].
    destruct (wireEvent_cases m n) as [(_ & ->) | (_ & _ & ->)].
    + apply addsNoReader_refl.
    + eapply addsNoReader_trans;
        [|apply addsNoReader_register; discriminate].
      eapply addsNoReader_trans;
        [|apply addsNoReader_same; intros [|]; reflexivity].
      eapply addsNoReader_trans;
        [|apply addsNoReader_register; discriminate].
      apply addsNoReader_same. intros [|]; reflexivity.
Qed.

Lemma fold_wireEndEvent_adds (names : list string) (m : machine) :
  addsNoReader m (fold_left wireEndEvent names m).
Proof.
  revert m. induction names as [|n names IH]; intros m; simpl.
  - apply addsNoReader_refl.
  - eapply addsNoReader_trans; [|apply IH].
    destruct (wireEndEvent_cases m n) as [(_ & _ & ->) | (_ & ->)].
    + apply addsNoReader_refl.
    + eapply addsNoReader_trans; apply addsNoReader_register; discriminate.
Qed.

Lemma wired_adds (m0 : machine) :
  let o := options m0 in
  let m1 := fold_left wireEvent (Options.events o) m0 in
  let m2 := fold_left wireEndEvent (Options.endEvents o) m1 in
  let m3 :=
    if Options.abortOnError o then
      once Two "error" Fn.onStreamError (once One "error" Fn.onStreamError m2)
    else m2 in
  let m4 :=
    match Options.readPolicy o with
    | ReadPolicy.flowing =>
        let m := debug WillFlowing m3 in
        on Two "data" Fn.handleData (on One "data" Fn.handleData m)
    | ReadPolicy.least =>
        let m := debug WillLeast m3 in
        let m := once One "end" Fn.readNextOnEnd m in
        let m := once Two "end" Fn.readNextOnEnd m in
        set_nextTick true m
    | ReadPolicy.none => debug NotReading m3
    end in
  Options.readPolicy o <> ReadPolicy.least -> addsNoReader m0 m4.
Proof.
  intros o m1 m2 m3 m4 Hpol.
  eapply addsNoReader_trans; [apply fold_wireEvent_adds|]. fold m1.
  eapply addsNoReader_trans; [apply fold_wireEndEvent_adds|]. fold m2.
  apply (addsNoReader_trans _ m3).
  - subst m3. destruct (Options.abortOnError o); [|apply addsNoReader_refl].
    eapply addsNoReader_trans;
      [apply (addsNoReader_register One "error" Fn.onStreamError true)
      |apply (addsNoReader_register Two "error" Fn.onStreamError true)];
      discriminate.
  - subst m4. destruct (Options.readPolicy o) eqn:P; [|now destruct Hpol|].
    + cbv zeta.
      eapply addsNoReader_trans;
        [apply (addsNoReader_same _ (debug WillFlowing m3));
         intros [|]; reflexivity|].
      eapply addsNoReader_trans;
        [apply (addsNoReader_register One "data" Fn.handleData false)
        |apply (addsNoReader_register Two "data" Fn.handleData false)];
        discriminate.
    + apply addsNoReader_same. intros [|]; reflexivity.
Qed.

Lemma streamCompare_noReader (s1 s2 : Stream.t)
    (optionsOrCompare : option (compareFn + StreamCompareOptions.t))
    (m : machine) :
  Stream.registrations s1 = [] ->
  Stream.registrations s2 = [] ->
  streamCompare s1 s2 optionsOrCompare = Normal m ->
  Options.readPolicy (options m) <> ReadPolicy.least ->
  noReader m.
Proof.
  intros R1 R2 Run Hpol.
  destruct (streamCompare_started _ _ _ _ Run)
    as ((_ & _ & _ & _ & _ & _ & _ & Op) & _
        & (_ & _ & _ & _ & _ & _ & _ & Fn) & _).
  split.
  { rewrite Fn. destruct (Options.readPolicy (options m)) eqn:P; auto.
    now destruct Hpol. }
  revert Run Hpol Op. clear Fn. unfold streamCompare. cbv zeta.
  destruct (_ && (_ || _)); [discriminate|].
  match goal with
  | |- match ?c with Some _ => _ | None => _ end = _ -> _ =>
      destruct c as [cmp|]; [|discriminate]
  end.
  intros Heq. injection Heq as Heq.
  match type of Heq with
  | context [fold_left wireEvent _ ?m0] =>
      pose proof (wired_adds m0) as H; set (start := m0) in H
  end.
  cbv zeta in H.
  match type of H with
  | _ -> addsNoReader _ ?m4 =>
      assert (Hm : m = m4) by (rewrite <- Heq; reflexivity)
  end.
  clear Heq. intros Hpol Op.
  assert (Hp0 : Options.readPolicy (options start) <> ReadPolicy.least).
  { intros E. apply Hpol. rewrite Op. exact E. }
  specialize (H Hp0). rewrite <- Hm in H.
  intros j r Hr. destruct (H j r Hr) as [Hin|]; auto.
  destruct j;
    [change (In r (Stream.registrations s1)) in Hin; rewrite R1 in Hin
    |change (In r (Stream.registrations s2)) in Hin; rewrite R2 in Hin];
    contradiction.
Qed.

Lemma reachable_noReader (m : machine) :
  reachable m ->
  Options.readPolicy (options m) <> ReadPolicy.least ->
  noReader m.
Proof.
  induction 1 as [s1 s2 o m R1 R2 Hstart | a m Hreach IH]; intros Hpol.
  - now apply (streamCompare_noReader s1 s2 o).
  - apply step_noReader. apply IH.
    destruct (reachable_Inv m Hreach) as [H0 _].
    now rewrite <- (moved_options _ _ (proj1 (step_ok a m H0))).
Qed.

(** X16. Under readPolicy ['flowing'] or ['none'] the engine never calls
    [.read()]: no event, tick, timer, [checkpoint()] or [end()] takes
    anything off the read buffer of a stream. *)
Theorem no_reads_unless_least (m : machine) (a : action) :
  reachable m ->
  Options.readPolicy (options m) <> ReadPolicy.least ->
  (forall i chunk, a <> APush i chunk) ->
  forall j,
    Stream.readable (stream_of j (step a m)) = Stream.readable (stream_of j m).
Proof.
  intros Hr Hpol Ha j.
  destruct (step_noPull a m (reachable_noReader m Hr Hpol) Ha)
    as (_ & _ & H).
  apply H.
Qed.

Lemma no_reads_unless_least_witness :
  exists m,
    streamCompare loadedStream loadedStream (Some (inr noneOptions)) = Normal m
    /\ Stream.readable (stream_of One (step (AEmit One "end" []) m))
       = Stream.readable (stream_of One m).
Proof.
  eexists. split; [reflexivity|].
  match goal with
  | |- Stream.readable (stream_of One (step ?a ?m)) = _ =>
      apply (no_reads_unless_least m a
               (reachable_start loadedStream loadedStream
                  (Some (inr noneOptions)) m eq_refl eq_refl eq_refl))
  end.
  - discriminate.
  - discriminate.
Defined.

(** ** Waking up [readNext] *)

Lemma readNext_loop_wakeup (fuel : nat) (m : machine) :
  chunks m < fuel ->
  let m' := readNext_loop fuel m in
  isDone m' = true
  \/ (StreamState.ended (state1 m') = true
      /\ StreamState.ended (state2 m') = true)
  \/ exists i, waitsOn i m'.
Proof.
  revert m. induction fuel as [|fuel IH]; intros m Hf; [inversion Hf|].
  cbv zeta. destruct (isDone m) eqn:Hd.
  { left. simpl. now rewrite Hd. }
  pose proof (readNext_loop_step m fuel Hd) as Step.
  destruct (selectStream m) as [i|] eqn:Sel.
  - destruct (Stream.readable (stream_of i m)) as [|chunk rest] eqn:Q.
    + rewrite Step. right. right. exists i.
      eexists _, _. unfold once, regs. rewrite stream_of_set_stream.
      destruct i; reflexivity.
    + cbv zeta in Step. rewrite Step. destruct (is_null chunk).
      * right. right. exists i.
        eexists _, _. unfold once, regs. rewrite stream_of_set_stream.
        destruct i; reflexivity.
      * apply IH. rewrite handleData_chunks.
        pose proof (chunks_read i m chunk rest Q). lia.
  - rewrite Step. right. left.
    destruct (selectStream_spec m) as (_ & _ & S3). cbv zeta in S3.
    apply S3 in Sel. exact Sel.
Qed.

(** X17. [readNext] never just stops: when it returns, the comparison is
    settled, or both states have ended, or the newest listener on one of
    the streams is a once-registration of [readNext] for ['readable'].
    Its loop ends within one iteration more than there are buffered
    chunks: any larger bound gives the same machine. *)
Theorem readNext_leaves_a_wakeup (m : machine) :
  let m' := readNext m in
  (isDone m' = true
   \/ (StreamState.ended (state1 m') = true
       /\ StreamState.ended (state2 m') = true)
   \/ exists i, waitsOn i m')
  /\ forall fuel, chunks m < fuel -> readNext_loop fuel m = m'.
Proof.
  split.
  - apply readNext_loop_wakeup. unfold lt. reflexivity.
  - intros fuel. apply readNext_enough_fuel.
Qed.

Lemma readNext_leaves_a_wakeup_witness :
  (isDone (readNext unevenMachine) = true
   \/ (StreamState.ended (state1 (readNext unevenMachine)) = true
       /\ StreamState.ended (state2 (readNext unevenMachine)) = true)
   \/ exists i, waitsOn i (readNext unevenMachine))
  /\ readNext_loop 7 unevenMachine = readNext unevenMachine.
Proof.
  destruct (readNext_leaves_a_wakeup unevenMachine) as [H1 H2].
  split; [exact H1|]. apply H2. vm_compute. lia.
Defined.

(** ** Both streams end *)

Lemma reachable_step_flags (a : action) (m : machine) (j : side) :
  reachable m -> respectful (options m) ->
  (StreamState.ended (state_of j m) = true \/ isDone m = true) ->
  respectful (options (step a m))
  /\ (StreamState.ended (state_of j (step a m)) = true
      \/ isDone (step a m) = true).
Proof.
  intros Hr Hresp H. destruct (reachable_Inv m Hr) as [H0 _].
  pose proof (step_tracks a m H0) as T.
  split; [now rewrite (tr_options _ _ T)|].
  destruct H as [H|H]; [left | right].
  - now apply (tr_flags _ _ T).
  - now apply (tr_done _ _ T).
Qed.

Lemma reachable_run_flags (acts : list action) (m : machine) (j : side) :
  reachable m -> respectful (options m) ->
  (StreamState.ended (state_of j m) = true \/ isDone m = true) ->
  respectful (options (run acts m))
  /\ (StreamState.ended (state_of j (run acts m)) = true
      \/ isDone (run acts m) = true).
Proof.
  revert m. induction acts as [|a acts IH]; intros m Hr Hresp H; simpl; auto.
  destruct (reachable_step_flags a m j Hr Hresp H) as [R F].
  apply IH; auto. now constructor.
Qed.

(** X18. With comparison functions that do not write [ended]: once each
    stream has emitted one of the end events (in either order, and
    whatever else happens in between and afterwards) and the post-end
    timer has had its turn, the promise is settled. *)
Theorem ended_streams_settle (m : machine) (i j : side) (k1 k2 : string)
    (args1 args2 : list jsval) (between after : list action) :
  reachable m ->
  i <> j ->
  respectful (options m) ->
  In k1 (Options.endEvents (options m)) ->
  In k2 (Options.endEvents (options m)) ->
  (Options.abortOnError (options m) = true -> k1 <> "error" /\ k2 <> "error") ->
  let timer :=
    if Options.delay (options m) =? 0 then AImmediate else ATimeout in
  settled
    (run ([AEmit i k1 args1] ++ between ++ [AEmit j k2 args2] ++ after
          ++ [timer]) m).
Proof.
  intros Hr Hij Hresp Hk1 Hk2 Hne timer.
  unfold run. rewrite !fold_left_app. cbn [fold_left].
  fold (run between (step (AEmit i k1 args1) m)).
  set (m1 := step (AEmit i k1 args1) m).
  set (m2 := run between m1).
  fold (run after (step (AEmit j k2 args2) m2)).
  set (m3 := step (AEmit j k2 args2) m2).
  set (m4 := run after m3).
  assert (R1 : reachable m1) by now constructor.
  assert (R2 : reachable m2) by now apply reachable_run.
  assert (R3 : reachable m3) by now constructor.
  assert (R4 : reachable m4) by now apply reachable_run.
  assert (O : forall x a, reachable x -> options (step a x) = options x).
  { intros x a Hx. destruct (reachable_Inv x Hx) as [H0 _].
    apply (tr_options _ _ (step_tracks a x H0)). }
  assert (Or : forall x acts, reachable x -> options (run acts x) = options x).
  { intros x acts Hx. destruct (reachable_Inv x Hx) as [H0 _].
    apply (tr_options _ _ (run_tracks acts x H0)). }
  assert (O1 : options m1 = options m) by now apply O.
  assert (O2 : options m2 = options m) by (subst m2; rewrite Or; auto).
  assert (O3 : options m3 = options m) by (subst m3; rewrite O; auto).
  assert (O4 : options m4 = options m) by (subst m4; rewrite Or; auto).
  (* stream 1 *)
  assert (F1 : StreamState.ended (state_of i m1) = true \/ isDone m1 = true).
  { apply (emit_marks m i k1 args1); auto. intros Ha. now apply Hne. }
  destruct (reachable_run_flags between m1 i R1) as [_ F12];
    [now rewrite O1 | exact F1 |]. fold m2 in F12.
  destruct (reachable_step_flags (AEmit j k2 args2) m2 i R2) as [_ F13];
    [now rewrite O2 | exact F12 |]. fold m3 in F13.
  destruct (reachable_run_flags after m3 i R3) as [_ F14];
    [now rewrite O3 | exact F13 |]. fold m4 in F14.
  (* stream 2 *)
  assert (F2 : StreamState.ended (state_of j m3) = true \/ isDone m3 = true).
  { apply (emit_marks m2 j k2 args2); auto; rewrite O2; auto.
    intros Ha. now apply Hne. }
  destruct (reachable_run_flags after m3 j R3) as [_ F24];
    [now rewrite O3 | exact F2 |]. fold m4 in F24.
  (* the timer *)
  assert (D : isDone (step timer m4) = true).
  { destruct (isDone m4) eqn:Hd.
    - destruct (reachable_Inv m4 R4) as [H0 _].
      apply (tr_done _ _ (step_tracks timer m4 H0) Hd).
    - destruct F14 as [F14|F14]; [|congruence].
      destruct F24 as [F24|F24]; [|congruence].
      destruct (both_ended_due m4 R4) as (_ & _ & F); auto;
        [now rewrite O4
        | destruct i, j; auto; now destruct Hij
        | destruct i, j; auto; now destruct Hij |].
      subst timer. rewrite <- O4. exact F. }
  apply (inv_settled _ (proj1 (reachable_Inv _ (reachable_step timer m4 R4)))).
  exact D.
Qed.

Lemma ended_streams_settle_witness :
  exists m,
    streamCompare idleStream idleStream compareOnly = Normal m
    /\ settled
         (run ([AEmit One "end" []] ++ [APush Two (VStr "x"); ANextTick]
               ++ [AEmit Two "error" [VStr "E"]] ++ [ACheckpoint]
               ++ [AImmediate]) m).
Proof.
  eexists. split; [reflexivity|].
  match goal with
  | |- settled (run _ ?m) =>
      apply (ended_streams_settle m One Two "end" "error" [] [VStr "E"]
               [APush Two (VStr "x"); ANextTick] [ACheckpoint]
               (reachable_start idleStream idleStream compareOnly m
                  eq_refl eq_refl eq_refl))
  end.
  - discriminate.
  - split; [|discriminate]. intros st. split; reflexivity.
  - vm_compute. left. reflexivity.
  - vm_compute. right. left. reflexivity.
  - discriminate.
Defined.

(** ** Settlement under ['least'] and ['none'] *)


